(** * Snowflare relay: ingestion, storage, query and auth handlers

    A shallow embedding of the relay's message handlers
    ([EventMessageHandler], [ReqMessageHandler], [AuthMessageHandler]),
    of [Auth.Challenge.validate] and of the KV + D1 event repository
    ([KvD1EventRepository]), followed by the properties the design
    document states about them.

    Conventions of the embedding.
    - JavaScript [number]s that the code only compares, adds or passes on
      are [Z]; [Date.now()] is an explicit argument [now].
    - A tag is a [list string] ([string[]] in the source); reading a
      missing position gives [None] ([undefined]).
    - [ws.send(JSON.stringify(frame))] appends [(socket index, frame)] to
      the list of frames the handler returns.
    - The D1 table [events] is the list of its rows in insertion order; the
      KV namespace [events] is a finite map from key to stored value. The
      writes to D1 and the calls to KV are total: the schema of the table
      is not part of the embedded files, and no write is taken to fail.
    - The statement of [#findByQuery] is refused by D1 when it binds more
      than 100 parameters, and [find] then throws ([None]). Ids, authors
      and the values of the keys of [hexTagKeys] are written into the text
      of the statement: the [WHERE] clause is given its meaning ([where_])
      when D1 reads that text as the code wrote it ([as_written]), and the
      result is left to the variable [D1_run] otherwise.
    - Functions of the nostr-tools package and of modules of the relay that
      the handlers import but that are not part of the embedded files
      ([verifyEvent], [normalizeURL], [validateFilter], [broadcastable],
      the regular expressions of [nostr.ts], the account lookup) are
      variables of the section. *)

From Stdlib Require Import ZArith List String Ascii Bool Lia.
From Stdlib Require Import Sorting.Sorted Sorting.Permutation.
From stdpp Require Import base option list gmap strings pretty fin_maps.

Import ListNotations.
Local Open Scope string_scope.
Local Open Scope list_scope.
Local Open Scope Z_scope.

(** ** Event model *)

Abbreviation Tag := (list string).

Record Event := mkEvent {
  id : string;
  pubkey : string;
  created_at : Z;
  kind : Z;
  tags : list Tag;
  content : string;
  ev_sig : string
}.

(** [tag[i]] of a JavaScript array: [None] stands for [undefined]. *)
Definition at_ (t : Tag) (i : nat) : option string := nth_error t i.

(** [`${v}`]: how a possibly undefined string is rendered inside a template
    literal or coerced by [RegExp.prototype.test]. *)
Definition render (v : option string) : string :=
  match v with Some s => s | None => "undefined" end.

(** [name === "x"] where [name] may be [undefined]. *)
Definition is_str (v : option string) (s : string) : bool :=
  match v with Some x => String.eqb x s | None => false end.

(** [typeof value === "string"] *)
Definition is_string (v : option string) : bool :=
  match v with Some _ => true | None => false end.

(** ** nostr-tools/kinds *)

Definition EventDeletion : Z := 5.
Definition ClientAuth : Z := 22242.

Definition isReplaceableKind (k : Z) : bool :=
  (k =? 0) || (k =? 3) || ((10000 <=? k) && (k <? 20000)).

Definition isEphemeralKind (k : Z) : bool :=
  (20000 <=? k) && (k <? 30000).

Definition isAddressableKind (k : Z) : bool :=
  (30000 <=? k) && (k <? 40000).

(** [a.localeCompare(b)] on event ids. Every id that reaches a comparison
    is 64 lower-case hexadecimal digits (the incoming one passed
    [verifyEvent], the stored one is read back as [LOWER(HEX(id))]); on
    such strings the collation order is the order of the code units, which
    is what [String.compare] computes. *)
Definition localeCompare (a b : string) : Z :=
  match String.compare a b with
  | Lt => -1
  | Eq => 0
  | Gt => 1
  end.

(** [sortEvents] of nostr-tools: newest first, equal timestamps by
    ascending id. [Array.prototype.sort] is stable, as is this insertion. *)
Definition sortEvents_cmp (a b : Event) : Z :=
  if negb (created_at a =? created_at b)
  then created_at b - created_at a
  else localeCompare (id a) (id b).

Fixpoint sort_insert {A} (cmp : A -> A -> Z) (x : A) (l : list A) : list A :=
  match l with
  | [] => [x]
  | y :: l' => if cmp y x <=? 0 then y :: sort_insert cmp x l' else x :: l
  end.

(** A stable sort with a JavaScript comparator ([cmp a b <= 0] keeps [a]
    before [b]). *)
Definition sort_by {A} (cmp : A -> A -> Z) (l : list A) : list A :=
  fold_left (fun acc x => sort_insert cmp x acc) l [].

Definition sortEvents (events : list Event) : list Event :=
  sort_by sortEvents_cmp events.

(** ** config.ts and config/default.ts *)

Record Limitation := mkLimitation {
  max_subscriptions : Z;
  max_filters : Z;
  max_limit : Z;
  max_subid_length : Z;
  auth_required : bool;
  restricted_writes : bool
}.

Record Config := mkConfig {
  limitation : Limitation;
  auth_timeout : Z;
  auth_limit : Z;
  default_limit : Z
}.

Definition defaultConfig : Config :=
  {| limitation :=
       {| max_subscriptions := 20;
          max_filters := 10;
          max_limit := 500;
          max_subid_length := 50;
          auth_required := false;
          restricted_writes := true |};
     auth_timeout := 600;
     auth_limit := 5;
     default_limit := 50 |}.

(** ** Filters *)

Record Filter := mkFilter {
  f_ids : option (list string);
  f_authors : option (list string);
  f_kinds : option (list Z);
  f_since : option Z;
  f_until : option Z;
  f_limit : option Z;
  (** the remaining entries of the object ([#e], [#p], ... and any other
      key), each with its list of values, in key order *)
  f_entries : list (string * list string)
}.

Definition key_if {A} (field : option A) (k : string) : list string :=
  match field with Some _ => [k] | None => [] end.

(** [Object.keys(filter)] *)
Definition filter_keys (f : Filter) : list string :=
  key_if (f_ids f) "ids" ++
  key_if (f_authors f) "authors" ++
  key_if (f_kinds f) "kinds" ++
  key_if (f_since f) "since" ++
  key_if (f_until f) "until" ++
  key_if (f_limit f) "limit" ++
  map fst (f_entries f).

(** ** Storage: the D1 table and the KV namespace *)

Record Row := mkRow {
  (** [id] and [pubkey] hold [UNHEX] of the inserted text and are read back
      as [LOWER(HEX(..))]: for the 64 lower-case hexadecimal digits of a
      verified event that is the text itself, which the record keeps *)
  row_id : string;
  row_pubkey : string;
  row_kind : Z;
  (** [json(?4)]: the indexed tags object, or [None] for SQL NULL *)
  row_tags : option (list (string * list string));
  row_created_at : Z
}.

Record Metadata := mkMetadata {
  md_ipAddress : option string;
  md_receivedAt : Z
}.

Record Bindings := mkBindings {
  (** D1 table [events] *)
  DB : list Row;
  (** KV namespace [events]: the stored event and its metadata *)
  events : gmap string (Event * Metadata);
  (** [env.LOCAL === "true"] *)
  LOCAL : bool
}.

(** JavaScript [Map] with string keys, kept in insertion order. *)
Fixpoint map_get {V} (k : string) (m : list (string * V)) : option V :=
  match m with
  | [] => None
  | (k', v) :: m' => if String.eqb k' k then Some v else map_get k m'
  end.

Fixpoint map_set {V} (k : string) (v : V) (m : list (string * V))
  : list (string * V) :=
  match m with
  | [] => [(k, v)]
  | (k', v') :: m' =>
      if String.eqb k' k then (k, v) :: m' else (k', v') :: map_set k v m'
  end.

Definition includes (x : string) (l : list string) : bool :=
  existsb (String.eqb x) l.

(** [[...new Set(values)]]: first occurrences, in order. *)
Definition unique (l : list string) : list string :=
  fold_left (fun acc x => if includes x acc then acc else acc ++ [x]) l [].

(** [array.slice(a, b)] for [0 <= a <= b] *)
Definition slice {A} (a b : nat) (l : list A) : list A :=
  firstn (b - a) (skipn a l).

(** The local [chunk] of [#findByIds]:
    [Array.from({ length: Math.ceil(array.length / size) },
                (_, i) => array.slice(i * size, i * size + size))]. *)
Definition chunk {A} (array : list A) (size : nat) : list (list A) :=
  map (fun i => slice (i * size) (i * size + size) array)
      (seq 0 (Nat.div (length array + size - 1) size)).

(** [ORDER BY created_at DESC] over the selected rows. SQLite leaves the
    order of rows with equal [created_at] open; the embedding keeps them in
    table order. *)
Definition order_desc_cmp (a b : Row) : Z := row_created_at b - row_created_at a.

Definition order_by_created_at_desc (rows : list Row) : list Row :=
  sort_by order_desc_cmp rows.

(** [LIMIT n]: a negative [n] means no limit in SQLite. *)
Definition sql_limit {A} (n : Z) (rows : list A) : list A :=
  if n <? 0 then rows else firstn (Z.to_nat n) rows.

(** [EXISTS(SELECT 1 FROM json_each(json_extract(tags, '$.name'))
            WHERE json_each.value IN (values))] *)
Definition tags_json_has (r : Row) (name : string) (values : list string) : bool :=
  match row_tags r with
  | None => false
  | Some obj =>
      match map_get name obj with
      | None => false
      | Some stored => existsb (fun v => includes v values) stored
      end
  end.

(** [key[1]] of a filter key such as ["#e"], as interpolated in the query. *)
Definition key_1 (key : string) : string :=
  match key with
  | String _ (String c _) => String c EmptyString
  | _ => "undefined"
  end.

Definition startsWith_hash (key : string) : bool :=
  match key with
  | String c _ => Ascii.eqb c "#"%char
  | EmptyString => false
  end.

(** ** SQLite: [UNHEX] and values written into the statement text *)

Definition is_hex_digit (c : ascii) : bool :=
  let n := nat_of_ascii c in
  ((48 <=? n) && (n <=? 57) || (97 <=? n) && (n <=? 102)
   || (65 <=? n) && (n <=? 70))%nat.

Definition lower_hex_digit (c : ascii) : ascii :=
  let n := nat_of_ascii c in
  if ((65 <=? n) && (n <=? 70))%nat then ascii_of_nat (n + 32) else c.

(** [UNHEX(X)] of a text: the blob, written with the lower-case hexadecimal
    digits that [LOWER(HEX(..))] gives for it, or [None] for [NULL], when
    [X] has a character that is no hexadecimal digit or an odd number of
    digits. *)
Definition UNHEX (x : string) : option string :=
  let digits := list_ascii_of_string x in
  if Nat.even (length digits) && forallb is_hex_digit digits
  then Some (string_of_list_ascii (map lower_hex_digit digits))
  else None.

(** [column IN (UNHEX(t1), UNHEX(t2), ...)] for string literals [t1], ...
    and a column that holds [UNHEX] of the text [stored]. Blobs are
    compared; a [NULL] on either side selects nothing. *)
Definition blob_in (stored : string) (tokens : list string) : bool :=
  match UNHEX stored with
  | None => false
  | Some blob =>
      existsb (fun t => match UNHEX t with
                        | Some b => String.eqb b blob
                        | None => false
                        end) tokens
  end.

Definition double_quote : ascii := ascii_of_nat 34.

Definition printable (c : ascii) : bool :=
  let n := nat_of_ascii c in ((32 <=? n) && (n <=? 126))%nat.

Definition is_alphanumeric (c : ascii) : bool :=
  let n := nat_of_ascii c in
  ((48 <=? n) && (n <=? 57) || (65 <=? n) && (n <=? 90)
   || (97 <=? n) && (n <=? 122))%nat.

(** [`"${v}"`] *)
Definition quoted (v : string) : string :=
  String double_quote v +:+ String double_quote "".

(** The largest number of parameters D1 binds to one statement. *)
Definition D1_max_bound_parameters : nat := 100.

(** ** KvD1EventRepository *)

Section Relay.

Set Default Proof Using "Type".

(** [nostr.ts]: [tagsFilterRegExp.test], [hexRegExp.test], [idsFilterKeys],
    [hexTagKeys], [validateFilter], [broadcastable]. *)
Variable tagsFilterRegExp_test : string -> bool.
Variable hexRegExp_test : string -> bool.
Variable idsFilterKeys : list string.
Variable hexTagKeys : list string.
Variable validateFilter : Filter -> bool.
Variable broadcastable : Filter -> Event -> bool.
(** The relay configuration: [config], of which [nip11.limitation] is the
    [limitation] part. The defaults are [defaultConfig]; the deployment's
    [config/override] may replace any of them. *)
Variable config : Config.
(** nostr-tools: [verifyEvent]; [normalizeURL], which throws on a string
    that is not a URL ([None]). *)
Variable verifyEvent : Event -> bool.
Variable normalizeURL : string -> option string.
(** [new Account(pubkey, env).exists()] *)
Variable Account_exists : string -> bool.
(** D1. SQLite reads a text in double quotes as the column of that name
    when the statement has one in scope, and as a string literal otherwise;
    the schema of the table [events] is not part of the sources.
    [names_column v]: a column named [v] is in scope of a clause of the
    [SELECT] of [#findByQuery] (a column of [events], or of [json_each]
    inside a tag clause). *)
Variable names_column : string -> bool.
(** [DB.prepare(query).bind(...params).run()] for a [SELECT] of
    [#findByQuery] whose text D1 does not read the way the code wrote it
    (see [as_written] below): the ids of [result.results], or [None] when
    [run] throws. *)
Variable D1_run : list Row -> string -> list string -> option (list string).

(** *** save *)

Definition saveToKV (env : Bindings) (event : Event)
    (ipAddress : option string) (now : Z) : Bindings :=
  {| DB := DB env;
     events := <[id event := (event, mkMetadata ipAddress now)]> (events env);
     LOCAL := LOCAL env |}.

Definition indexedTags (event : Event) : list Tag :=
  List.filter
    (fun t => tagsFilterRegExp_test ("#" +:+ render (at_ t 0))
              && is_string (at_ t 1))
    (tags event).

Definition indexedTagsMap (event : Event) : list (string * list string) :=
  fold_left
    (fun tags t =>
       let name := render (at_ t 0) in
       let value := render (at_ t 1) in
       let values := default [] (map_get name tags) in
       let values' := if includes value values then values
                      else values ++ [value] in
       map_set name values' tags)
    (indexedTags event) [].

Definition event_row (event : Event) : Row :=
  {| row_id := id event;
     row_pubkey := pubkey event;
     row_kind := kind event;
     row_tags := match indexedTagsMap event with
                 | [] => None
                 | m => Some m
                 end;
     row_created_at := created_at event |}.

(** [INSERT INTO events ... VALUES (...)] *)
Definition saveToD1 (env : Bindings) (event : Event) : Bindings :=
  {| DB := DB env ++ [event_row event];
     events := events env;
     LOCAL := LOCAL env |}.

Definition save (env : Bindings) (event : Event)
    (ipAddress : option string) (now : Z) : Bindings :=
  saveToD1 (saveToKV env event ipAddress now) event.

(** *** #delete *)

Definition delete (env : Bindings) (ids : list string) : Bindings :=
  match ids with
  | [] => env
  | _ =>
      {| DB := List.filter (fun r => negb (includes (row_id r) ids)) (DB env);
         events := fold_left (fun kv i => base.delete i kv) ids (events env);
         LOCAL := LOCAL env |}
  end.

(** *** #saveLatestEvent *)

(** The condition under which the incoming event is dropped. *)
Definition latest_stands (latest : Row) (event : Event) : bool :=
  (row_created_at latest >? created_at event)
  || ((row_created_at latest =? created_at event)
      && (localeCompare (id event) (row_id latest) >=? 0)).

Definition saveLatestEvent (env : Bindings) (event : Event)
    (results : list Row) (ipAddress : option string) (now : Z) : Bindings :=
  match results with
  | [] => save env event ipAddress now
  | latest :: _ =>
      if latest_stands latest event then env
      else save (delete env (map row_id results)) event ipAddress now
  end.

(** *** saveReplaceableEvent, saveAddressableEvent *)

Definition replaceable_query (event : Event) (r : Row) : bool :=
  (row_kind r =? kind event) && String.eqb (row_pubkey r) (pubkey event).

Definition saveReplaceableEvent (env : Bindings) (event : Event)
    (ipAddress : option string) (now : Z) : Bindings :=
  let results :=
    order_by_created_at_desc (List.filter (replaceable_query event) (DB env)) in
  saveLatestEvent env event results ipAddress now.

(** [event.tags.find(([name]) => name === "d")?.at(1) ?? ""] *)
Definition identifier (event : Event) : string :=
  match List.find (fun t => is_str (at_ t 0) "d") (tags event) with
  | Some t => default "" (at_ t 1)
  | None => ""
  end.

Definition addressable_query (event : Event) (r : Row) : bool :=
  (row_kind r =? kind event) && String.eqb (row_pubkey r) (pubkey event)
  && tags_json_has r "d" [identifier event].

Definition saveAddressableEvent (env : Bindings) (event : Event)
    (ipAddress : option string) (now : Z) : Bindings :=
  let results :=
    order_by_created_at_desc (List.filter (addressable_query event) (DB env)) in
  saveLatestEvent env event results ipAddress now.

(** *** deleteBy *)

Definition referenced_ids (event : Event) : list string :=
  map (fun t => render (at_ t 1))
      (List.filter
         (fun t => is_str (at_ t 0) "e" && hexRegExp_test (render (at_ t 1)))
         (tags event)).

Definition deleteBy (env : Bindings) (event : Event) : Bindings :=
  let ids := referenced_ids event in
  let uniqueIds := unique ids in
  match uniqueIds with
  | [] => env
  | _ =>
      let results :=
        List.filter (fun r => includes (row_id r) uniqueIds) (DB env) in
      let deleteIds :=
        map row_id
            (List.filter
               (fun r => String.eqb (row_pubkey r) (pubkey event)
                         && negb (row_kind r =? EventDeletion))
               results) in
      delete env deleteIds
  end.

(** *** find *)

(** One [client.kv.namespaces.keys.bulkGet] call: the response's [values]
    object has one property per requested key, so a repeated key is
    answered once; [Object.values(...).filter((v) => v !== null)] keeps
    the values that exist. *)
Definition bulkGet (env : Bindings) (keys : list string) : list Event :=
  omap (fun k => fst <$> events env !! k) (unique keys).

Definition findByIds (env : Bindings) (ids : list string) : list Event :=
  if LOCAL env then
    sortEvents (omap (fun i => fst <$> events env !! i) ids)
  else
    sortEvents
      (concat (map (fun ids' => bulkGet env (slice 0 100 ids'))
                   (chunk ids 100))).

Definition opt_pred {A} (field : option A) (p : A -> bool) : bool :=
  match field with Some x => p x | None => true end.

(** [Object.entries(filter).filter(([key]) => key.startsWith("#"))] *)
Definition tagsFilter (filter : Filter) : list (string * list string) :=
  List.filter (fun '(key, _) => startsWith_hash key) (f_entries filter).

(** The clause of one tag key: the values of a key of [hexTagKeys] are
    written into the text in double quotes, those of any other key are
    bound as parameters. *)
Definition tag_clause (key : string) (uniqueValues : list string) : string :=
  "EXISTS(SELECT 1 FROM json_each(json_extract(tags, '$." +:+ key_1 key
  +:+ "')) WHERE json_each.value IN ("
  +:+ String.concat ","
        (map (fun v => if includes key hexTagKeys then quoted v else "?")
             uniqueValues)
  +:+ "))".

Definition wheres (filter : Filter) : list string :=
  match f_ids filter with
  | Some ids =>
      ["id IN ("
       +:+ String.concat "," (map (fun i => "UNHEX(" +:+ quoted i +:+ ")") ids)
       +:+ ")"]
  | None => []
  end
  ++ match f_authors filter with
     | Some authors =>
         ["pubkey IN ("
          +:+ String.concat ","
                (map (fun pk => "UNHEX(" +:+ quoted pk +:+ ")") authors)
          +:+ ")"]
     | None => []
     end
  ++ match f_kinds filter with
     | Some kinds =>
         ["kind IN (" +:+ String.concat "," (map pretty kinds) +:+ ")"]
     | None => []
     end
  ++ match f_since filter with
     | Some since => ["created_at >= " +:+ pretty since]
     | None => []
     end
  ++ match f_until filter with
     | Some until => ["created_at <= " +:+ pretty until]
     | None => []
     end
  ++ map (fun '(key, values) => tag_clause key (unique values))
         (tagsFilter filter).

Definition params (filter : Filter) : list string :=
  concat
    (map (fun '(key, values) =>
            if includes key hexTagKeys then [] else unique values)
         (tagsFilter filter)).

Definition query (filter : Filter) : string :=
  let select := "SELECT LOWER(HEX(id)) as id FROM events" in
  let orderBy := "ORDER BY created_at DESC" in
  let limit :=
    "LIMIT " +:+ pretty (default (default_limit config) (f_limit filter)) in
  String.concat " "
    match wheres filter with
    | [] => [select; orderBy; limit]
    | clauses => [select; "WHERE"; String.concat " AND " clauses; orderBy; limit]
    end.

(** D1 reads the value as the string literal that the code means: it has
    no double quote that would end the literal, only printable ASCII
    characters, and names no column. *)
Definition reads_as_literal (v : string) : bool :=
  forallb (fun c => printable c && negb (Ascii.eqb c double_quote))
          (list_ascii_of_string v)
  && negb (names_column v).

(** D1 reads the statement the way the code wrote it: every id, author
    and value of a key of [hexTagKeys] is read as a literal, and every
    [key[1]] is a plain label of a JSON path inside its single quotes. *)
Definition as_written (filter : Filter) : bool :=
  forallb reads_as_literal (default [] (f_ids filter))
  && forallb reads_as_literal (default [] (f_authors filter))
  && forallb
       (fun '(key, values) =>
          forallb is_alphanumeric (list_ascii_of_string (key_1 key))
          && (negb (includes key hexTagKeys)
              || forallb reads_as_literal (unique values)))
       (tagsFilter filter).

(** The [WHERE] clause of a statement that is read as written: ids and
    authors are compared as blobs, and a tag clause selects the rows with
    one of the values under the tag name, whether the values are bound or
    literals in the text. *)
Definition where_ (filter : Filter) (r : Row) : bool :=
  opt_pred (f_ids filter) (blob_in (row_id r))
  && opt_pred (f_authors filter) (blob_in (row_pubkey r))
  && opt_pred (f_kinds filter) (existsb (Z.eqb (row_kind r)))
  && opt_pred (f_since filter) (fun since => row_created_at r >=? since)
  && opt_pred (f_until filter) (fun until => row_created_at r <=? until)
  && forallb
       (fun '(key, values) => tags_json_has r (key_1 key) (unique values))
       (tagsFilter filter).

(** [result.results] of [#findByQuery]. The code logs more than 100
    parameters as the D1 limit and runs the statement all the same; D1
    rejects it and [run] throws ([None]). *)
Definition select_ids (env : Bindings) (filter : Filter) : option (list string) :=
  if (D1_max_bound_parameters <? length (params filter))%nat then None
  else if as_written filter then
    let limit := default (default_limit config) (f_limit filter) in
    Some (map row_id
              (sql_limit limit
                 (order_by_created_at_desc
                    (List.filter (where_ filter) (DB env)))))
  else D1_run (DB env) (query filter) (params filter).

(** [None]: [#findByQuery] throws. *)
Definition findByQuery (env : Bindings) (filter : Filter)
  : option (list Event) :=
  findByIds env <$> select_ids env filter.

Definition ids_only (filter : Filter) : bool :=
  forallb (fun key => includes key idsFilterKeys) (filter_keys filter)
  && match f_ids filter with
     | Some ids => Z.of_nat (length ids) <=? max_limit (limitation config)
     | None => false
     end.

(** [None]: [find] throws. *)
Definition find (env : Bindings) (filter : Filter) : option (list Event) :=
  if ids_only filter
  then Some (findByIds env (default [] (f_ids filter)))
  else findByQuery env filter.

(** ** Connections, frames and the durable object state *)

Record Session := mkSession {
  challenge : string;
  challengedAt : Z
}.

Record Connection := mkConnection {
  conn_id : string;
  ipAddress : option string;
  url : string;
  auth : option Session;
  pubkeys : gset string
}.

(** The outbound frames of the wire protocol. *)
Inductive Frame :=
| OK (eventId : string) (accepted : bool) (message : string)
| EVENT (subscriptionId : string) (event : Event)
| EOSE (subscriptionId : string)
| CLOSED (subscriptionId : string) (message : string)
| NOTICE (message : string)
| AUTH (challenge : string).

(** [Map<string, Filter[]>] *)
Abbreviation Subscriptions := (list (string * list Filter)).

(** [DurableObjectState]: the accepted sockets, each standing for its
    serialized attachment, and the transactional storage. Connection ids
    are UUIDs, so the ["maintenance"] entry never shares a key with a
    connection and is kept as a field of its own. *)
Record DurableObjectState := mkCtx {
  webSockets : list Connection;
  storage : gmap string Subscriptions;
  maintenance : option bool
}.

(** A frame sent on the socket with the given index. *)
Abbreviation Sent := (nat * Frame)%type.

Definition is_OK (f : Frame) : bool :=
  match f with OK _ _ _ => true | _ => false end.

Definition is_EVENT (f : Frame) : bool :=
  match f with EVENT _ _ => true | _ => false end.

(** The frames a client receives on its socket. *)
Definition received (ws : nat) (sent : list Sent) : list Frame :=
  map snd (List.filter (fun s => Nat.eqb (fst s) ws) sent).

Definition has (s : gset string) (x : string) : bool := bool_decide (x ∈ s).

Definition is_undefined {A} (v : option A) : bool :=
  match v with None => true | Some _ => false end.

(** *** Auth.Challenge.validate *)

Definition find_tag (name : string) (event : Event) : option string :=
  match List.find (fun t => is_str (at_ t 0) name) (tags event) with
  | Some t => at_ t 1
  | None => None
  end.

Definition opt_str_eqb (a b : option string) : bool :=
  match a, b with
  | Some x, Some y => String.eqb x y
  | None, None => true
  | _, _ => false
  end.

(** [None]: [normalizeURL] threw. *)
Definition Challenge_validate (event : Event) (auth : Session)
    (url : string) (now : Z) : option bool :=
  if negb (kind event =? 22242) then Some false
  else if challengedAt auth + auth_timeout config * 1000 <? now
  then Some false
  else
    let challenge' := find_tag "challenge" event in
    if negb (opt_str_eqb challenge' (Some (challenge auth)))
    then Some false
    else
      match find_tag "relay" event with
      | None => Some false
      | Some relay =>
          match normalizeURL relay with
          | None => None
          | Some a =>
              match normalizeURL url with
              | None => None
              | Some b => Some (String.eqb a b)
              end
          end
      end.

(** *** sender/auth.ts *)

(** Modelled from the spec: [sendAuthChallenge] of [message/sender/auth]
    is imported but not part of the embedded files. Per the design
    document it issues a fresh challenge ([Auth.Challenge.generate], a
    random UUID, here the argument [uuid]), sends it to the client as an
    [AUTH] frame and returns it. *)
Definition sendAuthChallenge (ws : nat) (uuid : string) : string * list Sent :=
  (uuid, [(ws, AUTH uuid)]).

(** *** EventMessageHandler *)

Definition broadcast (ctx : DurableObjectState) (event : Event) : list Sent :=
  concat
    (imap
       (fun (i : nat) (c : Connection) =>
          match storage ctx !! conn_id c with
          | None => []
          | Some subscriptions =>
              omap
                (fun '(sid, filters) =>
                   if existsb (fun filter => broadcastable filter event) filters
                   then Some (i, EVENT sid event)
                   else None)
                subscriptions
          end)
       (webSockets ctx)).

Definition isProtected (event : Event) : bool :=
  existsb (fun t => is_str (at_ t 0) "-") (tags event).

Definition has_d_tag (event : Event) : bool :=
  existsb (fun t => is_str (at_ t 0) "d" && is_string (at_ t 1)) (tags event).

Definition needs_auth (connection : Connection) (event : Event) : bool :=
  (is_undefined (auth connection)
   || negb (has (pubkeys connection) (pubkey event)))
  && (auth_required (limitation config)
      || restricted_writes (limitation config)
      || isProtected event).

(** The kind dispatch of [handle]; [None] is the early return of an
    addressable event without a [d] tag. *)
Definition store_event (env : Bindings) (event : Event)
    (ipAddress : option string) (now : Z) : option Bindings :=
  if isReplaceableKind (kind event) then
    Some (saveReplaceableEvent env event ipAddress now)
  else if isAddressableKind (kind event) then
    if negb (has_d_tag event) then None
    else Some (saveAddressableEvent env event ipAddress now)
  else if negb (isEphemeralKind (kind event)) then
    let env' := save env event ipAddress now in
    if kind event =? EventDeletion
    then Some (deleteBy env' event)
    else Some env'
  else Some env.

Definition EventMessageHandler_handle (event : Event)
    (ctx : DurableObjectState) (env : Bindings) (ws : nat)
    (now : Z) (uuid : string)
  : DurableObjectState * Bindings * list Sent :=
  if negb (verifyEvent event) then
    (ctx, env, [(ws, NOTICE "invalid: event")])
  else
    match webSockets ctx !! ws with
    | None => (ctx, env, [])
    | Some connection =>
        if needs_auth connection event then
          let '(challenge', sent) := sendAuthChallenge ws uuid in
          let connection' :=
            {| conn_id := conn_id connection;
               ipAddress := ipAddress connection;
               url := url connection;
               auth := Some (mkSession challenge' now);
               pubkeys := pubkeys connection |} in
          let message :=
            if isProtected event
            then "this event may only be published by its author"
            else "we only accept events from registered users" in
          ({| webSockets := <[ws := connection']> (webSockets ctx);
              storage := storage ctx;
              maintenance := maintenance ctx |},
           env,
           sent ++ [(ws, OK (id event) false ("auth-required: " +:+ message))])
        else
          match store_event env event (ipAddress connection) now with
          | None =>
              (ctx, env,
               [(ws, OK (id event) false
                       "invalid: addressable event requires d tag")])
          | Some env' =>
              (ctx, env',
               (ws, OK (id event) true "") :: broadcast ctx event)
          end
    end.

(** *** ReqMessageHandler *)

(** The [reduce] of [handle]: keep the first event of each id. *)
Definition distinct (events : list Event) : list Event :=
  fold_left
    (fun distinctEvents event =>
       if existsb (fun e => String.eqb (id e) (id event)) distinctEvents
       then distinctEvents
       else distinctEvents ++ [event])
    events [].

Definition put_subscriptions (ctx : DurableObjectState) (key : string)
    (subscriptions : Subscriptions) : DurableObjectState :=
  {| webSockets := webSockets ctx;
     storage := <[key := subscriptions]> (storage ctx);
     maintenance := maintenance ctx |}.

(** The state after [handle] and the frames it sent, or [None] for the
    frames when [handle] throws: a [find] of [Promise.all] threw, after
    [storage.put] and before anything was sent. *)
Definition ReqMessageHandler_handle (subscriptionId : string)
    (filters : list Filter) (ctx : DurableObjectState) (env : Bindings)
    (ws : nat) : DurableObjectState * option (list Sent) :=
  if Z.of_nat (String.length subscriptionId)
     >? max_subid_length (limitation config) then
    (ctx, Some [(ws, CLOSED subscriptionId
                       "unsupported: too long subscription id")])
  else if Z.of_nat (length filters) >? max_filters (limitation config) then
    (ctx, Some [(ws, CLOSED subscriptionId "unsupported: too many filters")])
  else if existsb (fun filter => negb (validateFilter filter)) filters then
    (ctx, Some [(ws, CLOSED subscriptionId
                       "unsupported: filters contain unsupported elements")])
  else
    match webSockets ctx !! ws with
    | None => (ctx, Some [])
    | Some connection =>
        let subscriptions :=
          map_set subscriptionId filters
                  (default [] (storage ctx !! conn_id connection)) in
        if Z.of_nat (length subscriptions)
           >? max_subscriptions (limitation config) then
          (ctx, Some [(ws, CLOSED subscriptionId
                             "unsupported: too many subscriptions")])
        else
          let ctx' := put_subscriptions ctx (conn_id connection) subscriptions in
          match mapM (find env) filters with
          | None => (ctx', None)
          | Some possibleDuplicateEvents =>
              let events := distinct (concat possibleDuplicateEvents) in
              (ctx',
               Some (map (fun event => (ws, EVENT subscriptionId event))
                         (sortEvents events)
                     ++ [(ws, EOSE subscriptionId)]))
          end
    end.

(** *** AuthMessageHandler *)

(** [None]: the handler threw (from [normalizeURL]); nothing was sent
    before. *)
Definition AuthMessageHandler_handle (event : Event)
    (ctx : DurableObjectState) (ws : nat) (now : Z)
  : option (DurableObjectState * list Sent) :=
  match webSockets ctx !! ws with
  | None => Some (ctx, [])
  | Some connection =>
      if has (pubkeys connection) (pubkey event) then
        Some (ctx, [(ws, OK (id event) true "duplicate: already authenticated")])
      else
        let limit := auth_limit config in
        if Z.of_nat (size (pubkeys connection)) >=? limit then
          Some (ctx, [(ws, NOTICE ("too many authentications (> "
                                   +:+ pretty limit +:+ ")"))])
        else
          let valid :=
            match auth connection with
            | None => Some false
            | Some session =>
                Challenge_validate event session (url connection) now
            end in
          match valid with
          | None => None
          | Some false => Some (ctx, [(ws, OK (id event) false "invalid: auth")])
          | Some true =>
              if (auth_required (limitation config)
                  || restricted_writes (limitation config))
                 && negb (Account_exists (pubkey event))
              then Some (ctx, [(ws, OK (id event) false
                                      "restricted: required to register")])
              else
                let connection' :=
                  {| conn_id := conn_id connection;
                     ipAddress := ipAddress connection;
                     url := url connection;
                     auth := auth connection;
                     pubkeys := {[pubkey event]} ∪ pubkeys connection |} in
                Some ({| webSockets := <[ws := connection']> (webSockets ctx);
                         storage := storage ctx;
                         maintenance := maintenance ctx |},
                      [(ws, OK (id event) true "")])
          end
  end.

(** ** Views of the store used in the statements *)

(** The events held by the KV namespace, without the bookkeeping metadata
    ([ipAddress], [receivedAt]). *)
Definition kv_events (env : Bindings) : gmap string Event :=
  fst <$> events env.

(** Newest first: every event is at least as recent as all that follow. *)
Definition newest_first (l : list Event) : Prop :=
  StronglySorted (fun a b => created_at b <= created_at a) l.

(** The number of [OK] frames among the frames received on a socket. *)
Definition count_OK (ws : nat) (sent : list Sent) : nat :=
  length (List.filter is_OK (received ws sent)).

(** The four conditions under which [ReqMessageHandler.handle] rejects a
    request on a connection whose stored subscriptions are [stored]. *)
Definition req_rejected (subscriptionId : string) (filters : list Filter)
    (stored : Subscriptions) : bool :=
  (Z.of_nat (String.length subscriptionId) >? max_subid_length (limitation config))
  || (Z.of_nat (length filters) >? max_filters (limitation config))
  || existsb (fun filter => negb (validateFilter filter)) filters
  || (Z.of_nat (length (map_set subscriptionId filters stored))
      >? max_subscriptions (limitation config)).

(** The rows the replacement lookup of the handler returns for an event:
    those of [saveReplaceableEvent] for a replaceable kind, those of
    [saveAddressableEvent] otherwise. *)
Definition existing (env : Bindings) (event : Event) : list Row :=
  if isReplaceableKind (kind event)
  then order_by_created_at_desc (List.filter (replaceable_query event) (DB env))
  else order_by_created_at_desc (List.filter (addressable_query event) (DB env)).

(** [results[0]] of [#saveLatestEvent]: the version currently stored as the
    latest for the event's key. *)
Definition current_latest (env : Bindings) (event : Event) : option Row :=
  head (existing env event).

(** The ids [deleteBy] hands to [#delete]: the referenced rows that have
    the deletion's pubkey and are not deletions themselves. *)
Definition delete_targets (env : Bindings) (event : Event) : list string :=
  map row_id
      (List.filter
         (fun r => String.eqb (row_pubkey r) (pubkey event)
                   && negb (row_kind r =? EventDeletion))
         (List.filter (fun r => includes (row_id r) (unique (referenced_ids event)))
                      (DB env))).

(** An [e] tag of the event carries the given id. *)
Definition references (event : Event) (i : string) : Prop :=
  exists t, t ∈ tags event /\ at_ t 0 = Some "e" /\ at_ t 1 = Some i.


(** A name/value pair is recorded in an indexed-tags object. *)
Definition recorded (m : list (string * list string)) (name value : string) : Prop :=
  exists values, map_get name m = Some values /\ value ∈ values.

(** The rows filed under an addressable key: kind, pubkey and a [d] value
    equal to the identifier. *)
Definition rows_of_key (env : Bindings) (k : Z) (pk ident : string) : list Row :=
  List.filter
    (fun r => (row_kind r =? k) && String.eqb (row_pubkey r) pk
              && tags_json_has r "d" [ident])
    (DB env).

(** The event's [d] tag, the first tag named [d], carries this value. *)
Definition d_tag_value (event : Event) (value : string) : Prop :=
  exists t, List.find (fun t => is_str (at_ t 0) "d") (tags event) = Some t
            /\ at_ t 1 = Some value.

(** [saveReplaceableEvent] and [saveAddressableEvent] differ only in the
    query that selects the existing rows. *)
Definition save_by (q : Row -> bool) (env : Bindings) (event : Event)
    (ipAddress : option string) (now : Z) : Bindings :=
  saveLatestEvent env event
    (order_by_created_at_desc (List.filter q (DB env))) ipAddress now.

(** The stored state: the table and the events of the KV namespace. *)
Definition stored (env : Bindings) : list Row * gmap string Event :=
  (DB env, kv_events env).

(** The store holds the id of the event only under the key selected by
    [q]: a row with this id is selected, and a KV entry with this id has a
    row. Ids are content hashes, so this holds of every store the handlers
    build. *)
Definition keyed (q : Row -> bool) (s : list Row * gmap string Event)
    (event : Event) : Prop :=
  (forall r, r ∈ s.1 -> row_id r = id event -> q r = true)
  /\ (is_Some (s.2 !! id event) -> exists r, r ∈ s.1 /\ row_id r = id event).

(** The same on the stored state. [blocked]: the stored latest stands
    against the event. [replaced]: the event took the place of the rows of
    its key. *)
Definition blocked (q : Row -> bool) (s : list Row * gmap string Event)
    (event : Event) : bool :=
  match order_by_created_at_desc (List.filter q s.1) with
  | [] => false
  | latest :: _ => latest_stands latest event
  end.

Definition replaced (q : Row -> bool) (s : list Row * gmap string Event)
    (event : Event) : list Row * gmap string Event :=
  let ids := map row_id (order_by_created_at_desc (List.filter q s.1)) in
  (List.filter (fun r => negb (includes (row_id r) ids)) s.1 ++ [event_row event],
   <[id event := event]> (fold_left (fun kv i => base.delete i kv) ids s.2)).

Definition save_by_view (q : Row -> bool) (s : list Row * gmap string Event)
    (event : Event) : list Row * gmap string Event :=
  if blocked q s event then s else replaced q s event.

(** The row of an event that has no indexed tag. *)
Definition plain_row (event : Event) : Row :=
  mkRow (id event) (pubkey event) (kind event) None (created_at event).

(** The outcome of Latest-Wins between two versions: the one the other does
    not stand against. *)
Definition winner (A B : Event) : Event :=
  if latest_stands (plain_row A) B then A else B.

(** The Latest-Wins Rule, as a relation between two versions and the one
    that wins: the larger [created_at], on a tie the smaller id. *)
Definition latest_wins_rule (A B W : Event) : Prop :=
  (created_at B < created_at A -> W = A)
  /\ (created_at A < created_at B -> W = B)
  /\ (created_at A = created_at B ->
      String.compare (id A) (id B) = Lt -> W = A)
  /\ (created_at A = created_at B ->
      String.compare (id A) (id B) = Gt -> W = B).

(** ** Sample data

    Stand-ins for the external functions, and a small relay state, on which
    the handlers are run in the examples at the end. *)

(** One ASCII letter after [#]. *)
Definition sample_tagsFilterRegExp_test (s : string) : bool :=
  match s with
  | String "#" (String c EmptyString) =>
      let n := nat_of_ascii c in
      ((65 <=? n) && (n <=? 90) || (97 <=? n) && (n <=? 122))%nat
  | _ => false
  end.

Definition is_lower_hex (c : ascii) : bool :=
  let n := nat_of_ascii c in
  ((48 <=? n) && (n <=? 57) || (97 <=? n) && (n <=? 102))%nat.

(** 64 lower-case hexadecimal digits. *)
Definition sample_hexRegExp_test (s : string) : bool :=
  (String.length s =? 64)%nat && forallb is_lower_hex (list_ascii_of_string s).

Definition sample_idsFilterKeys : list string := ["ids"; "limit"].

Definition sample_hexTagKeys : list string := ["#e"; "#p"].

Definition lower_case (c : ascii) : ascii :=
  let n := nat_of_ascii c in
  if ((65 <=? n) && (n <=? 90))%nat then ascii_of_nat (n + 32) else c.

(** The columns of the table [events] and of [json_each], and the names of
    the row id, in any case. *)
Definition sample_names_column (v : string) : bool :=
  includes (string_of_list_ascii (map lower_case (list_ascii_of_string v)))
           ["id"; "pubkey"; "kind"; "tags"; "created_at";
            "key"; "value"; "type"; "atom"; "parent"; "fullkey"; "path";
            "json"; "root"; "rowid"; "oid"; "_rowid_"].

(** A D1 that rejects every statement that is not read as written. *)
Definition sample_D1_run (rows : list Row) (statement : string)
    (bound : list string) : option (list string) := None.

(** Accepts every event that carries a signature. *)
Definition sample_verifyEvent (event : Event) : bool :=
  negb (String.eqb (ev_sig event) "").

Definition sample_normalizeURL (u : string) : option string := Some u.

Definition sample_validateFilter (filter : Filter) : bool := true.

(** Matches on the [kinds] of the filter only. *)
Definition sample_broadcastable (filter : Filter) (event : Event) : bool :=
  opt_pred (f_kinds filter) (existsb (Z.eqb (kind event))).

Definition sample_Account_exists (pk : string) : bool := true.

Definition hex64 (c : ascii) : string := string_of_list_ascii (repeat c 64).

Definition alice : string := hex64 "a".

Definition relay_url : string := "wss://relay.example/".

Definition kinds_filter (ks : list Z) : Filter :=
  mkFilter None None (Some ks) None None None [].

(** Socket 0: Alice, authenticated. Socket 1: a guest subscribed to kinds 1
    and 20001. *)
Definition conn_alice : Connection :=
  {| conn_id := "c-alice"; ipAddress := None; url := relay_url;
     auth := Some (mkSession "challenge-1" 1000);
     pubkeys := {[alice]} |}.

Definition conn_guest : Connection :=
  {| conn_id := "c-guest"; ipAddress := None; url := relay_url;
     auth := None; pubkeys := ∅ |}.

Definition sample_ctx : DurableObjectState :=
  {| webSockets := [conn_alice; conn_guest];
     storage := {["c-guest" := [("sub1", [kinds_filter [1; 20001]])]]};
     maintenance := None |}.

Definition empty_env : Bindings := {| DB := []; events := ∅; LOCAL := true |}.

Definition signed (i pk : string) (t k : Z) (tgs : list Tag) : Event :=
  mkEvent i pk t k tgs "" "sig".

(** An AUTH event of Alice that echoes the outstanding challenge. *)
Definition auth_event : Event :=
  signed (hex64 "0") alice 1500 22242
         [["relay"; relay_url]; ["challenge"; "challenge-1"]].

(** A challenge issued at 1000 ms; with the default timeout of 600 s it
    expires at 601000 ms. *)
Definition challenged_at_1000 : Session := mkSession "challenge-1" 1000.

Definition note_1 : Event := signed (hex64 "1") alice 100 1 [].
Definition profile_1 : Event := signed (hex64 "2") alice 100 0 [].
Definition profile_2 : Event := signed (hex64 "c") alice 200 0 [].
Definition ephemeral_1 : Event := signed (hex64 "3") alice 100 20001 [].
Definition unsigned_1 : Event := mkEvent (hex64 "4") alice 100 1 [] "" "".
Definition deletion_1 : Event :=
  signed (hex64 "5") alice 200 5 [["e"; hex64 "1"]].
Definition article_no_d : Event := signed (hex64 "6") alice 100 30023 [["t"; "x"]].
Definition article_empty_d : Event := signed (hex64 "7") alice 100 30023 [["d"; ""]].

Definition article_empty_d_2 : Event :=
  signed (hex64 "d") alice 200 30023 [["d"; ""]].

(** Two versions of an addressable event whose first [d] tag has no value
    and whose second one has. *)
Definition draft_old : Event :=
  signed (hex64 "8") alice 100 30023 [["d"]; ["d"; "x"]].
Definition draft_new : Event :=
  signed (hex64 "9") alice 200 30023 [["d"]; ["d"; "x"]].

(** A repository that holds the given events, none with an indexed tag. *)
Definition holding (l : list Event) : Bindings :=
  {| DB := map plain_row l;
     events := list_to_map (map (fun e => (id e, (e, mkMetadata None 0))) l);
     LOCAL := false |}.




(** A filter with nothing but [limit]. *)
Definition limit_filter (n : Z) : Filter :=
  mkFilter None None None None None (Some n) [].

Definition ids_filter (ids : list string) : Filter :=
  mkFilter (Some ids) None None None None None [].

(** ** Sorting *)

Lemma sort_insert_perm {A} (cmp : A -> A -> Z) x l :
  sort_insert cmp x l ≡ₚ x :: l.
Proof.
  induction l as [|y l IH]; simpl; [done|].
  destruct (cmp y x <=? 0); [|done].
  rewrite IH. apply Permutation_swap.
Qed.

Lemma fold_sort_insert_perm {A} (cmp : A -> A -> Z) l acc :
  fold_left (fun acc x => sort_insert cmp x acc) l acc ≡ₚ acc ++ l.
Proof.
  revert acc. induction l as [|x l IH]; intros acc; simpl.
  - by rewrite app_nil_r.
  - rewrite IH, sort_insert_perm. simpl. apply Permutation_middle.
Qed.

Lemma sort_by_perm {A} (cmp : A -> A -> Z) l : sort_by cmp l ≡ₚ l.
Proof. unfold sort_by. by rewrite fold_sort_insert_perm. Qed.

Lemma sort_by_elem_of {A} (cmp : A -> A -> Z) l x :
  x ∈ sort_by cmp l ↔ x ∈ l.
Proof. by rewrite sort_by_perm. Qed.

Lemma sort_by_length {A} (cmp : A -> A -> Z) l :
  length (sort_by cmp l) = length l.
Proof. by rewrite sort_by_perm. Qed.

Lemma sort_by_nil_inv {A} (cmp : A -> A -> Z) l : sort_by cmp l = [] -> l = [].
Proof.
  intros H. apply Permutation_nil_r. rewrite <- H. symmetry. apply sort_by_perm.
Qed.

Section Sortedness.
Context {A : Type} (cmp : A -> A -> Z).
Hypothesis cmp_total : forall a b, 0 < cmp a b -> cmp b a <= 0.

Let le_cmp (a b : A) : Prop := cmp a b <= 0.

Lemma sort_insert_hd x y l :
  le_cmp y x -> HdRel le_cmp y l -> HdRel le_cmp y (sort_insert cmp x l).
Proof.
  intros Hyx Hhd. destruct l as [|z l]; simpl.
  - by constructor.
  - destruct (cmp z x <=? 0); constructor; [|done].
    by inversion Hhd.
Qed.

Lemma sort_insert_sorted x l :
  Sorted le_cmp l -> Sorted le_cmp (sort_insert cmp x l).
Proof using cmp_total.
  induction 1 as [|y l Hs IH Hhd]; simpl.
  - repeat constructor.
  - destruct (cmp y x <=? 0) eqn:E.
    + constructor; [done|]. apply sort_insert_hd; [|done].
      unfold le_cmp. lia.
    + constructor; [by constructor|]. constructor.
      apply cmp_total. lia.
Qed.

Lemma sort_by_sorted l : Sorted le_cmp (sort_by cmp l).
Proof using cmp_total.
  unfold sort_by. generalize (@nil A) (Sorted_nil le_cmp).
  induction l as [|x l IH]; intros acc Hacc; simpl; [done|].
  apply IH. by apply sort_insert_sorted.
Qed.
End Sortedness.

Lemma localeCompare_antisym a b :
  0 < localeCompare a b -> localeCompare b a <= 0.
Proof.
  unfold localeCompare. rewrite (String.compare_antisym a b).
  destruct (String.compare b a); simpl; lia.
Qed.

Lemma sortEvents_cmp_total a b :
  0 < sortEvents_cmp a b -> sortEvents_cmp b a <= 0.
Proof.
  unfold sortEvents_cmp.
  rewrite (Z.eqb_sym (created_at b) (created_at a)).
  destruct (created_at a =? created_at b) eqn:E; simpl.
  - apply localeCompare_antisym.
  - lia.
Qed.

Lemma sortEvents_cmp_created_at a b :
  sortEvents_cmp a b <= 0 -> created_at b <= created_at a.
Proof.
  unfold sortEvents_cmp.
  destruct (created_at a =? created_at b) eqn:E; simpl; lia.
Qed.

Lemma sortEvents_newest_first l : newest_first (sortEvents l).
Proof.
  unfold newest_first, sortEvents.
  apply Sorted_StronglySorted.
  - intros a b c. lia.
  - pose proof (sort_by_sorted sortEvents_cmp sortEvents_cmp_total l) as H.
    induction H as [|x l' Hs IH Hhd]; constructor; [done|].
    destruct Hhd; constructor. by apply sortEvents_cmp_created_at.
Qed.

(** ** Authentication *)

Lemma has_true s x : has s x = true <-> x ∈ s.
Proof. unfold has. apply bool_decide_eq_true. Qed.

(** C10. An AUTH event whose pubkey is already in the connection's
    authorized set is answered with [OK true] and the duplicate message,
    and the durable state (every attachment, the storage) is returned
    unchanged; this holds for every outstanding challenge (none, expired,
    mismatched), every arrival time and every size of the authorized set,
    since the duplicate check is the first test of the handler. *)
Theorem auth_duplicate_is_acknowledged
    (event : Event) (ctx : DurableObjectState) (ws : nat) (now : Z)
    (connection : Connection) :
  webSockets ctx !! ws = Some connection ->
  pubkey event ∈ pubkeys connection ->
  AuthMessageHandler_handle event ctx ws now
  = Some (ctx, [(ws, OK (id event) true "duplicate: already authenticated")]).
Proof.
  intros Hws Hin. unfold AuthMessageHandler_handle. rewrite Hws.
  apply has_true in Hin. by rewrite Hin.
Qed.

Lemma Challenge_validate_expired event session url now :
  challengedAt session + auth_timeout config * 1000 < now ->
  Challenge_validate event session url now = Some false.
Proof.
  intros Hlate. unfold Challenge_validate.
  destruct (negb (kind event =? 22242)); [done|].
  apply Z.ltb_lt in Hlate. by rewrite Hlate.
Qed.

(** C6, as the code has it. A challenge issued at [challengedAt] is
    accepted only for an AUTH event that arrives no later than
    [challengedAt + auth_timeout * 1000] (milliseconds); one that arrives
    after that instant is rejected whatever its kind, challenge value and
    relay URL, and the handler answers it with [OK false] when its pubkey
    is not yet authorized and the cap is not reached. *)
Theorem auth_challenge_expiry
    (event : Event) (session : Session) (url' : string) (now : Z) :
  (Challenge_validate event session url' now = Some true ->
   now <= challengedAt session + auth_timeout config * 1000)
  /\ (challengedAt session + auth_timeout config * 1000 < now ->
      Challenge_validate event session url' now = Some false)
  /\ (forall ctx ws connection,
        webSockets ctx !! ws = Some connection ->
        auth connection = Some session ->
        url connection = url' ->
        pubkey event ∉ pubkeys connection ->
        Z.of_nat (size (pubkeys connection)) < auth_limit config ->
        challengedAt session + auth_timeout config * 1000 < now ->
        AuthMessageHandler_handle event ctx ws now
        = Some (ctx, [(ws, OK (id event) false "invalid: auth")])).
Proof.
  split; [|split].
  - intros Hok.
    destruct (Z.lt_ge_cases (challengedAt session + auth_timeout config * 1000) now)
      as [Hlate|Hin]; [|done].
    rewrite (Challenge_validate_expired _ _ _ _ Hlate) in Hok. discriminate.
  - apply Challenge_validate_expired.
  - intros ctx ws connection Hws Hauth Hurl Hnew Hcap Hlate.
    unfold AuthMessageHandler_handle. rewrite Hws.
    destruct (has (pubkeys connection) (pubkey event)) eqn:Ehas.
    { apply has_true in Ehas. contradiction. }
    destruct (Z.of_nat (size (pubkeys connection)) >=? auth_limit config) eqn:Ecap.
    { apply Z.geb_le in Ecap. lia. }
    rewrite Hauth, Hurl.
    by rewrite (Challenge_validate_expired _ _ _ _ Hlate).
Qed.

(** ** Event ingestion: replies and broadcast *)

Lemma elem_of_concat {A} (x : A) (ls : list (list A)) :
  x ∈ concat ls <-> exists l, l ∈ ls /\ x ∈ l.
Proof.
  rewrite list_elem_of_In, in_concat.
  split; intros (l & H1 & H2); exists l; split; by apply list_elem_of_In.
Qed.

Lemma elem_of_broadcast ctx event i f :
  (i, f) ∈ broadcast ctx event <->
  exists c subscriptions sid filters,
    webSockets ctx !! i = Some c
    /\ storage ctx !! conn_id c = Some subscriptions
    /\ (sid, filters) ∈ subscriptions
    /\ existsb (fun filter => broadcastable filter event) filters = true
    /\ f = EVENT sid event.
Proof.
  unfold broadcast. rewrite elem_of_concat. split.
  - intros (l & Hl & Hin).
    apply elem_of_lookup_imap in Hl as (j & c & -> & Hc).
    destruct (storage ctx !! conn_id c) as [subs|] eqn:Es;
      [|by apply not_elem_of_nil in Hin].
    apply list_elem_of_omap in Hin as ([sid filters] & Hsub & Hsome).
    destruct (existsb _ filters) eqn:Ex; [|discriminate].
    injection Hsome as <- <-. by exists c, subs, sid, filters.
  - intros (c & subs & sid & filters & Hc & Hs & Hin & Hex & ->).
    eexists. split.
    + apply (elem_of_lookup_imap_2 _ _ _ _ Hc).
    + cbv beta. rewrite Hs. apply list_elem_of_omap.
      exists (sid, filters). split; [done|]. by rewrite Hex.
Qed.

Lemma broadcast_only_EVENT ctx event s :
  s ∈ broadcast ctx event -> is_EVENT (snd s) = true.
Proof.
  destruct s as [i f]. rewrite elem_of_broadcast.
  by intros (c & subs & sid & filters & _ & _ & _ & _ & ->).
Qed.

Lemma filter_nil_of_forall {A} (p : A -> bool) l :
  (forall x, x ∈ l -> p x = false) -> List.filter p l = [].
Proof.
  induction l as [|x l IH]; intros H; simpl; [done|].
  rewrite (H x) by apply list_elem_of_here.
  apply IH. intros y Hy. apply H. by apply list_elem_of_further.
Qed.

Lemma broadcast_no_OK ctx event ws :
  List.filter is_OK (received ws (broadcast ctx event)) = [].
Proof.
  apply filter_nil_of_forall. intros f Hf.
  unfold received in Hf.
  apply list_elem_of_fmap in Hf as (s & -> & Hs).
  apply list_elem_of_In, filter_In in Hs as [Hs _].
  apply list_elem_of_In, broadcast_only_EVENT in Hs.
  by destruct (snd s).
Qed.

(** C2, as the code has it. An EVENT submission that passes
    [verifyEvent] receives exactly one [OK] frame on its socket, carrying
    the event id, [true] or [false] and a reason, and no other socket
    receives an [OK] frame; a submission that fails [verifyEvent] receives
    the single frame [NOTICE "invalid: event"] and no [OK] frame. *)
Theorem event_submission_reply
    (event : Event) (ctx : DurableObjectState) (env : Bindings) (ws : nat)
    (now : Z) (uuid : string) (connection : Connection) :
  webSockets ctx !! ws = Some connection ->
  let sent := (EventMessageHandler_handle event ctx env ws now uuid).2 in
  (verifyEvent event = true ->
     count_OK ws sent = 1%nat
     /\ (exists accepted message, (ws, OK (id event) accepted message) ∈ sent)
     /\ (forall i f, (i, f) ∈ sent -> is_OK f = true -> i = ws))
  /\ (verifyEvent event = false ->
        sent = [(ws, NOTICE "invalid: event")] /\ count_OK ws sent = 0%nat).
Proof.
  intros Hws sent. subst sent. unfold EventMessageHandler_handle, count_OK.
  split; intros Hv; rewrite Hv; simpl.
  - rewrite Hws.
    destruct (needs_auth connection event).
    + simpl. unfold received. simpl. rewrite Nat.eqb_refl. simpl.
      split; [done|]. split.
      * eexists _, _. apply list_elem_of_further, list_elem_of_here.
      * intros i f Hin Hok.
        apply elem_of_cons in Hin as [Hin|Hin]; [by simplify_eq|].
        apply elem_of_cons in Hin as [Hin|Hin]; [by simplify_eq|].
        by apply not_elem_of_nil in Hin.
    + destruct (store_event env event (ipAddress connection) now); simpl.
      * unfold received. simpl. rewrite Nat.eqb_refl. simpl.
        fold (received ws (broadcast ctx event)).
        rewrite broadcast_no_OK. split; [done|]. split.
        -- eexists _, _. apply list_elem_of_here.
        -- intros i f Hin Hok.
           apply elem_of_cons in Hin as [Hin|Hin]; [by simplify_eq|].
           apply broadcast_only_EVENT in Hin. simpl in Hin.
           by destruct f.
      * unfold received. simpl. rewrite Nat.eqb_refl. simpl.
        split; [done|]. split.
        -- eexists _, _. apply list_elem_of_here.
        -- intros i f Hin Hok.
           apply elem_of_cons in Hin as [Hin|Hin]; [by simplify_eq|].
           by apply not_elem_of_nil in Hin.
  - unfold received. simpl. by rewrite Nat.eqb_refl.
Qed.

Lemma ephemeral_kind_exclusive k :
  isEphemeralKind k = true ->
  isReplaceableKind k = false /\ isAddressableKind k = false.
Proof.
  unfold isEphemeralKind, isReplaceableKind, isAddressableKind.
  intros H. apply andb_true_iff in H as [H1 H2].
  apply Z.leb_le in H1. apply Z.ltb_lt in H2.
  split.
  - repeat (apply orb_false_iff; split); [lia | lia |].
    apply andb_false_iff. right. lia.
  - apply andb_false_iff. left. lia.
Qed.

(** C8. An accepted event (valid, past the authentication gate) of an
    ephemeral kind reaches none of [save], [saveReplaceableEvent],
    [saveAddressableEvent]: the repository and the durable state are
    returned unchanged; the submitter is sent [OK true] and the event is
    sent as an [EVENT] frame to every live socket for each of its
    subscriptions with a matching filter. *)
Theorem ephemeral_event_not_persisted_but_broadcast
    (event : Event) (ctx : DurableObjectState) (env : Bindings) (ws : nat)
    (now : Z) (uuid : string) (connection : Connection) :
  verifyEvent event = true ->
  webSockets ctx !! ws = Some connection ->
  needs_auth connection event = false ->
  isEphemeralKind (kind event) = true ->
  store_event env event (ipAddress connection) now = Some env
  /\ EventMessageHandler_handle event ctx env ws now uuid
     = (ctx, env, (ws, OK (id event) true "") :: broadcast ctx event)
  /\ (forall i c subscriptions sid filters,
        webSockets ctx !! i = Some c ->
        storage ctx !! conn_id c = Some subscriptions ->
        (sid, filters) ∈ subscriptions ->
        existsb (fun filter => broadcastable filter event) filters = true ->
        (i, EVENT sid event) ∈ broadcast ctx event).
Proof.
  intros Hv Hws Hauth Heph.
  destruct (ephemeral_kind_exclusive _ Heph) as [Hr Ha].
  assert (Hstore : store_event env event (ipAddress connection) now = Some env).
  { unfold store_event. by rewrite Hr, Ha, Heph. }
  split; [done|]. split.
  - unfold EventMessageHandler_handle. by rewrite Hv, Hws, Hauth, Hstore.
  - intros i c subs sid filters Hc Hs Hin Hex.
    apply elem_of_broadcast. by exists c, subs, sid, filters.
Qed.

(** ** Subscription requests *)

Lemma distinct_acc_spec (l acc : list Event) :
  NoDup (map id acc) ->
  let r := fold_left
             (fun distinctEvents event =>
                if existsb (fun e => String.eqb (id e) (id event)) distinctEvents
                then distinctEvents
                else distinctEvents ++ [event])
             l acc in
  NoDup (map id r)
  /\ (forall e, e ∈ r -> e ∈ acc \/ e ∈ l)
  /\ (forall e, e ∈ acc \/ e ∈ l -> exists e', e' ∈ r /\ id e' = id e).
Proof.
  revert acc. induction l as [|x l IH]; intros acc Hnd; simpl.
  - split; [done|]. split; [by left|].
    intros e [He|He]; [by exists e|by apply not_elem_of_nil in He].
  - destruct (existsb (fun e => String.eqb (id e) (id x)) acc) eqn:Ex.
    + destruct (IH acc Hnd) as (H1 & H2 & H3). split; [done|]. split.
      * intros e He. destruct (H2 e He) as [?|?]; [by left|].
        right. by apply list_elem_of_further.
      * intros e [He|He]; [apply H3; by left|].
        apply elem_of_cons in He as [->|He]; [|apply H3; by right].
        apply existsb_exists in Ex as (e0 & He0 & Heq).
        apply String.eqb_eq in Heq. apply list_elem_of_In in He0.
        destruct (H3 e0 (or_introl He0)) as (e' & He' & Hid).
        exists e'. split; [done|]. congruence.
    + assert (Hnd' : NoDup (map id (acc ++ [x]))).
      { rewrite map_app. simpl. apply NoDup_app. split; [done|]. split.
        - intros i Hi Hx. apply list_elem_of_singleton in Hx as ->.
          apply list_elem_of_fmap in Hi as (e0 & Hid & He0).
          assert (existsb (fun e => String.eqb (id e) (id x)) acc = true).
          { apply existsb_exists. exists e0. split; [by apply list_elem_of_In|].
            by apply String.eqb_eq. }
          congruence.
        - apply NoDup_singleton. }
      destruct (IH (acc ++ [x]) Hnd') as (H1 & H2 & H3). split; [done|]. split.
      * intros e He. destruct (H2 e He) as [Hin|Hin].
        -- apply elem_of_app in Hin as [?|Hin]; [by left|].
           apply list_elem_of_singleton in Hin as ->. right. apply list_elem_of_here.
        -- right. by apply list_elem_of_further.
      * intros e [He|He].
        -- apply H3. left. apply elem_of_app. by left.
        -- apply elem_of_cons in He as [->|He].
           ++ apply H3. left. apply elem_of_app. right. apply list_elem_of_here.
           ++ apply H3. by right.
Qed.

Lemma distinct_spec (l : list Event) :
  NoDup (map id (distinct l))
  /\ (forall e, e ∈ distinct l -> e ∈ l)
  /\ (forall e, e ∈ l -> exists e', e' ∈ distinct l /\ id e' = id e).
Proof.
  destruct (distinct_acc_spec l [] (NoDup_nil_2)) as (H1 & H2 & H3).
  split; [done|]. split.
  - intros e He. destruct (H2 e He) as [Hn|?]; [by apply not_elem_of_nil in Hn|done].
  - intros e He. apply H3. by right.
Qed.

(** The events the filters find: those a [find] of one of the filters
    returns. *)
Definition found_by (env : Bindings) (filters : list Filter) (e : Event) : Prop :=
  exists filter found,
    filter ∈ filters /\ find env filter = Some found /\ e ∈ found.

Lemma elem_of_concat_mapM {A B} (f : A -> option (list B)) l k (y : B) :
  mapM f l = Some k ->
  y ∈ concat k <-> exists x ys, x ∈ l /\ f x = Some ys /\ y ∈ ys.
Proof.
  intros H. apply mapM_Some in H.
  induction H as [|x ys l k Hx _ IH]; simpl.
  - split; [intros Hy; by apply not_elem_of_nil in Hy|].
    intros (x & ys & Hin & _). by apply not_elem_of_nil in Hin.
  - rewrite elem_of_app, IH. split.
    + intros [Hy|(x' & ys' & Hin & Hf & Hy)].
      * exists x, ys. split; [apply list_elem_of_here|done].
      * exists x', ys'. split; [by apply list_elem_of_further|done].
    + intros (x' & ys' & Hin & Hf & Hy).
      apply elem_of_cons in Hin as [->|Hin].
      * left. congruence.
      * right. by exists x', ys'.
Qed.

(** What a REQ is answered with. A rejected REQ (subscription id too long,
    too many filters, a filter that fails [validateFilter], or the
    subscription cap exceeded) gets a single [CLOSED] frame and nothing
    else. An accepted REQ of which every [find] returns gets [EVENT] frames
    followed by exactly one [EOSE] frame, where the events are those found
    for the filters, one per id, newest first. An accepted REQ of which a
    [find] throws gets no frame at all. *)
Theorem req_response_contract
    (subscriptionId : string) (filters : list Filter)
    (ctx : DurableObjectState) (env : Bindings) (ws : nat)
    (connection : Connection) :
  webSockets ctx !! ws = Some connection ->
  let stored := default [] (storage ctx !! conn_id connection) in
  let r := ReqMessageHandler_handle subscriptionId filters ctx env ws in
  (req_rejected subscriptionId filters stored = true ->
     exists message, r.2 = Some [(ws, CLOSED subscriptionId message)])
  /\ (req_rejected subscriptionId filters stored = false ->
      ((exists filter, filter ∈ filters /\ find env filter = None) ->
         r.2 = None)
      /\ ((forall filter, filter ∈ filters -> is_Some (find env filter)) ->
          exists backfill,
            r.2 = Some (map (fun event => (ws, EVENT subscriptionId event))
                            backfill
                        ++ [(ws, EOSE subscriptionId)])
            /\ NoDup (map id backfill)
            /\ newest_first backfill
            /\ (forall e, e ∈ backfill -> found_by env filters e)
            /\ (forall e, found_by env filters e ->
                  exists e', e' ∈ backfill /\ id e' = id e))).
Proof.
  intros Hws stored r. subst stored r.
  unfold req_rejected, ReqMessageHandler_handle.
  destruct (Z.of_nat (String.length subscriptionId)
            >? max_subid_length (limitation config)); simpl.
  { split; [eauto|discriminate]. }
  destruct (Z.of_nat (length filters) >? max_filters (limitation config)); simpl.
  { split; [eauto|discriminate]. }
  destruct (existsb (fun filter => negb (validateFilter filter)) filters); simpl.
  { split; [eauto|discriminate]. }
  rewrite Hws.
  destruct (Z.of_nat (length (map_set subscriptionId filters
              (default [] (storage ctx !! conn_id connection))))
            >? max_subscriptions (limitation config)); simpl.
  { split; [eauto|discriminate]. }
  split; [discriminate|]. intros _. split.
  - intros (filter & Hin & Hnone).
    assert (Hall : mapM (find env) filters = None).
    { apply mapM_None, Exists_exists. by exists filter. }
    by rewrite Hall.
  - intros Hall.
    assert (Hsome : is_Some (mapM (find env) filters)).
    { apply mapM_is_Some, Forall_forall. intros filter Hin.
      by apply Hall. }
    destruct Hsome as [results Hresults]. rewrite Hresults. simpl.
    destruct (distinct_spec (concat results)) as (Hnd & Hsub & Hcov).
    exists (sortEvents (distinct (concat results))).
    split; [done|]. split; [|split; [|split]].
    + unfold sortEvents.
      assert (Hp : map id (sort_by sortEvents_cmp (distinct (concat results)))
                   ≡ₚ map id (distinct (concat results)))
        by apply Permutation_map, sort_by_perm.
      by rewrite Hp.
    + apply sortEvents_newest_first.
    + intros e He. apply sort_by_elem_of, Hsub in He.
      by apply (elem_of_concat_mapM _ _ _ _ Hresults) in He.
    + intros e He.
      apply (elem_of_concat_mapM _ _ _ _ Hresults) in He.
      destruct (Hcov e He) as (e' & He' & Hid).
      exists e'. split; [|done]. by apply sort_by_elem_of.
Qed.

(** ** Queries *)

Lemma omap_length_le {A B} (f : A -> option B) (l : list A) :
  (length (omap f l) <= length l)%nat.
Proof.
  induction l as [|x l IH]; simpl; [done|].
  destruct (f x); simpl; change (list_omap A B f l) with (omap f l); lia.
Qed.




Lemma firstn_plus {A} (a b : nat) (l : list A) :
  firstn (a + b) l = firstn a l ++ firstn b (skipn a l).
Proof.
  revert l. induction a as [|a IH]; intros l; simpl; [done|].
  destruct l as [|x l]; simpl.
  - by rewrite firstn_nil.
  - by rewrite IH.
Qed.

(** The chunks are consecutive pieces of the array. *)
Lemma chunk_concat_prefix {A} (l : list A) (size k : nat) :
  concat (map (fun i => slice (i * size) (i * size + size) l) (seq 0 k))
  = firstn (k * size) l.
Proof.
  induction k as [|k IH]; [done|].
  rewrite seq_S, map_app, concat_app, IH. simpl.
  rewrite app_nil_r. unfold slice.
  replace (k * size + size - k * size)%nat with size by lia.
  rewrite <- firstn_plus. f_equal. lia.
Qed.

Lemma chunk_concat {A} (l : list A) (size : nat) :
  (0 < size)%nat -> concat (chunk l size) = l.
Proof.
  intros Hpos. unfold chunk. rewrite chunk_concat_prefix.
  apply firstn_all2.
  pose proof (Nat.div_mod_eq (length l + size - 1) size) as Hdm.
  pose proof (Nat.mod_upper_bound (length l + size - 1) size) as Hm.
  nia.
Qed.





Lemma select_ids_as_written env filter :
  as_written filter = true ->
  select_ids env filter
  = if (D1_max_bound_parameters <? length (params filter))%nat then None
    else Some (map row_id
                 (sql_limit (default (default_limit config) (f_limit filter))
                    (order_by_created_at_desc
                       (List.filter (where_ filter) (DB env))))).
Proof. intros Hw. unfold select_ids. by rewrite Hw. Qed.

Lemma find_query env filter found :
  ids_only filter = false ->
  find env filter = Some found ->
  exists ids, select_ids env filter = Some ids /\ found = findByIds env ids.
Proof.
  unfold find, findByQuery. intros -> H.
  destruct (select_ids env filter) as [ids|]; [|done].
  injection H as <-. by exists ids.
Qed.


(** ** Replacement: events that do not win *)

Lemma localeCompare_refl a : localeCompare a a = 0.
Proof.
  unfold localeCompare.
  pose proof (String.compare_antisym a a) as H.
  destruct (String.compare a a); simpl in H; congruence.
Qed.

Lemma latest_stands_same_version (latest : Row) (event : Event) :
  row_id latest = id event ->
  row_created_at latest = created_at event ->
  latest_stands latest event = true.
Proof.
  intros Hid Hca. unfold latest_stands. rewrite Hid, Hca.
  rewrite Z.eqb_refl, localeCompare_refl. apply orb_true_r.
Qed.

Lemma addressable_not_replaceable k :
  isAddressableKind k = true -> isReplaceableKind k = false.
Proof.
  unfold isReplaceableKind, isAddressableKind.
  intros H. apply andb_true_iff in H as [H1 H2].
  apply Z.leb_le in H1. apply Z.ltb_lt in H2.
  repeat (apply orb_false_iff; split); [lia | lia |].
  apply andb_false_iff. right. lia.
Qed.

(** Where the key lookup of the repository returns a stored version, a
    losing event is a no-op success. For an accepted event of a replaceable
    kind, or of an addressable kind with a [d] tag, whose lookup returns
    rows, the first of them being the stored latest: if the incoming event
    does not win against that version, the repository and the durable state
    are left unchanged and the submitter is sent [OK true]; an event with
    the id and the time of that version is such a case. Nothing is said of
    an event whose lookup returns no row. *)
Theorem losing_event_is_noop_success
    (event : Event) (ctx : DurableObjectState) (env : Bindings) (ws : nat)
    (now : Z) (uuid : string) (connection : Connection) (latest : Row) :
  verifyEvent event = true ->
  webSockets ctx !! ws = Some connection ->
  needs_auth connection event = false ->
  isReplaceableKind (kind event) = true
  \/ (isAddressableKind (kind event) = true /\ has_d_tag event = true) ->
  current_latest env event = Some latest ->
  (row_id latest = id event /\ row_created_at latest = created_at event)
  \/ latest_stands latest event = true ->
  store_event env event (ipAddress connection) now = Some env
  /\ EventMessageHandler_handle event ctx env ws now uuid
     = (ctx, env, (ws, OK (id event) true "") :: broadcast ctx event).
Proof.
  intros Hv Hws Hauth Hkind Hlatest Hloses.
  assert (Hstands : latest_stands latest event = true).
  { destruct Hloses as [[Hid Hca]|H]; [|done].
    by apply latest_stands_same_version. }
  assert (Hstore : store_event env event (ipAddress connection) now = Some env).
  { unfold current_latest, existing in Hlatest. unfold store_event.
    destruct Hkind as [Hr|[Ha Hd]].
    - rewrite Hr in *. unfold saveReplaceableEvent, saveLatestEvent.
      destruct (order_by_created_at_desc _) as [|r rs]; [discriminate|].
      injection Hlatest as ->. by rewrite Hstands.
    - rewrite (addressable_not_replaceable _ Ha) in *. rewrite Ha, Hd. simpl.
      unfold saveAddressableEvent, saveLatestEvent.
      destruct (order_by_created_at_desc _) as [|r rs]; [discriminate|].
      injection Hlatest as ->. by rewrite Hstands. }
  split; [done|].
  unfold EventMessageHandler_handle. by rewrite Hv, Hws, Hauth, Hstore.
Qed.

(** ** Deletion *)

Lemma includes_true x l : includes x l = true <-> x ∈ l.
Proof.
  unfold includes. rewrite existsb_exists. split.
  - intros (y & Hy & Heq). apply String.eqb_eq in Heq as ->.
    by apply list_elem_of_In.
  - intros H. exists x. split; [by apply list_elem_of_In|apply String.eqb_refl].
Qed.

Lemma includes_false x l : includes x l = false <-> x ∉ l.
Proof.
  rewrite <- includes_true. destruct (includes x l); split; congruence.
Qed.

Lemma unique_acc_elem_of x l acc :
  x ∈ fold_left (fun acc x => if includes x acc then acc else acc ++ [x]) l acc
  <-> x ∈ acc \/ x ∈ l.
Proof.
  revert acc. induction l as [|y l IH]; intros acc; simpl.
  - rewrite elem_of_nil. split; [by left|]. by intros [?|[]].
  - rewrite IH, elem_of_cons. destruct (includes y acc) eqn:E.
    + apply includes_true in E. split.
      * intros [?|?]; [by left|right; by right].
      * intros [?|[->|?]]; [by left|by left|by right].
    + rewrite elem_of_app, list_elem_of_singleton. split.
      * intros [[?| ->]|?]; [by left|right; by left|right; by right].
      * intros [?|[->|?]]; [left; by left|left; by right|by right].
Qed.

Lemma unique_elem_of x l : x ∈ unique l <-> x ∈ l.
Proof.
  unfold unique. rewrite unique_acc_elem_of, elem_of_nil.
  split; [by intros [[]|?]|by right].
Qed.

Lemma filter_all {A} (p : A -> bool) l :
  (forall x, x ∈ l -> p x = true) -> List.filter p l = l.
Proof.
  induction l as [|x l IH]; intros H; simpl; [done|].
  rewrite (H x) by apply list_elem_of_here. f_equal.
  apply IH. intros y Hy. apply H. by apply list_elem_of_further.
Qed.

Lemma elem_of_list_filter {A} (p : A -> bool) l x :
  x ∈ List.filter p l <-> x ∈ l /\ p x = true.
Proof. by rewrite !list_elem_of_In, filter_In. Qed.

Lemma lookup_fold_delete {V} (ids : list string) (kv : gmap string V) k :
  fold_left (fun kv i => base.delete i kv) ids kv !! k
  = if includes k ids then None else kv !! k.
Proof.
  revert kv. induction ids as [|i ids IH]; intros kv; simpl; [done|].
  rewrite IH. destruct (includes k ids); simpl.
  - by rewrite orb_true_r.
  - rewrite orb_false_r. destruct (String.eqb k i) eqn:E.
    + apply String.eqb_eq in E as ->. apply lookup_delete_eq.
    + apply String.eqb_neq in E. by apply lookup_delete_ne.
Qed.

Lemma delete_DB env ids :
  DB (delete env ids)
  = List.filter (fun r => negb (includes (row_id r) ids)) (DB env).
Proof.
  destruct ids as [|i ids]; [|done]. simpl.
  symmetry. by apply filter_all.
Qed.

Lemma delete_events env ids k :
  events (delete env ids) !! k
  = if includes k ids then None else events env !! k.
Proof.
  destruct ids as [|i ids]; [done|]. apply lookup_fold_delete.
Qed.

Lemma deleteBy_delete env event :
  deleteBy env event = delete env (delete_targets env event).
Proof.
  unfold deleteBy, delete_targets.
  destruct (unique (referenced_ids event)) as [|i ids] eqn:E; [|done].
  rewrite (filter_nil_of_forall (fun r => includes (row_id r) [])); done.
Qed.

Lemma elem_of_referenced_ids event i :
  hexRegExp_test i = true -> references event i -> i ∈ referenced_ids event.
Proof.
  intros Hhex (t & Ht & H0 & H1). unfold referenced_ids.
  apply list_elem_of_fmap. exists t. split; [by rewrite H1|].
  apply elem_of_list_filter. split; [done|].
  rewrite H0, H1. simpl. by rewrite Hhex.
Qed.

Lemma elem_of_delete_targets env event i :
  i ∈ delete_targets env event <->
  exists r, r ∈ DB env /\ row_id r = i
            /\ i ∈ referenced_ids event
            /\ row_pubkey r = pubkey event
            /\ row_kind r <> EventDeletion.
Proof.
  unfold delete_targets. rewrite list_elem_of_fmap. split.
  - intros (r & -> & Hr).
    apply elem_of_list_filter in Hr as [Hr Hc].
    apply elem_of_list_filter in Hr as [Hr Hi].
    apply includes_true in Hi. rewrite unique_elem_of in Hi.
    apply andb_true_iff in Hc as [Hp Hk].
    apply String.eqb_eq in Hp. apply negb_true_iff, Z.eqb_neq in Hk.
    exists r. repeat split; done.
  - intros (r & Hr & <- & Hi & Hp & Hk). exists r. split; [done|].
    apply elem_of_list_filter. split.
    + apply elem_of_list_filter. split; [done|].
      apply includes_true. by rewrite unique_elem_of.
    + apply andb_true_iff. split; [by apply String.eqb_eq|].
      by apply negb_true_iff, Z.eqb_neq.
Qed.


(** ** Addressable events and the [d] tag *)

Lemma map_get_set_eq {V} k (v : V) m : map_get k (map_set k v m) = Some v.
Proof.
  induction m as [|[k' v'] m IH]; simpl.
  - by rewrite String.eqb_refl.
  - destruct (String.eqb k' k) eqn:E; simpl.
    + by rewrite String.eqb_refl.
    + by rewrite E.
Qed.

Lemma map_get_set_ne {V} k k' (v : V) m :
  k <> k' -> map_get k' (map_set k v m) = map_get k' m.
Proof.
  intros Hne. induction m as [|[k0 v0] m IH]; simpl.
  - apply String.eqb_neq in Hne. by rewrite Hne.
  - destruct (String.eqb k0 k) eqn:E; simpl.
    + apply String.eqb_eq in E as ->.
      apply String.eqb_neq in Hne. by rewrite Hne.
    + by rewrite IH.
Qed.

Lemma indexedTagsMap_step_recorded m t name value :
  recorded m name value \/ (render (at_ t 0) = name /\ render (at_ t 1) = value) ->
  recorded
    (let name := render (at_ t 0) in
     let value := render (at_ t 1) in
     let values := default [] (map_get name m) in
     let values' := if includes value values then values else values ++ [value] in
     map_set name values' m)
    name value.
Proof.
  cbv zeta. intros [(values & Hget & Hin)|[<- <-]].
  - destruct (decide (render (at_ t 0) = name)) as [->|Hne].
    + rewrite Hget. change (default [] (Some values)) with values.
      eexists. split; [apply map_get_set_eq|].
      destruct (includes (render (at_ t 1)) values); [done|].
      apply elem_of_app. by left.
    + exists values. split; [|done]. by rewrite map_get_set_ne.
  - eexists. split; [apply map_get_set_eq|].
    destruct (includes _ _) eqn:E; [by apply includes_true in E|].
    apply elem_of_app. right. apply list_elem_of_here.
Qed.

Lemma indexedTagsMap_acc_recorded (l : list Tag) m name value :
  recorded m name value
  \/ (exists t, t ∈ l /\ render (at_ t 0) = name /\ render (at_ t 1) = value) ->
  recorded
    (fold_left
       (fun tags t =>
          let name := render (at_ t 0) in
          let value := render (at_ t 1) in
          let values := default [] (map_get name tags) in
          let values' := if includes value values then values
                         else values ++ [value] in
          map_set name values' tags)
       l m)
    name value.
Proof.
  revert m. induction l as [|t l IH]; intros m H; simpl.
  - destruct H as [H|(t & Ht & _)]; [done|by apply not_elem_of_nil in Ht].
  - apply IH. destruct H as [H|(t' & Ht' & Hn & Hv)].
    + left. apply indexedTagsMap_step_recorded. by left.
    + apply elem_of_cons in Ht' as [->|Ht'].
      * left. apply indexedTagsMap_step_recorded. by right.
      * right. by exists t'.
Qed.

(** A tag with an indexed name and a value is filed in the row of its
    event. *)
Lemma event_row_files_tag (event : Event) (t : Tag) name value :
  t ∈ tags event ->
  at_ t 0 = Some name -> at_ t 1 = Some value ->
  tagsFilterRegExp_test ("#" +:+ name) = true ->
  tags_json_has (event_row event) name [value] = true.
Proof.
  intros Ht H0 H1 Hidx.
  assert (Hrec : recorded (indexedTagsMap event) name value).
  { unfold indexedTagsMap. apply indexedTagsMap_acc_recorded. right.
    exists t. split; [|by rewrite H0, H1].
    unfold indexedTags. apply elem_of_list_filter. split; [done|].
    rewrite H0, H1. simpl. by rewrite Hidx. }
  destruct Hrec as (values & Hget & Hin).
  unfold tags_json_has, event_row. simpl.
  destruct (indexedTagsMap event) as [|p m]; [discriminate|].
  rewrite Hget. apply existsb_exists. exists value.
  split; [by apply list_elem_of_In|]. simpl. by rewrite String.eqb_refl.
Qed.

Lemma find_some_elem_of {A} (p : A -> bool) l x :
  List.find p l = Some x -> x ∈ l /\ p x = true.
Proof.
  intros H. apply find_some in H as [H1 H2]. by rewrite list_elem_of_In.
Qed.

Lemma is_str_Some v s : is_str v s = true <-> v = Some s.
Proof.
  destruct v as [x|]; simpl; [|split; discriminate].
  rewrite String.eqb_eq. split; congruence.
Qed.

Lemma has_d_tag_false event :
  (forall t, t ∈ tags event -> at_ t 0 <> Some "d") -> has_d_tag event = false.
Proof.
  intros H. unfold has_d_tag. apply not_true_iff_false. intros Hex.
  apply existsb_exists in Hex as (t & Ht & Hd).
  apply andb_true_iff in Hd as [Hd _]. apply is_str_Some in Hd.
  apply list_elem_of_In in Ht. by apply (H t).
Qed.

Lemma DB_save env event ip now :
  DB (save env event ip now) = DB env ++ [event_row event].
Proof. done. Qed.

Lemma events_save env event ip now :
  events (save env event ip now)
  = <[id event := (event, mkMetadata ip now)]> (events env).
Proof. done. Qed.

Lemma saveLatestEvent_keeps env event results ip now r :
  r ∈ DB env ->
  row_id r ∉ map row_id results ->
  r ∈ DB (saveLatestEvent env event results ip now).
Proof.
  intros Hr Hnot. unfold saveLatestEvent.
  destruct results as [|latest rest].
  - rewrite DB_save. apply elem_of_app. by left.
  - destruct (latest_stands latest event); [done|].
    rewrite DB_save, delete_DB. apply elem_of_app. left.
    apply elem_of_list_filter. split; [done|].
    by apply negb_true_iff, includes_false.
Qed.

Lemma d_tag_value_identifier event value :
  d_tag_value event value -> identifier event = value /\ has_d_tag event = true.
Proof.
  intros (t & Hfind & Hval). split.
  - unfold identifier. by rewrite Hfind, Hval.
  - apply find_some_elem_of in Hfind as [Ht Hd].
    unfold has_d_tag. apply existsb_exists. exists t.
    split; [by apply list_elem_of_In|]. by rewrite Hd, Hval.
Qed.

(** ** Replacement: the lookup *)

(** An addressable event whose key lookup matches no row is saved as is. *)
Lemma saveAddressableEvent_unseen env event ip now :
  (forall r, r ∈ DB env -> addressable_query event r = false) ->
  saveAddressableEvent env event ip now = save env event ip now.
Proof.
  intros Hnone. unfold saveAddressableEvent.
  by rewrite (filter_nil_of_forall _ _ Hnone).
Qed.

(** ** Latest-Wins between two versions *)

Lemma ascii_compare_refl (c : ascii) : Ascii.compare c c = Eq.
Proof. unfold Ascii.compare. apply N.compare_refl. Qed.

Lemma ascii_compare_lt_trans (a b c : ascii) :
  Ascii.compare a b = Lt -> Ascii.compare b c = Lt -> Ascii.compare a c = Lt.
Proof.
  unfold Ascii.compare. rewrite !N.compare_lt_iff. apply N.lt_trans.
Qed.

Lemma string_compare_lt_trans (a b c : string) :
  String.compare a b = Lt -> String.compare b c = Lt -> String.compare a c = Lt.
Proof.
  revert b c. induction a as [|x a IH]; intros [|y b] [|z c]; simpl;
    try discriminate; try done.
  destruct (Ascii.compare x y) eqn:Exy; try discriminate;
    destruct (Ascii.compare y z) eqn:Eyz; try discriminate.
  - apply Ascii.compare_eq_iff in Exy as ->. rewrite Eyz. apply IH.
  - apply Ascii.compare_eq_iff in Exy as ->. by rewrite Eyz.
  - apply Ascii.compare_eq_iff in Eyz as <-. by rewrite Exy.
  - by rewrite (ascii_compare_lt_trans _ _ _ Exy Eyz).
Qed.

Lemma localeCompare_nonneg a b :
  (localeCompare a b >=? 0) = true <-> String.compare a b <> Lt.
Proof.
  unfold localeCompare.
  destruct (String.compare a b); cbv; split; intros H; done.
Qed.

(** Between two versions with different ids exactly one stands against the
    other. *)
Lemma latest_stands_antisym (A B : Event) :
  id A <> id B ->
  latest_stands (event_row A) B = negb (latest_stands (event_row B) A).
Proof.
  intros Hid. unfold latest_stands. simpl.
  destruct (Z.compare_spec (created_at A) (created_at B)) as [Heq|Hlt|Hgt].
  - rewrite Heq, Z.eqb_refl.
    replace (created_at B >? created_at B) with false by (symmetry; lia).
    simpl. unfold localeCompare.
    rewrite (String.compare_antisym (id A) (id B)).
    destruct (String.compare (id B) (id A)) eqn:E; simpl; try done.
    apply String.compare_eq_iff in E. by symmetry in E.
  - replace (created_at A >? created_at B) with false by (symmetry; lia).
    replace (created_at A =? created_at B) with false by (symmetry; lia).
    replace (created_at B >? created_at A) with true by (symmetry; lia).
    done.
  - replace (created_at A >? created_at B) with true by (symmetry; lia).
    replace (created_at B >? created_at A) with false by (symmetry; lia).
    replace (created_at B =? created_at A) with false by (symmetry; lia).
    done.
Qed.

(** A version that beats the stored latest beats every version the stored
    latest stands against. *)
Lemma latest_stands_trans (L : Row) (A B : Event) :
  latest_stands L A = true ->
  latest_stands L B = false ->
  latest_stands (event_row B) A = true.
Proof.
  unfold latest_stands. simpl. intros HA HB.
  apply orb_false_iff in HB as [HB1 HB2].
  apply orb_true_iff. apply orb_true_iff in HA as [HA|HA].
  - left. lia.
  - apply andb_true_iff in HA as [HA1 HA2]. apply Z.eqb_eq in HA1.
    destruct (Z.eq_dec (row_created_at L) (created_at B)) as [Heq|Hne].
    + right. rewrite <- Heq, <- HA1, Z.eqb_refl. simpl.
      rewrite Heq, Z.eqb_refl in HB2. simpl in HB2.
      apply localeCompare_nonneg. apply localeCompare_nonneg in HA2.
      intros Hlt. apply HA2.
      apply (string_compare_lt_trans _ (id B)); [done|].
      unfold localeCompare in HB2.
      destruct (String.compare (id B) (row_id L)) eqn:E; [| done |];
        cbv in HB2; discriminate.
    + left. lia.
Qed.

(** ** Latest-Wins on the stored state *)

Lemma fmap_fold_delete {V W} (f : V -> W) (ids : list string) (kv : gmap string V) :
  f <$> fold_left (fun kv i => base.delete i kv) ids kv
  = fold_left (fun kv i => base.delete i kv) ids (f <$> kv).
Proof.
  revert kv. induction ids as [|i ids IH]; intros kv; simpl; [done|].
  by rewrite IH, fmap_delete.
Qed.

Lemma stored_save env event ip now :
  stored (save env event ip now)
  = ((stored env).1 ++ [event_row event],
     <[id event := event]> (stored env).2).
Proof.
  unfold stored, kv_events. rewrite DB_save, events_save. by rewrite fmap_insert.
Qed.

Lemma stored_delete env ids :
  stored (delete env ids)
  = (List.filter (fun r => negb (includes (row_id r) ids)) (DB env),
     fold_left (fun kv i => base.delete i kv) ids (kv_events env)).
Proof.
  unfold stored, kv_events. rewrite delete_DB. f_equal.
  destruct ids as [|i ids]; [done|]. apply fmap_fold_delete.
Qed.

(** [save_by] acts on the stored state as [save_by_view]. *)
Lemma stored_save_by q env event ip now :
  stored (save_by q env event ip now) = save_by_view q (stored env) event.
Proof.
  unfold save_by, save_by_view, blocked, replaced, saveLatestEvent. simpl.
  destruct (order_by_created_at_desc (List.filter q (DB env))) as [|latest rest] eqn:E.
  - rewrite stored_save. simpl. f_equal. f_equal.
    symmetry. by apply filter_all.
  - destruct (latest_stands latest event); [done|].
    by rewrite stored_save, stored_delete.
Qed.

Lemma filter_app_list {A} (p : A -> bool) l1 l2 :
  List.filter p (l1 ++ l2) = List.filter p l1 ++ List.filter p l2.
Proof. apply List.filter_app. Qed.

(** After a replacement the key holds the new row only. *)
Lemma replaced_lookup q s event :
  q (event_row event) = true ->
  List.filter q (replaced q s event).1 = [event_row event].
Proof.
  intros Hq. unfold replaced. simpl. rewrite filter_app_list. simpl. rewrite Hq.
  rewrite (filter_nil_of_forall q); [done|].
  intros r Hr. apply elem_of_list_filter in Hr as [Hr Hnot].
  apply negb_true_iff, includes_false in Hnot.
  destruct (q r) eqn:Hqr; [|done]. exfalso. apply Hnot.
  apply list_elem_of_fmap. exists r. split; [done|].
  apply sort_by_elem_of, elem_of_list_filter. by split.
Qed.

Lemma replaced_fresh q s event r :
  keyed q s event ->
  r ∈ List.filter
        (fun r => negb (includes (row_id r)
           (map row_id (order_by_created_at_desc (List.filter q s.1))))) s.1 ->
  row_id r <> id event.
Proof.
  intros [Hrow _] Hr Hid.
  apply elem_of_list_filter in Hr as [Hr Hnot].
  apply negb_true_iff, includes_false in Hnot. apply Hnot.
  apply list_elem_of_fmap. exists r. split; [done|].
  apply sort_by_elem_of, elem_of_list_filter. split; [done|]. by apply Hrow.
Qed.

Lemma replaced_kv_fresh q (s : list Row * gmap string Event) event :
  keyed q s event ->
  fold_left (fun kv i => base.delete i kv)
    (map row_id (order_by_created_at_desc (List.filter q s.1))) s.2
  !! id event = None.
Proof.
  intros [Hrow Hkv]. rewrite lookup_fold_delete.
  destruct (includes _ _) eqn:E; [done|].
  destruct (s.2 !! id event) as [e|] eqn:Hl; [|done].
  exfalso. apply includes_false in E. apply E.
  destruct (Hkv (mk_is_Some _ _ eq_refl)) as (r & Hr & Hid).
  apply list_elem_of_fmap. exists r. split; [done|].
  apply sort_by_elem_of, elem_of_list_filter. split; [done|]. by apply Hrow.
Qed.

(** A second version submitted after a replacement meets the first one
    alone. *)
Lemma replaced_then q s A B :
  keyed q s A ->
  q (event_row A) = true ->
  save_by_view q (replaced q s A) B
  = if latest_stands (event_row A) B then replaced q s A else replaced q s B.
Proof.
  intros HkA HqA. unfold save_by_view, blocked.
  rewrite (replaced_lookup q s A HqA).
  change (order_by_created_at_desc [event_row A]) with [event_row A].
  destruct (latest_stands (event_row A) B); [done|].
  unfold replaced at 1. rewrite (replaced_lookup q s A HqA).
  change (order_by_created_at_desc [event_row A]) with [event_row A].
  change (map row_id [event_row A]) with [id A].
  unfold replaced. cbn [fst snd fold_left].
  f_equal.
  - f_equal. rewrite filter_app_list.
    rewrite (filter_all (fun r => negb (includes (row_id r) [id A]))).
    + cbn [List.filter event_row row_id includes existsb].
      rewrite String.eqb_refl. cbn [orb negb]. apply app_nil_r.
    + intros r Hr. apply negb_true_iff, includes_false.
      rewrite list_elem_of_singleton. by apply (replaced_fresh q s A r).
  - f_equal. apply delete_insert_id. by apply replaced_kv_fresh.
Qed.

(** On the stored state, two versions of one key may be submitted in
    either order. *)
Lemma save_by_view_comm q s A B :
  keyed q s A -> keyed q s B ->
  q (event_row A) = true -> q (event_row B) = true ->
  (id A = id B -> A = B) ->
  save_by_view q (save_by_view q s A) B = save_by_view q (save_by_view q s B) A.
Proof.
  intros HkA HkB HqA HqB Hsame.
  unfold save_by_view at 2 4.
  destruct (blocked q s A) eqn:EA, (blocked q s B) eqn:EB.
  - unfold save_by_view. by rewrite EA, EB.
  - unfold save_by_view at 1. rewrite EB, (replaced_then q s B A HkB HqB).
    unfold blocked in EA, EB.
    destruct (order_by_created_at_desc (List.filter q s.1)) as [|L rest];
      [discriminate|].
    by rewrite (latest_stands_trans L A B EA EB).
  - unfold save_by_view at 2. rewrite EA, (replaced_then q s A B HkA HqA).
    unfold blocked in EA, EB.
    destruct (order_by_created_at_desc (List.filter q s.1)) as [|L rest];
      [discriminate|].
    by rewrite (latest_stands_trans L B A EB EA).
  - rewrite (replaced_then q s A B HkA HqA), (replaced_then q s B A HkB HqB).
    destruct (decide (id A = id B)) as [Heq|Hne].
    + rewrite (Hsame Heq). by destruct (latest_stands (event_row B) B).
    + rewrite (latest_stands_antisym A B Hne).
      by destruct (latest_stands (event_row B) A).
Qed.

(** From a store without a version under the key, the two submissions
    leave the winner, in either order. *)
Lemma save_by_view_winner q s A B :
  List.filter q s.1 = [] ->
  keyed q s A -> keyed q s B ->
  q (event_row A) = true -> q (event_row B) = true ->
  (id A = id B -> A = B) ->
  save_by_view q (save_by_view q s A) B = replaced q s (winner A B)
  /\ save_by_view q (save_by_view q s B) A = replaced q s (winner A B)
  /\ List.filter q (replaced q s (winner A B)).1 = [event_row (winner A B)].
Proof.
  intros Hempty HkA HkB HqA HqB Hsame.
  assert (Hfirst : forall e, save_by_view q s e = replaced q s e).
  { intros e. unfold save_by_view, blocked. by rewrite Hempty. }
  assert (HAB : save_by_view q (save_by_view q s A) B = replaced q s (winner A B)).
  { rewrite Hfirst, (replaced_then q s A B HkA HqA). unfold winner.
    change (latest_stands (plain_row A) B) with (latest_stands (event_row A) B).
    by destruct (latest_stands (event_row A) B). }
  split; [exact HAB|]. split.
  - by rewrite <- (save_by_view_comm q s A B HkA HkB HqA HqB Hsame).
  - apply replaced_lookup. unfold winner.
    by destruct (latest_stands (plain_row A) B).
Qed.

(** ** Latest-Wins for replaceable and addressable events *)

Lemma winner_spec (A B : Event) : latest_wins_rule A B (winner A B).
Proof.
  unfold latest_wins_rule, winner, latest_stands. simpl. repeat split.
  - intros H. replace (created_at A >? created_at B) with true by (symmetry; lia).
    done.
  - intros H. replace (created_at A >? created_at B) with false by (symmetry; lia).
    replace (created_at A =? created_at B) with false by (symmetry; lia).
    done.
  - intros H Hlt. rewrite H, Z.eqb_refl.
    replace (created_at B >? created_at B) with false by (symmetry; lia).
    unfold localeCompare. rewrite String.compare_antisym, Hlt. done.
  - intros H Hgt. rewrite H, Z.eqb_refl.
    replace (created_at B >? created_at B) with false by (symmetry; lia).
    unfold localeCompare. rewrite String.compare_antisym, Hgt. done.
Qed.

Lemma saveReplaceableEvent_save_by (k : Event) env event ip now :
  kind event = kind k -> pubkey event = pubkey k ->
  saveReplaceableEvent env event ip now
  = save_by (replaceable_query k) env event ip now.
Proof.
  intros Hk Hp. unfold saveReplaceableEvent, save_by. do 2 f_equal.
  apply filter_ext. intros r. unfold replaceable_query. by rewrite Hk, Hp.
Qed.

Lemma saveAddressableEvent_save_by (k : Event) env event ip now :
  kind event = kind k -> pubkey event = pubkey k ->
  identifier event = identifier k ->
  saveAddressableEvent env event ip now
  = save_by (addressable_query k) env event ip now.
Proof.
  intros Hk Hp Hi. unfold saveAddressableEvent, save_by. do 2 f_equal.
  apply filter_ext. intros r. unfold addressable_query. by rewrite Hk, Hp, Hi.
Qed.

Lemma replaceable_query_own_row (A B : Event) :
  kind A = kind B -> pubkey A = pubkey B ->
  replaceable_query A (event_row B) = true.
Proof.
  intros Hk Hp. unfold replaceable_query. simpl.
  by rewrite Hk, Hp, Z.eqb_refl, String.eqb_refl.
Qed.

Lemma addressable_query_own_row (A B : Event) (v : string) :
  kind A = kind B -> pubkey A = pubkey B ->
  d_tag_value A v -> d_tag_value B v ->
  tagsFilterRegExp_test "#d" = true ->
  addressable_query A (event_row B) = true.
Proof.
  intros Hk Hp HdA HdB Hidx. unfold addressable_query.
  destruct (d_tag_value_identifier _ _ HdA) as [-> _].
  destruct HdB as (t & Hfind & Hval).
  apply find_some_elem_of in Hfind as [Ht Hname]. apply is_str_Some in Hname.
  rewrite (event_row_files_tag B t "d" v Ht Hname Hval Hidx).
  simpl. by rewrite Hk, Hp, Z.eqb_refl, String.eqb_refl.
Qed.

(** Latest-Wins for replaceable events. For two versions [A] and [B] with
    the same kind and pubkey, submitting [A] then [B] leaves the same
    stored state as submitting [B] then [A]; from a store without a version
    for the key, that state holds the winner and not the other version: the
    one with the larger [created_at], on a tie the one with the smaller
    id. *)
Theorem replaceable_latest_wins
    (env : Bindings) (A B : Event)
    (ip1 ip2 ip3 ip4 : option string) (t1 t2 t3 t4 : Z) :
  kind A = kind B ->
  pubkey A = pubkey B ->
  (id A = id B -> A = B) ->
  keyed (replaceable_query A) (stored env) A ->
  keyed (replaceable_query A) (stored env) B ->
  let AB := saveReplaceableEvent (saveReplaceableEvent env A ip1 t1) B ip2 t2 in
  let BA := saveReplaceableEvent (saveReplaceableEvent env B ip3 t3) A ip4 t4 in
  latest_wins_rule A B (winner A B)
  /\ stored AB = stored BA
  /\ (List.filter (replaceable_query A) (DB env) = [] ->
      stored AB = (DB env ++ [event_row (winner A B)],
                   <[id (winner A B) := winner A B]> (kv_events env))
      /\ List.filter (replaceable_query A) (DB AB) = [event_row (winner A B)]).
Proof.
  intros Hk Hp Hsame HkA HkB AB BA. subst AB BA.
  pose proof (replaceable_query_own_row A A eq_refl eq_refl) as HqA.
  pose proof (replaceable_query_own_row A B Hk Hp) as HqB.
  rewrite (saveReplaceableEvent_save_by A env A ip1 t1 eq_refl eq_refl).
  rewrite (saveReplaceableEvent_save_by A _ B ip2 t2 (eq_sym Hk) (eq_sym Hp)).
  rewrite (saveReplaceableEvent_save_by A env B ip3 t3 (eq_sym Hk) (eq_sym Hp)).
  rewrite (saveReplaceableEvent_save_by A _ A ip4 t4 eq_refl eq_refl).
  rewrite !stored_save_by. split; [apply winner_spec|]. split.
  - by apply save_by_view_comm.
  - intros Hempty.
    destruct (save_by_view_winner (replaceable_query A) (stored env) A B
                Hempty HkA HkB HqA HqB Hsame) as (HAB & _ & Hrows).
    assert (Hview : stored (save_by (replaceable_query A)
                      (save_by (replaceable_query A) env A ip1 t1) B ip2 t2)
                    = replaced (replaceable_query A) (stored env) (winner A B))
      by by rewrite !stored_save_by.
    split.
    + rewrite HAB. unfold replaced. simpl. rewrite Hempty. simpl.
      f_equal. f_equal. by apply filter_all.
    + change (DB ?e) with (stored e).1. by rewrite Hview.
Qed.

(** Latest-Wins for addressable events whose [d] tag (the first tag named
    [d]) carries a value, [d] being an indexed tag: two versions [A] and
    [B] with the same kind, pubkey and [d] value may be submitted in either
    order, and from a store without a version for the key the stored state
    holds the winner and not the other version. *)
Theorem addressable_latest_wins
    (env : Bindings) (A B : Event) (v : string)
    (ip1 ip2 ip3 ip4 : option string) (t1 t2 t3 t4 : Z) :
  kind A = kind B ->
  pubkey A = pubkey B ->
  d_tag_value A v ->
  d_tag_value B v ->
  tagsFilterRegExp_test "#d" = true ->
  (id A = id B -> A = B) ->
  keyed (addressable_query A) (stored env) A ->
  keyed (addressable_query A) (stored env) B ->
  let AB := saveAddressableEvent (saveAddressableEvent env A ip1 t1) B ip2 t2 in
  let BA := saveAddressableEvent (saveAddressableEvent env B ip3 t3) A ip4 t4 in
  latest_wins_rule A B (winner A B)
  /\ stored AB = stored BA
  /\ (List.filter (addressable_query A) (DB env) = [] ->
      stored AB = (DB env ++ [event_row (winner A B)],
                   <[id (winner A B) := winner A B]> (kv_events env))
      /\ List.filter (addressable_query A) (DB AB) = [event_row (winner A B)]).
Proof.
  intros Hk Hp HdA HdB Hidx Hsame HkA HkB AB BA. subst AB BA.
  pose proof (addressable_query_own_row A A v eq_refl eq_refl HdA HdA Hidx) as HqA.
  pose proof (addressable_query_own_row A B v Hk Hp HdA HdB Hidx) as HqB.
  assert (Hi : identifier B = identifier A).
  { destruct (d_tag_value_identifier _ _ HdA) as [-> _].
    by destruct (d_tag_value_identifier _ _ HdB) as [-> _]. }
  rewrite (saveAddressableEvent_save_by A env A ip1 t1 eq_refl eq_refl eq_refl).
  rewrite (saveAddressableEvent_save_by A _ B ip2 t2 (eq_sym Hk) (eq_sym Hp) Hi).
  rewrite (saveAddressableEvent_save_by A env B ip3 t3 (eq_sym Hk) (eq_sym Hp) Hi).
  rewrite (saveAddressableEvent_save_by A _ A ip4 t4 eq_refl eq_refl eq_refl).
  rewrite !stored_save_by. split; [apply winner_spec|]. split.
  - by apply save_by_view_comm.
  - intros Hempty.
    destruct (save_by_view_winner (addressable_query A) (stored env) A B
                Hempty HkA HkB HqA HqB Hsame) as (HAB & _ & Hrows).
    assert (Hview : stored (save_by (addressable_query A)
                      (save_by (addressable_query A) env A ip1 t1) B ip2 t2)
                    = replaced (addressable_query A) (stored env) (winner A B))
      by by rewrite !stored_save_by.
    split.
    + rewrite HAB. unfold replaced. simpl. rewrite Hempty. simpl.
      f_equal. f_equal. by apply filter_all.
    + change (DB ?e) with (stored e).1. by rewrite Hview.
Qed.

(** * The rest of the handlers and the relay object

    [CloseMessageHandler], and the methods of [Relay] ([relay.ts]) that act
    on the durable state: [fetch], [metrics], [prune], [webSocketClose],
    [enableMaintenance], [disableMaintenance]. *)

(** ** CloseMessageHandler *)

(** [Map.prototype.delete]: the keys of a [Map] are unique, so removing the
    entries with the key removes the entry. *)
Definition map_delete {V} (k : string) (m : list (string * V))
  : list (string * V) :=
  List.filter (fun entry => negb (String.eqb (fst entry) k)) m.

Definition CloseMessageHandler_handle (subscriptionId : string)
    (ctx : DurableObjectState) (ws : nat) : DurableObjectState :=
  match webSockets ctx !! ws with
  | None => ctx
  | Some connection =>
      match storage ctx !! conn_id connection with
      | None => ctx
      | Some subscriptions =>
          put_subscriptions ctx (conn_id connection)
            (map_delete subscriptionId subscriptions)
      end
  end.

(** ** Relay *)

(** What [fetch] returns: the status, the [Retry-After] header and, on an
    upgrade, the index of the accepted server socket. *)
Record Response := mkResponse {
  status : Z;
  retry_after : option string;
  webSocket : option nat
}.

(** A parsed URL, as far as [#convertToWebSocketUrl] looks at it: the
    protocol (with its colon) and what follows it in [href]. *)
Record URL := mkURL {
  protocol : string;
  after_protocol : string
}.

Definition href (u : URL) : string := protocol u +:+ after_protocol u.

(** [new URL(url)] for the URL of an incoming request. *)
Variable URL_parse : string -> URL.

Definition convertToWebSocketUrl (url : string) : string :=
  let u := URL_parse url in
  href {| protocol := if String.eqb (protocol u) "http:" then "ws:" else "wss:";
          after_protocol := after_protocol u |}.

(** [storage.get<boolean>("maintenance")] used as a condition. *)
Definition in_maintenance (ctx : DurableObjectState) : bool :=
  match maintenance ctx with
  | Some b => b
  | None => false
  end.

(** [fetch]. [ctx.acceptWebSocket(server)] adds the server socket after the
    sockets already accepted; [connectionId] and [uuid] are the two random
    UUIDs drawn (the connection id, then the challenge). *)
Definition Relay_fetch (ctx : DurableObjectState) (request_url : string)
    (ipAddress : option string) (connectionId uuid : string) (now : Z)
  : DurableObjectState * Response * list Sent :=
  if in_maintenance ctx then
    (ctx, {| status := 503; retry_after := Some (pretty 3600); webSocket := None |},
     [])
  else
    let server := length (webSockets ctx) in
    let accepted :=
      {| status := 101; retry_after := None; webSocket := Some server |} in
    if auth_required (limitation config) then
      let '(challenge', sent) := sendAuthChallenge server uuid in
      let connection :=
        {| conn_id := connectionId;
           ipAddress := ipAddress;
           url := convertToWebSocketUrl request_url;
           auth := Some (mkSession challenge' now);
           pubkeys := ∅ |} in
      ({| webSockets := webSockets ctx ++ [connection];
          storage := storage ctx;
          maintenance := maintenance ctx |},
       accepted, sent)
    else
      let connection :=
        {| conn_id := connectionId;
           ipAddress := ipAddress;
           url := convertToWebSocketUrl request_url;
           auth := None;
           pubkeys := ∅ |} in
      ({| webSockets := webSockets ctx ++ [connection];
          storage := storage ctx;
          maintenance := maintenance ctx |},
       accepted, [])
  .

(** The keys of the transactional storage in the order [storage.list()]
    returns them: ascending by their bytes. The ["maintenance"] entry is
    among them when it is set. *)
Definition key_cmp (a b : string) : Z :=
  match String.compare a b with
  | Lt => -1
  | Eq => 0
  | Gt => 1
  end.

Definition storage_keys (ctx : DurableObjectState) : list string :=
  sort_by key_cmp
    ((map_to_list (storage ctx)).*1
     ++ match maintenance ctx with Some _ => ["maintenance"] | None => [] end).

(** The ids of the live connections. *)
Definition connection_ids (ctx : DurableObjectState) : list string :=
  map conn_id (webSockets ctx).

Record Metrics := mkMetrics {
  connections : nat;
  subscriptions : nat;
  filters : nat
}.

Definition sum_nat (l : list nat) : nat := fold_left Nat.add l 0%nat.

(** [metrics]. The entry of a key is counted when the key is the id of a
    live connection. *)
Definition Relay_metrics (ctx : DurableObjectState) : Metrics :=
  let connectionIds := connection_ids ctx in
  let subscriptionsList :=
    omap (fun connectionId =>
            if includes connectionId connectionIds
            then storage ctx !! connectionId
            else None)
         (storage_keys ctx) in
  {| connections := length connectionIds;
     subscriptions := sum_nat (map (fun s : Subscriptions => length s) subscriptionsList);
     filters :=
       sum_nat (concat
              (map (fun s : Subscriptions =>
                      map (fun entry => length (snd entry)) s)
                   subscriptionsList)) |}.

(** [prune]: of the first 2000 entries, those that belong to no live
    connection are deleted; the result is their number. *)
Definition prune_targets (ctx : DurableObjectState) : list string :=
  List.filter
    (fun key => negb (includes key (connection_ids ctx)))
    (List.filter (fun key => negb (String.eqb key "maintenance"))
                 (firstn 2000 (storage_keys ctx))).

Definition Relay_prune (ctx : DurableObjectState) : DurableObjectState * nat :=
  let targets := prune_targets ctx in
  ({| webSockets := webSockets ctx;
      storage := fold_left (fun st key => base.delete key st) targets (storage ctx);
      maintenance := maintenance ctx |},
   length targets).

(** [webSocketClose], that is [#cleanUp]. *)
Definition Relay_webSocketClose (ctx : DurableObjectState) (ws : nat)
  : DurableObjectState :=
  match webSockets ctx !! ws with
  | None => ctx
  | Some connection =>
      {| webSockets := webSockets ctx;
         storage := base.delete (conn_id connection) (storage ctx);
         maintenance := maintenance ctx |}
  end.

(** Modelled from the spec: [sendClosed] and [sendNotice] of
    [message/sender] are imported but not part of the embedded files. Per
    the wire protocol of the design document a closing notice is the frame
    [CLOSED] with the subscription id and a message, here the prefix and
    the text joined by a colon, and a general notice is the frame [NOTICE]
    with its message. *)
Definition sendClosed (ws : nat) (subscriptionId prefix message : string)
  : list Sent :=
  [(ws, CLOSED subscriptionId (prefix +:+ ": " +:+ message))].

Definition sendNotice (ws : nat) (message : string) : list Sent :=
  [(ws, NOTICE message)].

(** [enableMaintenance]: the frames sent and the sockets closed, in order. *)
Definition Relay_enableMaintenance (ctx : DurableObjectState)
  : DurableObjectState * list Sent * list nat :=
  let subscriptionsMap := storage ctx in
  ({| webSockets := webSockets ctx;
      storage := ∅;
      maintenance := Some true |},
   concat
     (imap
        (fun (ws : nat) (c : Connection) =>
           match subscriptionsMap !! conn_id c with
           | None => []
           | Some subscriptions =>
               concat
                 (map (fun entry =>
                         sendClosed ws (fst entry) "error"
                                    "closed due to maintenance")
                      subscriptions)
           end
           ++ sendNotice ws "disconnected due to maintenance")
        (webSockets ctx)),
   imap (fun (ws : nat) (_ : Connection) => ws) (webSockets ctx)).

Definition Relay_disableMaintenance (ctx : DurableObjectState)
  : DurableObjectState :=
  {| webSockets := webSockets ctx;
     storage := storage ctx;
     maintenance := None |}.

(** ** Event submissions: what a rejection leaves behind *)

(** The authorized pubkeys of the sockets, in socket order. *)
Definition authorized (ctx : DurableObjectState) : list (gset string) :=
  map pubkeys (webSockets ctx).

Lemma authorized_insert_same (l : list Connection) (i : nat) (c c' : Connection) :
  l !! i = Some c -> pubkeys c' = pubkeys c ->
  map pubkeys (<[i := c']> l) = map pubkeys l.
Proof.
  intros Hl Hp. apply list_eq. intros j. rewrite !list_lookup_fmap.
  destruct (decide (i = j)) as [<-|Hne].
  - rewrite list_lookup_insert_eq by (by apply lookup_lt_Some in Hl).
    rewrite Hl. simpl. by rewrite Hp.
  - by rewrite list_lookup_insert_ne.
Qed.

(** An EVENT submission that is not answered [OK true] changes nothing in
    the repository and is broadcast to nobody; and no submission, accepted
    or not, changes the subscriptions or the authorized pubkeys of any
    socket. *)
Theorem rejected_event_is_not_stored_nor_broadcast
    (event : Event) (ctx : DurableObjectState) (env : Bindings) (ws : nat)
    (now : Z) (uuid : string) :
  let r := EventMessageHandler_handle event ctx env ws now uuid in
  ((ws, OK (id event) true "") ∉ r.2 ->
     r.1.2 = env /\ (forall i f, (i, f) ∈ r.2 -> is_EVENT f = false))
  /\ storage r.1.1 = storage ctx
  /\ authorized r.1.1 = authorized ctx.
Proof.
  intros r. subst r. unfold EventMessageHandler_handle.
  destruct (negb (verifyEvent event)).
  { split; [|done]. intros _. split; [done|].
    intros i f Hin. apply list_elem_of_singleton in Hin. by simplify_eq. }
  destruct (webSockets ctx !! ws) as [connection|] eqn:Hws.
  2:{ split; [|done]. intros _. split; [done|].
      intros i f Hin. by apply not_elem_of_nil in Hin. }
  destruct (needs_auth connection event).
  - simpl. split; [|split; [done|]].
    + intros _. split; [done|]. intros i f Hin.
      apply elem_of_cons in Hin as [Hin|Hin]; [by simplify_eq|].
      apply list_elem_of_singleton in Hin. by simplify_eq.
    + unfold authorized. simpl. by apply (authorized_insert_same _ _ connection).
  - destruct (store_event env event (ipAddress connection) now); simpl.
    + split; [|done]. intros Hno. exfalso. apply Hno. apply list_elem_of_here.
    + split; [|done]. intros _. split; [done|]. intros i f Hin.
      apply list_elem_of_singleton in Hin. by simplify_eq.
Qed.

(** ** Authentication: what makes a pubkey authorized *)

Lemma Challenge_validate_true event session url' now :
  Challenge_validate event session url' now = Some true ->
  kind event = 22242
  /\ now <= challengedAt session + auth_timeout config * 1000
  /\ find_tag "challenge" event = Some (challenge session)
  /\ exists relay u,
       find_tag "relay" event = Some relay
       /\ normalizeURL relay = Some u
       /\ normalizeURL url' = Some u.
Proof.
  unfold Challenge_validate.
  destruct (kind event =? 22242) eqn:Hk; [|discriminate]. simpl.
  destruct (challengedAt session + auth_timeout config * 1000 <? now) eqn:Ht;
    [discriminate|].
  destruct (opt_str_eqb (find_tag "challenge" event) (Some (challenge session)))
    eqn:Hc; [|discriminate]. simpl.
  destruct (find_tag "relay" event) as [relay|] eqn:Hr; [|discriminate].
  destruct (normalizeURL relay) as [a|] eqn:Ha; [|discriminate].
  destruct (normalizeURL url') as [b|] eqn:Hb; [|discriminate].
  intros Heq. injection Heq as Heq. apply String.eqb_eq in Heq as ->.
  apply Z.eqb_eq in Hk. apply Z.ltb_ge in Ht.
  split; [done|]. split; [done|]. split.
  - destruct (find_tag "challenge" event) as [x|]; [|discriminate].
    simpl in Hc. apply String.eqb_eq in Hc. by rewrite Hc.
  - by exists relay, b.
Qed.

Lemma Challenge_validate_accepts event session url' now relay u :
  kind event = 22242 ->
  now <= challengedAt session + auth_timeout config * 1000 ->
  find_tag "challenge" event = Some (challenge session) ->
  find_tag "relay" event = Some relay ->
  normalizeURL relay = Some u ->
  normalizeURL url' = Some u ->
  Challenge_validate event session url' now = Some true.
Proof.
  intros Hk Ht Hc Hr Ha Hb. unfold Challenge_validate.
  rewrite Hk, Z.eqb_refl. simpl.
  replace (challengedAt session + auth_timeout config * 1000 <? now)
    with false by (symmetry; apply Z.ltb_ge; lia).
  rewrite Hc. simpl. rewrite String.eqb_refl. simpl.
  by rewrite Hr, Ha, Hb, String.eqb_refl.
Qed.

(** The conditions under which [AuthMessageHandler.handle] authorizes the
    pubkey of an AUTH event on a connection. *)
Definition auth_granted (connection : Connection) (event : Event) (now : Z)
  : Prop :=
  Z.of_nat (size (pubkeys connection)) < auth_limit config
  /\ (exists session,
        auth connection = Some session
        /\ kind event = 22242
        /\ now <= challengedAt session + auth_timeout config * 1000
        /\ find_tag "challenge" event = Some (challenge session)
        /\ exists relay u,
             find_tag "relay" event = Some relay
             /\ normalizeURL relay = Some u
             /\ normalizeURL (url connection) = Some u)
  /\ (auth_required (limitation config) || restricted_writes (limitation config)
      = true -> Account_exists (pubkey event) = true).

(** A pubkey that was not authorized on the socket is authorized by an AUTH
    event only when a challenge is outstanding on the connection, the event
    is of kind 22242, arrives before the challenge expired, echoes the
    challenge and the relay URL, the cap on authorized pubkeys is not
    reached and, under [auth_required] or [restricted_writes], the account
    is registered. *)
Theorem auth_is_granted_only_on_a_valid_challenge
    (event : Event) (ctx ctx' : DurableObjectState) (ws : nat) (now : Z)
    (sent : list Sent) (connection connection' : Connection) :
  AuthMessageHandler_handle event ctx ws now = Some (ctx', sent) ->
  webSockets ctx !! ws = Some connection ->
  webSockets ctx' !! ws = Some connection' ->
  pubkey event ∉ pubkeys connection ->
  pubkey event ∈ pubkeys connection' ->
  auth_granted connection event now
  /\ sent = [(ws, OK (id event) true "")].
Proof.
  intros Hh Hws Hws' Hnot Hin. unfold AuthMessageHandler_handle in Hh.
  rewrite Hws in Hh.
  destruct (has (pubkeys connection) (pubkey event)) eqn:Ehas.
  { apply has_true in Ehas. contradiction. }
  assert (Hsame : forall s, Some (ctx, s) = Some (ctx', sent) -> False).
  { intros s Heq. injection Heq as <- _. rewrite Hws in Hws'.
    injection Hws' as <-. contradiction. }
  destruct (Z.of_nat (size (pubkeys connection)) >=? auth_limit config) eqn:Ecap;
    [by apply Hsame in Hh|].
  destruct (auth connection) as [session|] eqn:Hauth; [|by apply Hsame in Hh].
  destruct (Challenge_validate event session (url connection) now) as [[|]|] eqn:Hv;
    [|by apply Hsame in Hh|discriminate].
  destruct ((auth_required (limitation config)
             || restricted_writes (limitation config))
            && negb (Account_exists (pubkey event))) eqn:Ereg;
    [by apply Hsame in Hh|].
  injection Hh as _ <-. split; [|done].
  split; [|split].
  - destruct (Z.geb_spec (Z.of_nat (size (pubkeys connection))) (auth_limit config));
      [discriminate|lia].
  - exists session. split; [done|]. by apply Challenge_validate_true.
  - intros Hpol. rewrite Hpol in Ereg. simpl in Ereg.
    by apply negb_false_iff in Ereg.
Qed.

(** The connection after [AuthMessageHandler.handle] authorized a pubkey. *)
Definition with_pubkey (connection : Connection) (pk : string) : Connection :=
  {| conn_id := conn_id connection;
     ipAddress := ipAddress connection;
     url := url connection;
     auth := auth connection;
     pubkeys := {[pk]} ∪ pubkeys connection |}.

Lemma auth_granted_handle event ctx ws now connection :
  webSockets ctx !! ws = Some connection ->
  pubkey event ∉ pubkeys connection ->
  auth_granted connection event now ->
  AuthMessageHandler_handle event ctx ws now
  = Some ({| webSockets := <[ws := with_pubkey connection (pubkey event)]>
                             (webSockets ctx);
             storage := storage ctx;
             maintenance := maintenance ctx |},
          [(ws, OK (id event) true "")]).
Proof.
  intros Hws Hnot (Hcap & (session & Hauth & Hk & Ht & Hc & relay & u & Hr & Ha & Hb)
                   & Hreg).
  unfold AuthMessageHandler_handle, with_pubkey. rewrite Hws.
  destruct (has (pubkeys connection) (pubkey event)) eqn:Ehas.
  { apply has_true in Ehas. contradiction. }
  destruct (Z.geb_spec (Z.of_nat (size (pubkeys connection))) (auth_limit config));
    [lia|].
  rewrite Hauth.
  rewrite (Challenge_validate_accepts event session (url connection) now relay u
             Hk Ht Hc Hr Ha Hb).
  destruct (auth_required (limitation config)
            || restricted_writes (limitation config)) eqn:Hpol; simpl.
  - rewrite (Hreg eq_refl). done.
  - done.
Qed.

(** The round from a refused submission to an accepted one. An event that
    needs authentication is answered with a challenge and [OK false]; an
    AUTH event of the same pubkey that echoes this challenge and the relay
    URL in time (cap not reached, account registered where the policy asks
    for it) is answered [OK true]; after that the same event no longer
    needs authentication on this socket. *)
Theorem challenge_then_auth_then_publish
    (event a : Event) (ctx : DurableObjectState) (env : Bindings) (ws : nat)
    (now1 now2 : Z) (uuid relay u : string) (connection : Connection) :
  verifyEvent event = true ->
  webSockets ctx !! ws = Some connection ->
  needs_auth connection event = true ->
  pubkey event ∉ pubkeys connection ->
  kind a = 22242 ->
  pubkey a = pubkey event ->
  find_tag "challenge" a = Some uuid ->
  find_tag "relay" a = Some relay ->
  normalizeURL relay = Some u ->
  normalizeURL (url connection) = Some u ->
  now2 <= now1 + auth_timeout config * 1000 ->
  Z.of_nat (size (pubkeys connection)) < auth_limit config ->
  (auth_required (limitation config) || restricted_writes (limitation config)
   = true -> Account_exists (pubkey event) = true) ->
  let r1 := EventMessageHandler_handle event ctx env ws now1 uuid in
  r1.2 = [(ws, AUTH uuid);
          (ws, OK (id event) false
                 ("auth-required: "
                  +:+ (if isProtected event
                       then "this event may only be published by its author"
                       else "we only accept events from registered users")))]
  /\ r1.1.2 = env
  /\ exists ctx2 connection2,
       AuthMessageHandler_handle a r1.1.1 ws now2
       = Some (ctx2, [(ws, OK (id a) true "")])
       /\ webSockets ctx2 !! ws = Some connection2
       /\ pubkey event ∈ pubkeys connection2
       /\ needs_auth connection2 event = false.
Proof.
  intros Hv Hws Hneed Hnot Hk Hpk Hc Hr Ha Hb Ht Hcap Hreg r1. subst r1.
  unfold EventMessageHandler_handle. rewrite Hv, Hws, Hneed. simpl.
  split; [done|]. split; [done|].
  set (c1 := {| conn_id := conn_id connection; ipAddress := ipAddress connection;
                url := url connection; auth := Some (mkSession uuid now1);
                pubkeys := pubkeys connection |}).
  set (ctx1 := {| webSockets := <[ws := c1]> (webSockets ctx);
                  storage := storage ctx; maintenance := maintenance ctx |}).
  assert (Hlt : (ws < length (webSockets ctx))%nat)
    by (by apply lookup_lt_Some in Hws).
  assert (Hws1 : webSockets ctx1 !! ws = Some c1)
    by (by apply list_lookup_insert_eq).
  assert (Hgranted : auth_granted c1 a now2).
  { split; [done|]. split.
    - exists (mkSession uuid now1). split; [done|]. split; [done|].
      split; [done|]. split; [done|]. by exists relay, u.
    - by rewrite Hpk. }
  assert (Hnot1 : pubkey a ∉ pubkeys c1) by (by rewrite Hpk).
  rewrite (auth_granted_handle a ctx1 ws now2 c1 Hws1 Hnot1 Hgranted).
  eexists _, (with_pubkey c1 (pubkey a)). split; [done|]. split.
  - simpl. apply list_lookup_insert_eq. by rewrite length_insert.
  - split.
    + simpl. rewrite Hpk. by apply elem_of_union_l, elem_of_singleton.
    + unfold needs_auth. simpl.
      assert (Hhas : has ({[pubkey a]} ∪ pubkeys connection) (pubkey event) = true).
      { apply has_true. rewrite Hpk. by apply elem_of_union_l, elem_of_singleton. }
      by rewrite Hhas.
Qed.

(** [AuthMessageHandler.handle] never withdraws an authorization and keeps
    the cap: whatever the outcome, each socket keeps its connection id, its
    challenge and every pubkey it had authorized, sockets other than the
    sender's are untouched, the subscriptions are untouched, and a
    connection that held at most [auth_limit] pubkeys still does. *)
Theorem auth_never_withdraws_and_keeps_the_cap
    (event : Event) (ctx ctx' : DurableObjectState) (ws : nat) (now : Z)
    (sent : list Sent) :
  AuthMessageHandler_handle event ctx ws now = Some (ctx', sent) ->
  storage ctx' = storage ctx
  /\ maintenance ctx' = maintenance ctx
  /\ length (webSockets ctx') = length (webSockets ctx)
  /\ forall i c,
       webSockets ctx !! i = Some c ->
       exists c',
         webSockets ctx' !! i = Some c'
         /\ pubkeys c ⊆ pubkeys c'
         /\ conn_id c' = conn_id c
         /\ auth c' = auth c
         /\ (i <> ws -> c' = c)
         /\ (Z.of_nat (size (pubkeys c)) <= auth_limit config ->
             Z.of_nat (size (pubkeys c')) <= auth_limit config).
Proof.
  intros Hh.
  assert (Hsame : forall s, Some (ctx, s) = Some (ctx', sent) ->
            storage ctx' = storage ctx
            /\ maintenance ctx' = maintenance ctx
            /\ length (webSockets ctx') = length (webSockets ctx)
            /\ forall i c,
                 webSockets ctx !! i = Some c ->
                 exists c',
                   webSockets ctx' !! i = Some c'
                   /\ pubkeys c ⊆ pubkeys c'
                   /\ conn_id c' = conn_id c
                   /\ auth c' = auth c
                   /\ (i <> ws -> c' = c)
                   /\ (Z.of_nat (size (pubkeys c)) <= auth_limit config ->
                       Z.of_nat (size (pubkeys c')) <= auth_limit config)).
  { intros s Heq. injection Heq as <- _. repeat split; try done.
    intros i c Hc. exists c. repeat split; done. }
  unfold AuthMessageHandler_handle in Hh.
  destruct (webSockets ctx !! ws) as [connection|] eqn:Hws; [|by apply Hsame in Hh].
  destruct (has (pubkeys connection) (pubkey event)) eqn:Ehas;
    [by apply Hsame in Hh|].
  destruct (Z.geb_spec (Z.of_nat (size (pubkeys connection))) (auth_limit config))
    as [Hfull|Hroom]; [by apply Hsame in Hh|].
  destruct (match auth connection with
            | Some session => Challenge_validate event session (url connection) now
            | None => Some false
            end) as [[|]|]; [|by apply Hsame in Hh|discriminate].
  destruct ((auth_required (limitation config)
             || restricted_writes (limitation config))
            && negb (Account_exists (pubkey event)));
    [by apply Hsame in Hh|].
  injection Hh as <- _. simpl.
  split; [done|]. split; [done|]. split; [apply length_insert|].
  intros i c Hc. destruct (decide (i = ws)) as [->|Hne].
  - rewrite Hws in Hc. injection Hc as <-.
    eexists. split; [apply list_lookup_insert_eq; by apply lookup_lt_Some in Hws|].
    simpl. split; [apply union_subseteq_r|]. split; [done|]. split; [done|].
    split; [done|]. intros _.
    assert (Hnew : pubkey event ∉ pubkeys connection).
    { intros Hin. apply has_true in Hin. congruence. }
    rewrite size_union by (by apply disjoint_singleton_l).
    rewrite size_singleton. lia.
  - exists c. rewrite list_lookup_insert_ne by done.
    repeat split; done.
Qed.

(** ** The subscription registry: REQ, CLOSE and the broadcast *)

Lemma elem_of_map_set {V} k (v : V) m : (k, v) ∈ map_set k v m.
Proof.
  induction m as [|[k' v'] m IH]; simpl; [apply list_elem_of_here|].
  destruct (String.eqb k' k); [apply list_elem_of_here|].
  by apply list_elem_of_further.
Qed.

Lemma elem_of_map_set_inv {V} k (v : V) m k' v' :
  (k', v') ∈ map_set k v m -> (k', v') = (k, v) \/ (k', v') ∈ m.
Proof.
  induction m as [|[k0 v0] m IH]; simpl.
  - intros H. apply list_elem_of_singleton in H. by left.
  - destruct (String.eqb k0 k).
    + intros H. apply elem_of_cons in H as [H|H]; [by left|].
      right. by apply list_elem_of_further.
    + intros H. apply elem_of_cons in H as [H|H].
      * right. rewrite H. apply list_elem_of_here.
      * destruct (IH H) as [?|?]; [by left|].
        right. by apply list_elem_of_further.
Qed.

Lemma map_set_length {V} k (v : V) m :
  length (map_set k v m)
  = match map_get k m with Some _ => length m | None => S (length m) end.
Proof.
  induction m as [|[k' v'] m IH]; simpl; [done|].
  destruct (String.eqb k' k); simpl; [done|].
  rewrite IH. by destruct (map_get k m).
Qed.

Lemma elem_of_map_delete {V} k (m : list (string * V)) k' v :
  (k', v) ∈ map_delete k m <-> (k', v) ∈ m /\ k' <> k.
Proof.
  unfold map_delete. rewrite elem_of_list_filter. simpl.
  rewrite negb_true_iff, String.eqb_neq. done.
Qed.

Lemma map_delete_length {V} k (m : list (string * V)) :
  (length (map_delete k m) <= length m)%nat.
Proof. apply filter_length_le. Qed.

Lemma map_set_keys {V} k (v : V) m k' :
  k' ∈ (map_set k v m).*1 -> k' = k \/ k' ∈ m.*1.
Proof.
  intros H. apply list_elem_of_fmap in H as ([k0 v0] & -> & Hin).
  apply elem_of_map_set_inv in Hin as [Heq|Hin]; [left; by simplify_eq|].
  right. apply list_elem_of_fmap. by exists (k0, v0).
Qed.

Lemma map_set_NoDup {V} k (v : V) m : NoDup m.*1 -> NoDup (map_set k v m).*1.
Proof.
  induction m as [|[k' v'] m IH]; simpl; intros Hnd.
  - apply NoDup_singleton.
  - apply NoDup_cons in Hnd as [Hk' Hnd].
    destruct (String.eqb_spec k' k) as [->|Hne]; simpl.
    + by apply NoDup_cons.
    + apply NoDup_cons. split; [|by apply IH].
      intros Hin. apply map_set_keys in Hin as [?|?]; done.
Qed.

Lemma map_delete_NoDup {V} k (m : list (string * V)) :
  NoDup m.*1 -> NoDup (map_delete k m).*1.
Proof.
  unfold map_delete. induction m as [|[k' v'] m IH]; simpl; [done|].
  intros Hnd. apply NoDup_cons in Hnd as [Hk' Hnd].
  destruct (negb (String.eqb k' k)); simpl; [|by apply IH].
  apply NoDup_cons. split; [|by apply IH].
  intros Hin. apply Hk'.
  apply list_elem_of_fmap in Hin as ([k0 v0] & -> & Hin).
  apply elem_of_list_filter in Hin as [Hin _].
  apply list_elem_of_fmap. by exists (k0, v0).
Qed.

Lemma map_get_elem_of {V} k (v : V) m : map_get k m = Some v -> (k, v) ∈ m.
Proof.
  induction m as [|[k' v'] m IH]; simpl; [done|].
  destruct (String.eqb_spec k' k) as [->|Hne].
  - intros [= ->]. apply list_elem_of_here.
  - intros H. by apply list_elem_of_further, IH.
Qed.

Lemma elem_of_map_get {V} k (v : V) m :
  NoDup m.*1 -> (k, v) ∈ m -> map_get k m = Some v.
Proof.
  induction m as [|[k' v'] m IH]; simpl; intros Hnd Hin.
  - by apply not_elem_of_nil in Hin.
  - apply NoDup_cons in Hnd as [Hk' Hnd].
    apply elem_of_cons in Hin as [Heq|Hin].
    + injection Heq as <- <-. by rewrite String.eqb_refl.
    + destruct (String.eqb_spec k' k) as [->|Hne]; [|by apply IH].
      exfalso. apply Hk'. apply list_elem_of_fmap. by exists (k, v).
Qed.

Lemma map_get_delete_eq {V} k (m : list (string * V)) :
  map_get k (map_delete k m) = None.
Proof.
  unfold map_delete. induction m as [|[k' v'] m IH]; simpl; [done|].
  destruct (String.eqb k' k) eqn:E; simpl; [done|]. by rewrite E.
Qed.

Lemma map_get_delete_ne {V} k k' (m : list (string * V)) :
  k <> k' -> map_get k' (map_delete k m) = map_get k' m.
Proof.
  intros Hne. unfold map_delete.
  induction m as [|[k0 v0] m IH]; simpl; [done|].
  destruct (String.eqb_spec k0 k) as [->|Hne0]; simpl.
  - destruct (String.eqb_spec k k'); [done|apply IH].
  - by rewrite IH.
Qed.

(** The shape of the registry: the subscriptions of a connection are a
    [Map], so their ids are distinct; every connection has at most
    [max_subscriptions] subscriptions, each of at most [max_filters]
    filters. *)
Definition within_limits (ctx : DurableObjectState) : Prop :=
  forall key (subs : Subscriptions),
    storage ctx !! key = Some subs ->
    NoDup subs.*1
    /\ Z.of_nat (length subs) <= max_subscriptions (limitation config)
    /\ forall sid fs, (sid, fs) ∈ subs ->
                      Z.of_nat (length fs) <= max_filters (limitation config).

Lemma req_state subscriptionId filters ctx env ws connection :
  webSockets ctx !! ws = Some connection ->
  (ReqMessageHandler_handle subscriptionId filters ctx env ws).1
  = if req_rejected subscriptionId filters
         (default [] (storage ctx !! conn_id connection))
    then ctx
    else put_subscriptions ctx (conn_id connection)
           (map_set subscriptionId filters
              (default [] (storage ctx !! conn_id connection))).
Proof.
  intros Hws. unfold req_rejected, ReqMessageHandler_handle.
  destruct (Z.of_nat (String.length subscriptionId)
            >? max_subid_length (limitation config)); simpl; [done|].
  destruct (Z.of_nat (length filters) >? max_filters (limitation config));
    simpl; [done|].
  destruct (existsb (fun filter => negb (validateFilter filter)) filters);
    simpl; [done|].
  rewrite Hws.
  destruct (Z.of_nat (length (map_set subscriptionId filters
              (default [] (storage ctx !! conn_id connection))))
            >? max_subscriptions (limitation config)); [done|].
  by destruct (mapM (find env) filters).
Qed.

Lemma req_accepted_within_limits subscriptionId filters ctx key :
  req_rejected subscriptionId filters (default [] (storage ctx !! key)) = false ->
  within_limits ctx ->
  within_limits
    (put_subscriptions ctx key
       (map_set subscriptionId filters (default [] (storage ctx !! key)))).
Proof.
  unfold req_rejected. intros Hacc Hlim key' subs Hsubs. simpl in Hsubs.
  apply orb_false_elim in Hacc as [Hacc Hroom].
  apply orb_false_elim in Hacc as [Hacc _].
  apply orb_false_elim in Hacc as [_ Hfew].
  rewrite Z.gtb_ltb, Z.ltb_ge in Hroom, Hfew.
  destruct (decide (key' = key)) as [->|Hne].
  - rewrite lookup_insert_eq in Hsubs. injection Hsubs as <-.
    split; [|split; [done|]].
    + apply map_set_NoDup.
      destruct (storage ctx !! key) as [old|] eqn:Hold; [|apply NoDup_nil_2].
      by destruct (Hlim _ _ Hold) as [? _].
    + intros sid fs Hin.
      apply elem_of_map_set_inv in Hin as [Heq|Hin]; [by simplify_eq|].
      destruct (storage ctx !! key) as [old|] eqn:Hold;
        [|by apply not_elem_of_nil in Hin].
      destruct (Hlim _ _ Hold) as (_ & _ & Hfs). by apply (Hfs sid).
  - rewrite lookup_insert_ne in Hsubs by done. by apply (Hlim key').
Qed.

(** A rejected REQ leaves the durable state as it was. An accepted REQ
    binds the subscription id to the filters for the sender's connection,
    in place of an earlier binding of the same id, and leaves the other
    subscriptions of the connection, the other connections and the sockets
    as they were; the caps of the registry are kept. *)
Theorem req_registers_the_subscription
    (subscriptionId : string) (filters : list Filter)
    (ctx : DurableObjectState) (env : Bindings) (ws : nat)
    (connection : Connection) :
  webSockets ctx !! ws = Some connection ->
  let stored := default [] (storage ctx !! conn_id connection) in
  let ctx' := (ReqMessageHandler_handle subscriptionId filters ctx env ws).1 in
  (req_rejected subscriptionId filters stored = true -> ctx' = ctx)
  /\ (req_rejected subscriptionId filters stored = false ->
      (exists subs,
         storage ctx' !! conn_id connection = Some subs
         /\ map_get subscriptionId subs = Some filters
         /\ (forall sid, sid <> subscriptionId ->
               map_get sid subs = map_get sid stored)
         /\ length subs
            = match map_get subscriptionId stored with
              | Some _ => length stored
              | None => S (length stored)
              end)
      /\ (forall key, key <> conn_id connection ->
            storage ctx' !! key = storage ctx !! key)
      /\ webSockets ctx' = webSockets ctx
      /\ maintenance ctx' = maintenance ctx
      /\ (within_limits ctx -> within_limits ctx')).
Proof.
  intros Hws stored ctx'. subst stored ctx'.
  rewrite (req_state _ _ _ _ _ _ Hws).
  split; [by intros ->|]. intros Hacc. rewrite Hacc.
  split; [|split; [|split; [done|split; [done|]]]].
  - eexists. split; [apply lookup_insert_eq|].
    split; [apply map_get_set_eq|]. split.
    + intros sid Hne. by apply map_get_set_ne.
    + apply map_set_length.
  - intros key Hne. by apply lookup_insert_ne.
  - by apply req_accepted_within_limits.
Qed.

(** An event handled on two states with the same sockets is answered the
    same way, up to the broadcast of an accepted event. *)
Lemma handle_same_sockets event ctx ctx' env ws now uuid :
  webSockets ctx' = webSockets ctx ->
  let r := EventMessageHandler_handle event ctx env ws now uuid in
  let r' := EventMessageHandler_handle event ctx' env ws now uuid in
  (r.2 = (ws, OK (id event) true "") :: broadcast ctx event
   /\ r'.2 = (ws, OK (id event) true "") :: broadcast ctx' event)
  \/ (r'.2 = r.2
      /\ forall s, s ∈ r.2 ->
           is_EVENT s.2 = false /\ s <> (ws, OK (id event) true "")).
Proof.
  intros Hsockets. unfold EventMessageHandler_handle. rewrite Hsockets.
  destruct (negb (verifyEvent event)); simpl.
  { right. split; [done|]. intros s Hs.
    apply list_elem_of_singleton in Hs as ->. done. }
  destruct (webSockets ctx !! ws) as [connection|]; simpl.
  2:{ right. split; [done|]. intros s Hs. by apply not_elem_of_nil in Hs. }
  destruct (needs_auth connection event); simpl.
  { right. split; [done|]. intros s Hs.
    apply elem_of_cons in Hs as [->|Hs]; [done|].
    apply list_elem_of_singleton in Hs as ->. done. }
  destruct (store_event env event (ipAddress connection) now); simpl.
  - by left.
  - right. split; [done|]. intros s Hs.
    apply list_elem_of_singleton in Hs as ->. done.
Qed.

Lemma accepted_frames event ctx env ws now uuid :
  let r := EventMessageHandler_handle event ctx env ws now uuid in
  (ws, OK (id event) true "") ∈ r.2 ->
  r.2 = (ws, OK (id event) true "") :: broadcast ctx event.
Proof.
  intros r Hok.
  destruct (handle_same_sockets event ctx ctx env ws now uuid eq_refl)
    as [[H _]|[_ H]]; [done|].
  by destruct (H _ Hok) as [_ Hne].
Qed.

(** The subscriptions an accepted event is sent to: those of the live
    sockets with a filter the event passes. *)
Lemma accepted_event_delivery event ctx env ws now uuid i sid :
  within_limits ctx ->
  let r := EventMessageHandler_handle event ctx env ws now uuid in
  (ws, OK (id event) true "") ∈ r.2 ->
  (i, EVENT sid event) ∈ r.2 <->
  exists c filters,
    webSockets ctx !! i = Some c
    /\ map_get sid (default [] (storage ctx !! conn_id c)) = Some filters
    /\ existsb (fun filter => broadcastable filter event) filters = true.
Proof.
  intros Hlim r Hok. subst r.
  rewrite (accepted_frames _ _ _ _ _ _ Hok).
  rewrite elem_of_cons, elem_of_broadcast. split.
  - intros [Heq|(c & subs & sid' & filters & Hc & Hsubs & Hin & Hpass & Heq)];
      [discriminate|].
    injection Heq as <-. exists c, filters. rewrite Hsubs. simpl.
    split; [done|]. split; [|done].
    apply elem_of_map_get; [|done]. by destruct (Hlim _ _ Hsubs) as [? _].
  - intros (c & filters & Hc & Hget & Hpass). right.
    destruct (storage ctx !! conn_id c) as [subs|] eqn:Hsubs; [|done].
    exists c, subs, sid, filters. repeat split; try done.
    by apply map_get_elem_of.
Qed.

(** A subscription is live: once a REQ is accepted, every event accepted
    afterwards, from whichever socket, is sent to the subscriber under the
    subscription id exactly when it passes one of the filters of the
    REQ. *)
Theorem subscriber_receives_exactly_the_matching_events
    (subscriptionId : string) (filters : list Filter)
    (ctx : DurableObjectState) (env : Bindings) (ws : nat)
    (connection : Connection)
    (event : Event) (env' : Bindings) (publisher : nat) (now : Z)
    (uuid : string) :
  webSockets ctx !! ws = Some connection ->
  within_limits ctx ->
  req_rejected subscriptionId filters
               (default [] (storage ctx !! conn_id connection)) = false ->
  let ctx1 := (ReqMessageHandler_handle subscriptionId filters ctx env ws).1 in
  let r := EventMessageHandler_handle event ctx1 env' publisher now uuid in
  (publisher, OK (id event) true "") ∈ r.2 ->
  ((ws, EVENT subscriptionId event) ∈ r.2
   <-> existsb (fun filter => broadcastable filter event) filters = true).
Proof.
  intros Hws Hlim Hacc ctx1 r Hok.
  assert (Hctx1 : ctx1 = put_subscriptions ctx (conn_id connection)
            (map_set subscriptionId filters
               (default [] (storage ctx !! conn_id connection)))).
  { subst ctx1. by rewrite (req_state _ _ _ _ _ _ Hws), Hacc. }
  assert (Hlim1 : within_limits ctx1).
  { rewrite Hctx1. by apply req_accepted_within_limits. }
  assert (Hsockets : webSockets ctx1 = webSockets ctx) by by rewrite Hctx1.
  assert (Hsubs : storage ctx1 !! conn_id connection
                  = Some (map_set subscriptionId filters
                            (default [] (storage ctx !! conn_id connection)))).
  { rewrite Hctx1. apply lookup_insert_eq. }
  subst r. rewrite (accepted_event_delivery _ _ _ _ _ _ _ _ Hlim1 Hok).
  rewrite Hsockets. split.
  - intros (c & filters' & Hc & Hget' & Hpass).
    rewrite Hws in Hc. injection Hc as <-.
    rewrite Hsubs in Hget'. simpl in Hget'.
    rewrite map_get_set_eq in Hget'. congruence.
  - intros Hpass. exists connection, filters.
    rewrite Hsubs. simpl. by rewrite map_get_set_eq.
Qed.

Lemma close_state subscriptionId ctx ws connection subs :
  webSockets ctx !! ws = Some connection ->
  storage ctx !! conn_id connection = Some subs ->
  CloseMessageHandler_handle subscriptionId ctx ws
  = put_subscriptions ctx (conn_id connection)
      (map_delete subscriptionId subs).
Proof.
  intros Hws Hsubs. unfold CloseMessageHandler_handle. by rewrite Hws, Hsubs.
Qed.

Lemma close_within_limits subscriptionId ctx key subs :
  storage ctx !! key = Some subs ->
  within_limits ctx ->
  within_limits (put_subscriptions ctx key (map_delete subscriptionId subs)).
Proof.
  intros Hsubs Hlim key' subs' Hsubs'. simpl in Hsubs'.
  destruct (decide (key' = key)) as [->|Hne].
  - rewrite lookup_insert_eq in Hsubs'. injection Hsubs' as <-.
    destruct (Hlim _ _ Hsubs) as (Hnd & Hlen & Hfs).
    split; [by apply map_delete_NoDup|]. split.
    + pose proof (map_delete_length subscriptionId subs). lia.
    + intros sid fs Hin. apply elem_of_map_delete in Hin as [Hin _].
      by apply (Hfs sid).
  - rewrite lookup_insert_ne in Hsubs' by done. by apply (Hlim key').
Qed.

(** A CLOSE ends the subscription: of the events accepted afterwards none
    is sent to the sender of the CLOSE under the closed subscription id,
    whatever its filters were, while every other subscription, of this
    connection and of the others, is served as it would have been without
    the CLOSE. A CLOSE from a connection that has no subscriptions changes
    nothing. *)
Theorem close_ends_the_subscription
    (subscriptionId : string) (ctx : DurableObjectState) (ws : nat)
    (connection : Connection)
    (event : Event) (env : Bindings) (publisher : nat) (now : Z)
    (uuid : string) :
  webSockets ctx !! ws = Some connection ->
  within_limits ctx ->
  let ctx1 := CloseMessageHandler_handle subscriptionId ctx ws in
  let r := EventMessageHandler_handle event ctx env publisher now uuid in
  let r1 := EventMessageHandler_handle event ctx1 env publisher now uuid in
  within_limits ctx1
  /\ webSockets ctx1 = webSockets ctx
  /\ (storage ctx !! conn_id connection = None -> ctx1 = ctx)
  /\ ((ws, EVENT subscriptionId event) ∉ r1.2)
  /\ r1.1.2 = r.1.2
  /\ forall i sid c,
       webSockets ctx !! i = Some c ->
       conn_id c <> conn_id connection \/ sid <> subscriptionId ->
       ((i, EVENT sid event) ∈ r1.2 <-> (i, EVENT sid event) ∈ r.2).
Proof.
  intros Hws Hlim ctx1 r r1.
  assert (Hsockets : webSockets ctx1 = webSockets ctx).
  { subst ctx1. unfold CloseMessageHandler_handle. rewrite Hws.
    by destruct (storage ctx !! conn_id connection). }
  assert (Hlim1 : within_limits ctx1).
  { subst ctx1. unfold CloseMessageHandler_handle. rewrite Hws.
    destruct (storage ctx !! conn_id connection) as [subs|] eqn:Hsubs; [|done].
    by apply close_within_limits. }
  assert (Hget : forall c sid,
             conn_id c <> conn_id connection \/ sid <> subscriptionId ->
             map_get sid (default [] (storage ctx1 !! conn_id c))
             = map_get sid (default [] (storage ctx !! conn_id c))).
  { intros c sid Hother. subst ctx1. unfold CloseMessageHandler_handle.
    rewrite Hws.
    destruct (storage ctx !! conn_id connection) as [subs|] eqn:Hsubs; [|done].
    simpl. destruct (decide (conn_id c = conn_id connection)) as [Heq|Hne].
    - rewrite Heq, lookup_insert_eq, Hsubs. simpl.
      destruct Hother as [?|Hsid]; [done|].
      apply map_get_delete_ne. congruence.
    - by rewrite lookup_insert_ne. }
  assert (Hclosed : map_get subscriptionId
                      (default [] (storage ctx1 !! conn_id connection)) = None).
  { subst ctx1. unfold CloseMessageHandler_handle. rewrite Hws.
    destruct (storage ctx !! conn_id connection) as [subs|] eqn:Hsubs.
    - simpl. rewrite lookup_insert_eq. apply map_get_delete_eq.
    - by rewrite Hsubs. }
  assert (Henv : r1.1.2 = r.1.2).
  { subst r r1. unfold EventMessageHandler_handle. rewrite Hsockets.
    destruct (negb (verifyEvent event)); [done|].
    destruct (webSockets ctx !! publisher) as [p|]; [|done].
    destruct (needs_auth p event); [done|].
    by destruct (store_event env event (ipAddress p) now). }
  split; [done|]. split; [done|]. split.
  { intros Hnone. subst ctx1. unfold CloseMessageHandler_handle.
    by rewrite Hws, Hnone. }
  pose proof (handle_same_sockets event ctx ctx1 env publisher now uuid
                Hsockets) as Hcases.
  cbv zeta in Hcases. fold r r1 in Hcases.
  destruct Hcases as [[Hr Hr1]|[Hsame Hnone]].
  - assert (Hok : (publisher, OK (id event) true "") ∈ r.2)
      by (rewrite Hr; apply list_elem_of_here).
    assert (Hok1 : (publisher, OK (id event) true "") ∈ r1.2)
      by (rewrite Hr1; apply list_elem_of_here).
    split; [|split; [done|]].
    + intros Hin.
      apply (accepted_event_delivery _ _ _ _ _ _ _ _ Hlim1 Hok1) in Hin
        as (c & filters & Hc & Hsub & _).
      rewrite Hsockets, Hws in Hc. injection Hc as <-. congruence.
    + intros i sid c Hc Hother. unfold r, r1.
      rewrite (accepted_event_delivery _ _ _ _ _ _ _ _ Hlim1 Hok1).
      rewrite (accepted_event_delivery _ _ _ _ _ _ _ _ Hlim Hok).
      rewrite Hsockets. split.
      * intros (c' & filters & Hc' & Hsub & Hpass).
        exists c', filters. split; [done|]. split; [|done].
        rewrite <- Hget; [done|]. by simplify_eq.
      * intros (c' & filters & Hc' & Hsub & Hpass).
        exists c', filters. split; [done|]. split; [|done].
        rewrite Hget; [done|]. by simplify_eq.
  - split; [|split; [done|]].
    + rewrite Hsame. intros Hin. by destruct (Hnone _ Hin) as [? _].
    + intros i sid c _ _. by rewrite Hsame.
Qed.

(** ** The fan-out of a broadcast *)

Lemma concat_imap_length {A B} (F : nat -> A -> list B) (l : list A) (M : nat) :
  (forall i x, l !! i = Some x -> (length (F i x) <= M)%nat) ->
  (length (concat (imap F l)) <= length l * M)%nat.
Proof.
  revert F. induction l as [|x l IH]; intros F HF; simpl; [lia|].
  rewrite length_app.
  pose proof (HF 0%nat x eq_refl).
  pose proof (IH (F ∘ S) (fun i y Hy => HF (S i) y Hy)). lia.
Qed.

Lemma NoDup_concat_imap {A B} (F : nat -> A -> list (nat * B)) (g : nat -> nat)
    (l : list A) :
  (forall i j, g i = g j -> i = j) ->
  (forall i x, l !! i = Some x -> NoDup (F i x)) ->
  (forall i x s, s ∈ F i x -> s.1 = g i) ->
  NoDup (concat (imap F l)).
Proof.
  revert F g. induction l as [|x l IH]; intros F g Hg Hnd Hfst; simpl.
  - apply NoDup_nil_2.
  - apply NoDup_app. split; [apply (Hnd 0%nat x eq_refl)|]. split.
    + intros s Hs Hin. apply elem_of_concat in Hin as (piece & Hpiece & Hin).
      apply elem_of_lookup_imap in Hpiece as (j & y & -> & _).
      apply Hfst in Hs. apply (Hfst (S j)) in Hin.
      rewrite Hs in Hin. by apply Hg in Hin.
    + apply (IH (F ∘ S) (g ∘ S)).
      * intros i j Hij. apply Hg in Hij. congruence.
      * intros i y Hy. by apply (Hnd (S i)).
      * intros i y s Hs. by apply (Hfst (S i) y).
Qed.

Lemma NoDup_matching (i : nat) (event : Event) (subs : Subscriptions) :
  NoDup subs.*1 ->
  NoDup (omap (fun '(sid, filters) =>
                 if existsb (fun filter => broadcastable filter event) filters
                 then Some (i, EVENT sid event)
                 else None) subs).
Proof.
  induction subs as [|[sid fs] subs IH]; simpl; intros Hnd;
    [apply NoDup_nil_2|].
  apply NoDup_cons in Hnd as [Hsid Hnd].
  destruct (existsb (fun filter => broadcastable filter event) fs);
    [|by apply IH].
  apply NoDup_cons. split; [|by apply IH].
  intros Hin. apply list_elem_of_omap in Hin as ([sid' fs'] & Hin & Heq).
  destruct (existsb (fun filter => broadcastable filter event) fs');
    [|discriminate].
  injection Heq as ->. apply Hsid.
  apply list_elem_of_fmap. by exists (sid, fs').
Qed.

(** The answer to a submitted event holds no frame twice: an accepted
    event goes to every matching subscription once. The number of frames is
    bounded by the sockets and the subscription cap. *)
Theorem broadcast_sends_once_and_is_bounded
    (event : Event) (ctx : DurableObjectState) (env : Bindings) (ws : nat)
    (now : Z) (uuid : string) :
  within_limits ctx ->
  0 <= max_subscriptions (limitation config) ->
  let r := EventMessageHandler_handle event ctx env ws now uuid in
  NoDup r.2
  /\ Z.of_nat (length r.2)
     <= 2 + Z.of_nat (length (webSockets ctx))
            * max_subscriptions (limitation config).
Proof.
  intros Hlim Hmax r.
  assert (Hnd : NoDup (broadcast ctx event)).
  { unfold broadcast. apply (NoDup_concat_imap _ (fun i => i)); [done| |].
    - intros i c _.
      destruct (storage ctx !! conn_id c) as [subs|] eqn:Hsubs;
        [|apply NoDup_nil_2].
      apply NoDup_matching. by destruct (Hlim _ _ Hsubs) as [? _].
    - intros i c s Hs.
      destruct (storage ctx !! conn_id c) as [subs|];
        [|by apply not_elem_of_nil in Hs].
      apply list_elem_of_omap in Hs as ([sid fs] & _ & Heq).
      destruct (existsb (fun filter => broadcastable filter event) fs);
        [|discriminate].
      by injection Heq as <-. }
  assert (Hlen : (length (broadcast ctx event)
                  <= length (webSockets ctx)
                     * Z.to_nat (max_subscriptions (limitation config)))%nat).
  { unfold broadcast. apply concat_imap_length. intros i c _.
    destruct (storage ctx !! conn_id c) as [subs|] eqn:Hsubs; simpl; [|lia].
    destruct (Hlim _ _ Hsubs) as (_ & Hle & _).
    etrans; [apply omap_length_le|]. lia. }
  subst r. unfold EventMessageHandler_handle.
  destruct (negb (verifyEvent event)); simpl.
  { split; [apply NoDup_singleton|nia]. }
  destruct (webSockets ctx !! ws) as [connection|]; simpl.
  2:{ split; [apply NoDup_nil_2|nia]. }
  destruct (needs_auth connection event); simpl.
  { split; [|nia]. apply NoDup_cons. split; [|apply NoDup_singleton].
    intros Hin. by apply list_elem_of_singleton in Hin. }
  destruct (store_event env event (ipAddress connection) now); simpl.
  - split; [|nia]. apply NoDup_cons. split; [|done].
    intros Hin. by apply broadcast_only_EVENT in Hin.
  - split; [apply NoDup_singleton|nia].
Qed.

(** ** The relay object: connecting, maintenance, pruning *)

Lemma received_app ws (a b : list Sent) :
  received ws (a ++ b) = received ws a ++ received ws b.
Proof. unfold received. by rewrite List.filter_app, map_app. Qed.

Lemma received_concat_imap {A} (F : nat -> A -> list Sent) (g : nat -> nat)
    (l : list A) (i : nat) (c : A) :
  (forall a b, g a = g b -> a = b) ->
  (forall j x s, s ∈ F j x -> s.1 = g j) ->
  l !! i = Some c ->
  received (g i) (concat (imap F l)) = map snd (F i c).
Proof.
  revert F g i. induction l as [|x l IH]; intros F g i Hg Hfst Hi; [done|].
  simpl. rewrite received_app. destruct i as [|i]; simpl in Hi.
  - injection Hi as ->.
    assert (Hrest : received (g 0%nat) (concat (imap (F ∘ S) l)) = []).
    { unfold received. rewrite filter_nil_of_forall; [done|].
      intros s Hs. apply elem_of_concat in Hs as (piece & Hpiece & Hs).
      apply elem_of_lookup_imap in Hpiece as (j & y & -> & _).
      apply (Hfst (S j)) in Hs. apply Nat.eqb_neq. rewrite Hs.
      intros Heq. by apply Hg in Heq. }
    rewrite Hrest, app_nil_r. unfold received. rewrite filter_all; [done|].
    intros s Hs. apply Hfst in Hs. by apply Nat.eqb_eq.
  - assert (Hhead : received (g (S i)) (F 0%nat x) = []).
    { unfold received. rewrite filter_nil_of_forall; [done|].
      intros s Hs. apply Hfst in Hs. apply Nat.eqb_neq. rewrite Hs.
      intros Heq. by apply Hg in Heq. }
    rewrite Hhead. simpl. apply (IH (F ∘ S) (g ∘ S)); [| |done].
    + intros a b Hab. apply Hg in Hab. congruence.
    + intros j y s Hs. by apply (Hfst (S j) y).
Qed.

(** Turning maintenance on empties the registry, so that nothing is
    broadcast any more, closes every socket, and tells every client first
    that each of its subscriptions is closed, in their order, and last that
    it is disconnected. *)
Theorem maintenance_notifies_and_closes_every_socket
    (ctx : DurableObjectState) (i : nat) (c : Connection) :
  webSockets ctx !! i = Some c ->
  let m := Relay_enableMaintenance ctx in
  received i m.1.2
  = map (fun entry => CLOSED entry.1 "error: closed due to maintenance")
        (default [] (storage ctx !! conn_id c))
    ++ [NOTICE "disconnected due to maintenance"]
  /\ i ∈ m.2
  /\ length m.2 = length (webSockets ctx)
  /\ storage m.1.1 = ∅
  /\ forall event, broadcast m.1.1 event = [].
Proof.
  intros Hi m. subst m. unfold Relay_enableMaintenance. simpl.
  split; [|split; [|split; [|split; [done|]]]].
  - rewrite (received_concat_imap _ (fun j => j) _ i c); [| done | | done].
    + rewrite map_app. simpl. f_equal.
      destruct (storage ctx !! conn_id c) as [subs|]; [|done]. simpl.
      induction subs as [|[sid fs] subs IH]; simpl; [done|]. by rewrite IH.
    + intros j x s Hs. apply elem_of_app in Hs as [Hs|Hs].
      * destruct (storage ctx !! conn_id x) as [subs|];
          [|by apply not_elem_of_nil in Hs].
        apply elem_of_concat in Hs as (piece & Hpiece & Hs).
        apply list_elem_of_fmap in Hpiece as (entry & -> & _).
        by apply list_elem_of_singleton in Hs as ->.
      * by apply list_elem_of_singleton in Hs as ->.
  - apply elem_of_lookup_imap. by exists i, c.
  - apply length_imap.
  - intros event. unfold broadcast. simpl. clear Hi.
    induction (webSockets ctx) as [|x l IH] using rev_ind; [done|].
    rewrite imap_app, concat_app, IH. simpl. by rewrite lookup_empty.
Qed.

(** While maintenance is on, every connection attempt is refused with
    status 503 and a retry delay of an hour, and leaves no trace; once
    maintenance is turned off, connections are accepted again, on a
    registry that starts empty. *)
Theorem maintenance_refuses_connections
    (ctx : DurableObjectState) (request_url : string)
    (ip : option string) (connectionId uuid : string) (now : Z) :
  let down := (Relay_enableMaintenance ctx).1.1 in
  let up := Relay_disableMaintenance down in
  Relay_fetch down request_url ip connectionId uuid now
  = (down, {| status := 503; retry_after := Some "3600"; webSocket := None |}, [])
  /\ status (Relay_fetch up request_url ip connectionId uuid now).1.2 = 101
  /\ is_Some (webSocket (Relay_fetch up request_url ip connectionId uuid now).1.2)
  /\ storage (Relay_fetch up request_url ip connectionId uuid now).1.1 = ∅.
Proof.
  intros down up. subst down up.
  unfold Relay_fetch, Relay_disableMaintenance, Relay_enableMaintenance,
    in_maintenance. simpl.
  split; [done|].
  destruct (auth_required (limitation config)); simpl; repeat split; eauto.
Qed.

Lemma fetch_state ctx request_url ip connectionId uuid now :
  in_maintenance ctx = false ->
  let r := Relay_fetch ctx request_url ip connectionId uuid now in
  let c :=
    {| conn_id := connectionId;
       ipAddress := ip;
       url := convertToWebSocketUrl request_url;
       auth := if auth_required (limitation config)
               then Some (mkSession uuid now) else None;
       pubkeys := ∅ |} in
  r = ({| webSockets := webSockets ctx ++ [c];
          storage := storage ctx;
          maintenance := maintenance ctx |},
       {| status := 101; retry_after := None;
          webSocket := Some (length (webSockets ctx)) |},
       if auth_required (limitation config)
       then [(length (webSockets ctx), AUTH uuid)] else []).
Proof.
  intros Hup. unfold Relay_fetch. rewrite Hup.
  by destruct (auth_required (limitation config)).
Qed.

(** A connection starts unauthenticated: it is accepted as a new socket
    after the existing ones, with no authorized pubkey and no
    subscriptions of its own, and it is sent a challenge at once exactly
    when the relay requires authentication. Whenever the write policy
    applies to a valid event, the first submission on the new socket is
    answered with a challenge and a refusal, and stores nothing. *)
Theorem new_connection_is_unauthenticated
    (ctx : DurableObjectState) (request_url : string) (ip : option string)
    (connectionId uuid : string) (now : Z) :
  in_maintenance ctx = false ->
  let r := Relay_fetch ctx request_url ip connectionId uuid now in
  let server := length (webSockets ctx) in
  status r.1.2 = 101
  /\ webSocket r.1.2 = Some server
  /\ r.2 = (if auth_required (limitation config)
            then [(server, AUTH uuid)] else [])
  /\ storage r.1.1 = storage ctx
  /\ (forall i c, webSockets ctx !! i = Some c ->
        webSockets r.1.1 !! i = Some c)
  /\ (exists c,
        webSockets r.1.1 !! server = Some c
        /\ conn_id c = connectionId
        /\ pubkeys c = ∅
        /\ (is_undefined (auth c) = negb (auth_required (limitation config))))
  /\ forall event env now' uuid',
       verifyEvent event = true ->
       auth_required (limitation config)
       || restricted_writes (limitation config)
       || isProtected event = true ->
       let r' := EventMessageHandler_handle event r.1.1 env server now' uuid' in
       r'.1.2 = env
       /\ r'.2 = [(server, AUTH uuid');
                  (server, OK (id event) false
                     ("auth-required: " +:+
                      (if isProtected event
                       then "this event may only be published by its author"
                       else "we only accept events from registered users")))].
Proof.
  intros Hup r server. subst r server.
  rewrite (fetch_state _ _ _ _ _ _ Hup). cbn [fst snd status webSocket
    webSockets storage].
  split; [done|]. split; [done|]. split; [done|]. split; [done|].
  split; [|split].
  - intros i c Hi. by apply lookup_app_l_Some.
  - eexists. split; [apply list_lookup_middle; done|].
    cbn [conn_id pubkeys auth]. split; [done|]. split; [done|].
    by destruct (auth_required (limitation config)).
  - intros event env now' uuid' Hvalid Hpolicy. cbv zeta.
    unfold EventMessageHandler_handle. rewrite Hvalid. cbn [negb].
    cbn [webSockets]. rewrite list_lookup_middle by done.
    unfold needs_auth. cbn [pubkeys auth]. rewrite Hpolicy.
    assert (Hhas : has ∅ (pubkey event) = false).
    { unfold has. by apply bool_decide_eq_false_2, not_elem_of_empty. }
    rewrite Hhas, orb_true_r. simpl. done.
Qed.

(** Under [auth_required] the challenge sent at connect time can be
    answered at once: an AUTH event of kind 22242 that echoes it and the
    URL of the relay, before it expires and for a registered account, is
    acknowledged, and the pubkey may then publish on the new socket. The
    sockets that were there before are not touched. *)
Theorem connect_then_authenticate
    (ctx : DurableObjectState) (request_url : string) (ip : option string)
    (connectionId uuid : string) (now1 now2 : Z) (a : Event)
    (relay u : string) :
  in_maintenance ctx = false ->
  auth_required (limitation config) = true ->
  kind a = 22242 ->
  find_tag "challenge" a = Some uuid ->
  find_tag "relay" a = Some relay ->
  normalizeURL relay = Some u ->
  normalizeURL (convertToWebSocketUrl request_url) = Some u ->
  now2 <= now1 + auth_timeout config * 1000 ->
  0 < auth_limit config ->
  Account_exists (pubkey a) = true ->
  let r := Relay_fetch ctx request_url ip connectionId uuid now1 in
  let server := length (webSockets ctx) in
  r.2 = [(server, AUTH uuid)]
  /\ exists ctx2 connection2,
       AuthMessageHandler_handle a r.1.1 server now2
       = Some (ctx2, [(server, OK (id a) true "")])
       /\ webSockets ctx2 !! server = Some connection2
       /\ pubkeys connection2 = {[pubkey a]}
       /\ (forall i c, webSockets ctx !! i = Some c ->
             webSockets ctx2 !! i = Some c)
       /\ storage ctx2 = storage ctx
       /\ forall event, pubkey event = pubkey a ->
            needs_auth connection2 event = false.
Proof.
  intros Hup Hreq Hkind Hchallenge Hrelay Hn1 Hn2 Htime Hcap Hacc r server.
  subst r server. rewrite (fetch_state _ _ _ _ _ _ Hup), Hreq.
  cbn [fst snd]. split; [done|].
  set (c := {| conn_id := connectionId; ipAddress := ip;
               url := convertToWebSocketUrl request_url;
               auth := Some (mkSession uuid now1); pubkeys := ∅ |}).
  set (ctx1 := {| webSockets := webSockets ctx ++ [c];
                  storage := storage ctx; maintenance := maintenance ctx |}).
  assert (Hc : webSockets ctx1 !! length (webSockets ctx) = Some c)
    by (by apply list_lookup_middle).
  assert (Hgranted : auth_granted c a now2).
  { unfold auth_granted. cbn [c pubkeys auth url]. split; [|split].
    - by rewrite size_empty.
    - exists (mkSession uuid now1). cbn [challenge challengedAt].
      repeat split; try done. by exists relay, u.
    - done. }
  assert (Hnot : pubkey a ∉ pubkeys c) by apply not_elem_of_empty.
  eexists _, (with_pubkey c (pubkey a)).
  split; [apply (auth_granted_handle a ctx1 _ now2 c Hc Hnot Hgranted)|].
  cbn [webSockets storage ctx1].
  split; [|split; [|split; [|split; [done|]]]].
  - apply list_lookup_insert_eq. rewrite length_app. simpl. lia.
  - unfold with_pubkey. cbn [pubkeys c]. apply union_empty_r_L.
  - intros i c' Hi.
    rewrite list_lookup_insert_ne
      by (apply lookup_lt_Some in Hi; lia).
    by apply lookup_app_l_Some.
  - intros event Hpk. unfold needs_auth, with_pubkey, is_undefined.
    cbn [pubkeys auth c]. rewrite Hpk.
    assert (Hhas : has ({[pubkey a]} ∪ ∅) (pubkey a) = true).
    { unfold has. apply bool_decide_eq_true_2.
      by apply elem_of_union_l, elem_of_singleton. }
    by rewrite Hhas.
Qed.

(** *** prune and webSocketClose *)

Lemma List_filter_filter {A} (p : A -> bool) (l : list A) :
  List.filter p l = base.filter (fun x => p x = true) l.
Proof.
  induction l as [|x l IH]; simpl; [done|].
  rewrite filter_cons, IH. destruct (p x); by destruct (decide _).
Qed.

Lemma prune_targets_spec ctx key :
  key ∈ prune_targets ctx ->
  is_Some (storage ctx !! key) /\ key ∉ connection_ids ctx.
Proof.
  unfold prune_targets. intros Hin.
  apply elem_of_list_filter in Hin as [Hin Hdead].
  apply elem_of_list_filter in Hin as [Hin Hkey].
  apply negb_true_iff in Hdead, Hkey.
  apply includes_false in Hdead. apply String.eqb_neq in Hkey.
  split; [|done].
  apply (subseteq_take 2000) in Hin. unfold storage_keys in Hin.
  apply sort_by_elem_of, elem_of_app in Hin as [Hin|Hin].
  - apply list_elem_of_fmap in Hin as ([k subs] & -> & Hin).
    apply elem_of_map_to_list in Hin. by exists subs.
  - destruct (maintenance ctx); [|by apply not_elem_of_nil in Hin].
    by apply list_elem_of_singleton in Hin.
Qed.

Lemma prune_targets_NoDup ctx : NoDup (prune_targets ctx).
Proof.
  unfold prune_targets. rewrite !List_filter_filter.
  apply NoDup_filter.
  set (P := fun key : string => negb (String.eqb key "maintenance") = true).
  assert (Hsub : base.filter P (take 2000 (storage_keys ctx))
                 `sublist_of` base.filter P (take 2000 (storage_keys ctx)
                                             ++ drop 2000 (storage_keys ctx))).
  { rewrite filter_app. by apply sublist_inserts_r. }
  eapply sublist_NoDup; [|exact Hsub].
  rewrite take_drop. unfold storage_keys. rewrite sort_by_perm, filter_app.
  assert (Hm : base.filter P
                 match maintenance ctx with
                 | Some _ => ["maintenance"]
                 | None => []
                 end = []) by by destruct (maintenance ctx).
  rewrite Hm, app_nil_r. apply NoDup_filter, NoDup_fst_map_to_list.
Qed.

Lemma size_fold_delete {V} (keys : list string) (m : gmap string V) :
  NoDup keys ->
  (forall k, k ∈ keys -> is_Some (m !! k)) ->
  (size (fold_left (fun st key => base.delete key st) keys m) + length keys
   = size m)%nat.
Proof.
  revert m. induction keys as [|k keys IH]; intros m Hnd Hin; simpl; [lia|].
  apply NoDup_cons in Hnd as [Hk Hnd].
  assert (Hrest : forall k', k' ∈ keys -> is_Some (base.delete k m !! k')).
  { intros k' Hk'. rewrite lookup_delete_ne by (by intros ->).
    by apply Hin, list_elem_of_further. }
  pose proof (IH (base.delete k m) Hnd Hrest) as Hsize.
  rewrite map_size_delete_Some in Hsize by apply Hin, list_elem_of_here.
  assert (size m <> 0%nat); [|lia].
  destruct (Hin k (list_elem_of_here _ _)) as [v Hv].
  intros Hz. apply map_size_empty_inv in Hz. by rewrite Hz in Hv.
Qed.

(** Pruning removes entries of the registry that belong to no live
    connection, and nothing else: the entries of the live connections
    stay, no entry is added or changed, the returned count is the number
    of entries removed, and every broadcast reaches the same subscriptions
    as before. When the registry has at most 2000 keys, no entry of a dead
    connection is left. *)
Theorem prune_removes_only_dead_entries (ctx : DurableObjectState) :
  let p := Relay_prune ctx in
  webSockets p.1 = webSockets ctx
  /\ maintenance p.1 = maintenance ctx
  /\ (forall key, key ∈ connection_ids ctx ->
        storage p.1 !! key = storage ctx !! key)
  /\ (forall key subs, storage p.1 !! key = Some subs ->
        storage ctx !! key = Some subs)
  /\ (size (storage p.1) + p.2 = size (storage ctx))%nat
  /\ (forall event, broadcast p.1 event = broadcast ctx event)
  /\ ((length (storage_keys ctx) <= 2000)%nat ->
      forall key, is_Some (storage p.1 !! key) ->
        key ∈ connection_ids ctx \/ key = "maintenance").
Proof.
  intros p. subst p. unfold Relay_prune. cbn [fst snd webSockets storage
    maintenance].
  assert (Hlive : forall key, key ∈ connection_ids ctx ->
            fold_left (fun st key => base.delete key st) (prune_targets ctx)
                      (storage ctx) !! key = storage ctx !! key).
  { intros key Hkey. rewrite lookup_fold_delete.
    destruct (includes key (prune_targets ctx)) eqn:E; [|done].
    apply includes_true, prune_targets_spec in E as [_ Hdead]. done. }
  split; [done|]. split; [done|]. split; [done|].
  split; [|split; [|split]].
  - intros key subs. rewrite lookup_fold_delete.
    by destruct (includes key (prune_targets ctx)).
  - apply size_fold_delete; [apply prune_targets_NoDup|].
    intros k Hk. by apply prune_targets_spec in Hk as [? _].
  - intros event. unfold broadcast. cbn [webSockets storage]. f_equal.
    apply imap_ext. intros i c Hc. cbn beta.
    rewrite Hlive; [done|].
    apply list_elem_of_fmap. exists c. split; [done|].
    by apply list_elem_of_lookup_2 in Hc.
  - intros Hsmall key. rewrite lookup_fold_delete.
    destruct (includes key (prune_targets ctx)) eqn:E;
      [by intros [? ?]|].
    intros [subs Hsubs]. apply includes_false in E.
    destruct (decide (key = "maintenance")) as [?|Hne]; [by right|]. left.
    destruct (includes key (connection_ids ctx)) eqn:Elive;
      [by apply includes_true|].
    exfalso. apply E. unfold prune_targets.
    apply elem_of_list_filter. split; [|by rewrite Elive].
    apply elem_of_list_filter. split; [|by apply negb_true_iff, String.eqb_neq].
    rewrite firstn_all2 by done. unfold storage_keys.
    apply sort_by_elem_of, elem_of_app. left.
    apply list_elem_of_fmap. exists (key, subs). split; [done|].
    by apply elem_of_map_to_list.
Qed.

(** Once its socket is closed, a connection has no entry in the registry
    and nothing is broadcast to its socket any more. The connections with
    another id are served as before, and the registry keeps its shape. *)
Theorem closed_socket_is_no_longer_served
    (ctx : DurableObjectState) (ws : nat) (connection : Connection)
    (event : Event) :
  webSockets ctx !! ws = Some connection ->
  let ctx1 := Relay_webSocketClose ctx ws in
  storage ctx1 !! conn_id connection = None
  /\ (forall key, key <> conn_id connection ->
        storage ctx1 !! key = storage ctx !! key)
  /\ (forall f, (ws, f) ∉ broadcast ctx1 event)
  /\ (forall i c f,
        webSockets ctx !! i = Some c ->
        conn_id c <> conn_id connection ->
        ((i, f) ∈ broadcast ctx1 event <-> (i, f) ∈ broadcast ctx event))
  /\ (within_limits ctx -> within_limits ctx1).
Proof.
  intros Hws ctx1. subst ctx1. unfold Relay_webSocketClose. rewrite Hws.
  split; [apply lookup_delete_eq|].
  split; [by intros key Hne; apply lookup_delete_ne|].
  split; [|split].
  - intros f Hin. apply elem_of_broadcast in Hin
      as (c & subs & sid & filters & Hc & Hsubs & _).
    cbn [webSockets storage] in Hc, Hsubs.
    rewrite Hws in Hc. injection Hc as <-.
    by rewrite lookup_delete_eq in Hsubs.
  - intros i c f Hc Hne. rewrite !elem_of_broadcast.
    cbn [webSockets storage].
    split; intros (c' & subs & sid & filters & Hc' & Hsubs & Hrest);
      exists c', subs, sid, filters; (split; [done|]); (split; [|done]);
      assert (c' = c) as -> by congruence.
    + by rewrite lookup_delete_ne in Hsubs.
    + by rewrite lookup_delete_ne.
  - intros Hlim key subs Hsubs. cbn [storage] in Hsubs.
    destruct (decide (key = conn_id connection)) as [->|Hne].
    + by rewrite lookup_delete_eq in Hsubs.
    + rewrite lookup_delete_ne in Hsubs by done. by apply (Hlim key).
Qed.

(** *** metrics *)

Lemma fold_left_add (l : list nat) (a : nat) :
  fold_left Nat.add l a = (a + fold_left Nat.add l 0)%nat.
Proof.
  revert a. induction l as [|x l IH]; intros a; simpl; [lia|].
  rewrite (IH (a + x)%nat), (IH x). lia.
Qed.

Lemma sum_nat_cons x l : sum_nat (x :: l) = (x + sum_nat l)%nat.
Proof. unfold sum_nat. simpl. apply fold_left_add. Qed.

Lemma sum_nat_app l k : sum_nat (l ++ k) = (sum_nat l + sum_nat k)%nat.
Proof.
  induction l as [|x l IH]; simpl; [done|].
  rewrite !sum_nat_cons, IH. lia.
Qed.

Lemma sum_nat_bound (l : list nat) (M : Z) :
  (forall x, x ∈ l -> Z.of_nat x <= M) ->
  Z.of_nat (sum_nat l) <= Z.of_nat (length l) * M.
Proof.
  induction l as [|x l IH]; intros H; [done|].
  rewrite sum_nat_cons. simpl length.
  pose proof (H x (list_elem_of_here _ _)).
  pose proof (IH (fun y Hy => H y (list_elem_of_further _ _ _ Hy))).
  rewrite Nat2Z.inj_add, Nat2Z.inj_succ, Z.mul_succ_l. lia.
Qed.

Lemma omap_length_filter {A B} (f : A -> option B) (p : A -> bool) l :
  (forall x, p x = false -> f x = None) ->
  (length (omap f l) <= length (List.filter p l))%nat.
Proof.
  intros H. induction l as [|x l IH]; simpl; [done|].
  destruct (p x) eqn:E.
  - destruct (f x); cbn [length];
      [apply le_n_S | apply Nat.le_le_succ_r]; apply IH.
  - by rewrite (H x E).
Qed.

(** The metrics count what is live: as many connections as there are
    sockets, and of the registry only the entries of live connections, so
    that the subscriptions stay within [max_subscriptions] per connection
    and the filters within [max_filters] per subscription. *)
Theorem metrics_stay_within_the_caps (ctx : DurableObjectState) :
  within_limits ctx ->
  0 <= max_subscriptions (limitation config) ->
  "maintenance" ∉ connection_ids ctx ->
  let m := Relay_metrics ctx in
  connections m = length (webSockets ctx)
  /\ Z.of_nat (subscriptions m)
     <= Z.of_nat (connections m) * max_subscriptions (limitation config)
  /\ Z.of_nat (filters m)
     <= Z.of_nat (subscriptions m) * max_filters (limitation config).
Proof.
  intros Hlim Hmax Hids m. subst m. unfold Relay_metrics.
  cbn [connections subscriptions filters].
  set (f := fun connectionId =>
              if includes connectionId (connection_ids ctx)
              then storage ctx !! connectionId else None).
  set (L := omap f (storage_keys ctx)).
  assert (Hin : forall s, s ∈ L -> exists key, storage ctx !! key = Some s).
  { intros s Hs. apply list_elem_of_omap in Hs as (key & _ & Hkey).
    exists key. unfold f in Hkey.
    by destruct (includes key (connection_ids ctx)). }
  assert (Hlen : (length L <= length (connection_ids ctx))%nat).
  { unfold L, storage_keys. rewrite sort_by_perm, omap_app, length_app.
    assert (Hm : omap f match maintenance ctx with
                        | Some _ => ["maintenance"]
                        | None => []
                        end = []).
    { destruct (maintenance ctx); [|done]. simpl. unfold f.
      apply includes_false in Hids. by rewrite Hids. }
    rewrite Hm. simpl. rewrite Nat.add_0_r.
    etrans; [apply (omap_length_filter f
                      (fun key => includes key (connection_ids ctx)))|].
    { intros key E. unfold f. by rewrite E. }
    apply submseteq_length, NoDup_submseteq.
    - rewrite List_filter_filter. apply NoDup_filter, NoDup_fst_map_to_list.
    - intros key Hkey. apply elem_of_list_filter in Hkey as [_ Hkey].
      by apply includes_true. }
  split; [by unfold connection_ids; rewrite length_map|].
  split.
  - assert (Hsum : Z.of_nat (sum_nat (map (fun s : Subscriptions => length s) L))
                   <= Z.of_nat (length (map (fun s : Subscriptions => length s) L))
                      * max_subscriptions (limitation config)).
    { apply sum_nat_bound. intros x Hx.
      apply list_elem_of_fmap in Hx as (s & -> & Hs).
      destruct (Hin s Hs) as (key & Hkey).
      by destruct (Hlim _ _ Hkey) as (_ & ? & _). }
    rewrite length_map in Hsum. nia.
  - clear Hlen. induction L as [|s L IH]; [done|].
    cbn [map concat]. rewrite sum_nat_app, sum_nat_cons.
    assert (Hs : Z.of_nat (sum_nat (map (fun entry : string * list Filter =>
                                           length entry.2) s))
                 <= Z.of_nat (length s) * max_filters (limitation config)).
    { destruct (Hin s (list_elem_of_here _ _)) as (key & Hkey).
      destruct (Hlim _ _ Hkey) as (_ & _ & Hfs).
      rewrite <- (length_map (fun entry : string * list Filter => length entry.2) s).
      apply sum_nat_bound. intros x Hx.
      apply list_elem_of_fmap in Hx as ([sid fs] & -> & Hentry).
      by apply (Hfs sid). }
    pose proof (IH (fun s' Hs' => Hin s' (list_elem_of_further _ _ _ Hs'))).
    nia.
Qed.

(** * The repository seen through [find] *)

(** ** chunk, and the two paths of [#findByIds] *)

Lemma chunk_piece {A} (l : list A) (size : nat) (c : list A) :
  (0 < size)%nat ->
  c ∈ chunk l size ->
  (0 < length c <= size)%nat /\ c `sublist_of` l.
Proof.
  intros Hpos Hc. unfold chunk in Hc.
  apply list_elem_of_fmap in Hc as (i & -> & Hi).
  apply elem_of_seq in Hi as [_ Hi]. simpl in Hi.
  pose proof (Nat.div_mod_eq (length l + size - 1) size) as Hdm.
  pose proof (Nat.mod_upper_bound (length l + size - 1) size) as Hm.
  unfold slice. rewrite length_firstn, length_skipn. split; [nia|].
  etrans; [apply sublist_take|apply sublist_drop].
Qed.

(** [chunk] cuts an array into consecutive pieces that together are the
    array; no piece is empty and none is longer than the size. *)
Theorem chunk_cuts_into_bounded_pieces {A : Type} (array : list A) (size : nat) :
  (0 < size)%nat ->
  concat (chunk array size) = array
  /\ (forall piece, piece ∈ chunk array size ->
        (0 < length piece <= size)%nat)
  /\ (length array <= length (chunk array size) * size)%nat
  /\ (length (chunk array size) * size < length array + size)%nat.
Proof.
  intros Hpos. split; [by apply chunk_concat|]. split.
  - intros piece Hpiece. by apply (chunk_piece array size).
  - unfold chunk. rewrite length_map, length_seq.
    pose proof (Nat.div_mod_eq (length array + size - 1) size) as Hdm.
    pose proof (Nat.mod_upper_bound (length array + size - 1) size) as Hm.
    split; nia.
Qed.

Lemma unique_acc_NoDup (l acc : list string) :
  NoDup (acc ++ l) ->
  fold_left (fun acc x => if includes x acc then acc else acc ++ [x]) l acc
  = acc ++ l.
Proof.
  revert acc. induction l as [|x l IH]; intros acc Hnd; simpl.
  - by rewrite app_nil_r.
  - assert (Hx : includes x acc = false).
    { apply includes_false. intros Hin.
      apply NoDup_app in Hnd as (_ & Hdisj & _).
      apply (Hdisj x Hin), list_elem_of_here. }
    rewrite Hx, IH; rewrite <- app_assoc; done.
Qed.

Lemma unique_NoDup (l : list string) : NoDup l -> unique l = l.
Proof. intros Hnd. by apply (unique_acc_NoDup l []). Qed.

Lemma slice_all {A} (n : nat) (l : list A) :
  (length l <= n)%nat -> slice 0 n l = l.
Proof.
  intros Hlen. unfold slice. simpl. rewrite Nat.sub_0_r.
  by apply firstn_all2.
Qed.

Lemma omap_concat {A B} (f : A -> option B) (ls : list (list A)) :
  omap f (concat ls) = concat (map (omap f) ls).
Proof.
  induction ls as [|l ls IH]; simpl; [done|]. by rewrite omap_app, IH.
Qed.

Lemma elem_of_findByIds env ids e :
  e ∈ findByIds env ids
  <-> exists k md, k ∈ ids /\ events env !! k = Some (e, md).
Proof.
  assert (Hget : forall (keys : list string),
            e ∈ omap (fun k => fst <$> events env !! k) keys
            <-> exists k md, k ∈ keys /\ events env !! k = Some (e, md)).
  { intros keys. rewrite list_elem_of_omap. split.
    - intros (k & Hk & Hsome).
      destruct (events env !! k) as [[e' md]|] eqn:E; [|done].
      injection Hsome as <-. by exists k, md.
    - intros (k & md & Hk & Hsome). exists k. by rewrite Hsome. }
  unfold findByIds, sortEvents. destruct (LOCAL env); rewrite sort_by_elem_of.
  - apply Hget.
  - rewrite elem_of_concat. split.
    + intros (found & Hfound & He).
      apply list_elem_of_fmap in Hfound as (c & -> & Hc).
      destruct (chunk_piece ids 100 c) as [Hlen Hsub]; [lia|done|].
      unfold bulkGet in He. apply Hget in He as (k & md & Hk & Hsome).
      exists k, md. split; [|done].
      rewrite unique_elem_of, slice_all in Hk by lia.
      eapply elem_of_sublist; [exact Hk|exact Hsub].
    + intros (k & md & Hk & Hsome).
      rewrite <- (chunk_concat ids 100) in Hk by lia.
      apply elem_of_concat in Hk as (c & Hc & Hk).
      exists (bulkGet env (slice 0 100 c)). split.
      * apply list_elem_of_fmap. by exists c.
      * unfold bulkGet. apply Hget. exists k, md. split; [|done].
        destruct (chunk_piece ids 100 c) as [Hlen _]; [lia|done|].
        by rewrite unique_elem_of, slice_all by lia.
Qed.

(** The two ways of fetching events by id, one [get] per id in the local
    environment and bulk reads of a hundred ids through the REST API
    otherwise, find the same events; for ids without repetition they
    return the same list. *)
Theorem findByIds_paths_agree (env env' : Bindings) (ids : list string) :
  events env' = events env ->
  (forall e, e ∈ findByIds env ids <-> e ∈ findByIds env' ids)
  /\ (NoDup ids -> findByIds env ids = findByIds env' ids).
Proof.
  intros Hkv. split.
  - intros e. rewrite !elem_of_findByIds. by rewrite Hkv.
  - intros Hnd.
    assert (Hrest : forall env0 : Bindings,
              concat (map (fun ids' => bulkGet env0 (slice 0 100 ids'))
                          (chunk ids 100))
              = omap (fun i => fst <$> events env0 !! i) ids).
    { intros env0. rewrite <- (chunk_concat ids 100) at 2 by lia.
      rewrite omap_concat. f_equal. apply map_ext_in. intros c Hc.
      apply list_elem_of_In in Hc.
      destruct (chunk_piece ids 100 c) as [Hlen Hsub]; [lia|done|].
      unfold bulkGet. rewrite slice_all by lia.
      rewrite unique_NoDup; [done|]. eapply sublist_NoDup; [exact Hnd|exact Hsub]. }
    unfold findByIds. rewrite !Hrest, Hkv.
    by destruct (LOCAL env), (LOCAL env').
Qed.

(** ** What [find] returns *)

Lemma sql_limit_elem_of {A} (n : Z) (rows : list A) x :
  x ∈ sql_limit n rows -> x ∈ rows.
Proof.
  unfold sql_limit. destruct (n <? 0); [done|]. apply subseteq_take.
Qed.

Lemma sql_limit_all {A} (n : Z) (rows : list A) :
  n < 0 \/ Z.of_nat (length rows) <= n -> sql_limit n rows = rows.
Proof.
  intros Hn. unfold sql_limit. destruct (Z.ltb_spec n 0); [done|].
  apply firstn_all2. lia.
Qed.

Lemma sql_limit_split {A} (n : Z) (rows : list A) :
  exists rest, rows = sql_limit n rows ++ rest.
Proof.
  unfold sql_limit. destruct (n <? 0).
  - exists []. by rewrite app_nil_r.
  - exists (drop (Z.to_nat n) rows). by rewrite take_drop.
Qed.

(** The keys [find] reads from the KV namespace: on the ids-only path the
    requested ids; on the query path the ids of the rows that pass the
    [WHERE] clause when D1 reads the statement as written, and the ids that
    D1 returns otherwise. *)
Definition selects (env : Bindings) (filter : Filter) (k : string) : Prop :=
  if ids_only filter then k ∈ default [] (f_ids filter)
  else if as_written filter then
    exists r, r ∈ DB env /\ row_id r = k /\ where_ filter r = true
  else
    exists ids,
      D1_run (DB env) (query filter) (params filter) = Some ids /\ k ∈ ids.

(** The limit of the query does not cut: the statement is read as written,
    binds at most 100 parameters, and as many rows as pass are allowed. *)
Definition uncut (env : Bindings) (filter : Filter) : Prop :=
  as_written filter = true
  /\ (length (params filter) <= D1_max_bound_parameters)%nat
  /\ (default (default_limit config) (f_limit filter) < 0
      \/ Z.of_nat (length (List.filter (where_ filter) (DB env)))
         <= default (default_limit config) (f_limit filter)).

Lemma find_sound env filter found e :
  find env filter = Some found ->
  e ∈ found ->
  exists k md, events env !! k = Some (e, md) /\ selects env filter k.
Proof.
  unfold find, findByQuery, select_ids, selects. intros Hfound He.
  destruct (ids_only filter).
  - injection Hfound as <-.
    apply elem_of_findByIds in He as (k & md & Hk & Hsome). by exists k, md.
  - destruct (D1_max_bound_parameters <? length (params filter))%nat; [done|].
    destruct (as_written filter).
    + injection Hfound as <-.
      apply elem_of_findByIds in He as (k & md & Hk & Hsome).
      exists k, md. split; [done|].
      apply list_elem_of_fmap in Hk as (r & -> & Hr).
      apply sql_limit_elem_of, sort_by_elem_of, elem_of_list_filter in Hr
        as [Hr Hpass].
      by exists r.
    + destruct (D1_run (DB env) (query filter) (params filter)) as [ids|];
        [|done].
      injection Hfound as <-.
      apply elem_of_findByIds in He as (k & md & Hk & Hsome).
      exists k, md. split; [done|]. by exists ids.
Qed.

Lemma find_complete env filter :
  ids_only filter = true \/ uncut env filter ->
  exists found,
    find env filter = Some found
    /\ forall k e md,
         events env !! k = Some (e, md) -> selects env filter k -> e ∈ found.
Proof.
  unfold find, findByQuery, selects. intros Hroom.
  destruct (ids_only filter).
  - eexists. split; [done|]. intros k e md Hsome Hsel.
    apply elem_of_findByIds. by exists k, md.
  - destruct Hroom as [?|(Hw & Hparams & Hlimit)]; [done|].
    rewrite (select_ids_as_written _ _ Hw), Hw.
    apply Nat.ltb_ge in Hparams. rewrite Hparams. simpl.
    eexists. split; [done|]. intros k e md Hsome (r & Hr & <- & Hpass).
    apply elem_of_findByIds. exists (row_id r), md. split; [|done].
    apply list_elem_of_fmap. exists r. split; [done|].
    rewrite sql_limit_all.
    + apply sort_by_elem_of, elem_of_list_filter. by split.
    + unfold order_by_created_at_desc. by rewrite sort_by_length.
Qed.


(** ** The store the handlers build *)

(** The table and the KV namespace describe the same events: an entry of
    the KV namespace is filed under the id of its event and has the row
    of the event in the table, a row of the table has the entry of its
    event, and no two rows share an id. *)
Definition consistent (env : Bindings) : Prop :=
  (forall k e md, events env !! k = Some (e, md) ->
     id e = k /\ event_row e ∈ DB env)
  /\ (forall r, r ∈ DB env ->
        exists e md, events env !! row_id r = Some (e, md) /\ r = event_row e)
  /\ NoDup (map row_id (DB env)).

Lemma NoDup_map_filter {A B} (f : A -> B) (p : A -> bool) l :
  NoDup (map f l) -> NoDup (map f (List.filter p l)).
Proof.
  induction l as [|x l IH]; simpl; [done|]. intros Hnd.
  apply NoDup_cons in Hnd as [Hx Hnd].
  destruct (p x); simpl; [|by apply IH].
  apply NoDup_cons. split; [|by apply IH].
  intros Hin. apply Hx.
  apply list_elem_of_fmap in Hin as (y & -> & Hy).
  apply elem_of_list_filter in Hy as [Hy _].
  apply list_elem_of_fmap. by exists y.
Qed.

Lemma consistent_save env event ip now :
  consistent env ->
  id event ∉ map row_id (DB env) ->
  consistent (save env event ip now).
Proof.
  intros (Hkv & Hrows & Hnd) Hfresh.
  split; [|split].
  - intros k e md. rewrite events_save, DB_save.
    destruct (decide (k = id event)) as [->|Hne].
    + rewrite lookup_insert_eq. intros [= <- <-]. split; [done|].
      apply elem_of_app. right. apply list_elem_of_here.
    + rewrite lookup_insert_ne by done. intros Hsome.
      destruct (Hkv _ _ _ Hsome) as [? ?]. split; [done|].
      apply elem_of_app. by left.
  - intros r. rewrite events_save, DB_save. intros Hr.
    apply elem_of_app in Hr as [Hr|Hr].
    + destruct (Hrows r Hr) as (e & md & Hsome & ->).
      exists e, md. split; [|done].
      rewrite lookup_insert_ne; [done|].
      intros Heq. apply Hfresh. rewrite Heq.
      apply list_elem_of_fmap. by exists (event_row e).
    + apply list_elem_of_singleton in Hr as ->.
      exists event, (mkMetadata ip now). split; [|done].
      apply lookup_insert_eq.
  - rewrite DB_save, map_app. apply NoDup_app. split; [done|]. split.
    + intros i Hi Hnew. apply list_elem_of_singleton in Hnew as ->. done.
    + apply NoDup_singleton.
Qed.

Lemma consistent_delete env ids :
  consistent env -> consistent (delete env ids).
Proof.
  intros (Hkv & Hrows & Hnd). split; [|split].
  - intros k e md. rewrite delete_events, delete_DB.
    destruct (includes k ids) eqn:E; [done|]. intros Hsome.
    destruct (Hkv _ _ _ Hsome) as [Hid Hrow]. split; [done|].
    apply elem_of_list_filter. split; [done|].
    cbn [event_row row_id]. by rewrite Hid, E.
  - intros r. rewrite delete_DB. intros Hr.
    apply elem_of_list_filter in Hr as [Hr Hkeep].
    destruct (Hrows r Hr) as (e & md & Hsome & ->).
    exists e, md. split; [|done].
    rewrite delete_events. apply negb_true_iff in Hkeep. by rewrite Hkeep.
  - rewrite delete_DB. by apply NoDup_map_filter.
Qed.

Lemma fresh_delete env ids i :
  i ∉ map row_id (DB env) -> i ∉ map row_id (DB (delete env ids)).
Proof.
  intros Hfresh Hin. apply Hfresh. rewrite delete_DB in Hin.
  apply list_elem_of_fmap in Hin as (r & -> & Hr).
  apply elem_of_list_filter in Hr as [Hr _].
  apply list_elem_of_fmap. by exists r.
Qed.

Lemma consistent_saveLatestEvent env event results ip now :
  consistent env ->
  id event ∉ map row_id (DB env) ->
  consistent (saveLatestEvent env event results ip now).
Proof.
  intros Hc Hfresh. unfold saveLatestEvent.
  destruct results as [|latest rest]; [by apply consistent_save|].
  destruct (latest_stands latest event); [done|].
  apply consistent_save; [by apply consistent_delete|by apply fresh_delete].
Qed.

Lemma consistent_store_event env event ip now env' :
  store_event env event ip now = Some env' ->
  consistent env ->
  id event ∉ map row_id (DB env) ->
  consistent env'.
Proof.
  unfold store_event. intros Hstore Hc Hfresh.
  destruct (isReplaceableKind (kind event)).
  { injection Hstore as <-. by apply consistent_saveLatestEvent. }
  destruct (isAddressableKind (kind event)).
  { destruct (negb (has_d_tag event)); [done|].
    injection Hstore as <-. by apply consistent_saveLatestEvent. }
  destruct (negb (isEphemeralKind (kind event))); [|by injection Hstore as <-].
  destruct (kind event =? EventDeletion); injection Hstore as <-.
  - rewrite deleteBy_delete. by apply consistent_delete, consistent_save.
  - by apply consistent_save.
Qed.

(** Handling a submitted event keeps the table and the KV namespace in
    step, whatever the event and whether or not it is accepted, as long as
    its id is not already in the table. *)
Theorem store_stays_consistent
    (event : Event) (ctx : DurableObjectState) (env : Bindings) (ws : nat)
    (now : Z) (uuid : string) :
  consistent env ->
  id event ∉ map row_id (DB env) ->
  consistent (EventMessageHandler_handle event ctx env ws now uuid).1.2.
Proof.
  intros Hc Hfresh. unfold EventMessageHandler_handle.
  destruct (negb (verifyEvent event)); [done|].
  destruct (webSockets ctx !! ws) as [connection|]; [|done].
  destruct (needs_auth connection event); [done|].
  destruct (store_event env event (ipAddress connection) now) as [env'|] eqn:E;
    [|done].
  by apply (consistent_store_event env event (ipAddress connection) now env').
Qed.

Lemma StronglySorted_app_elem_of {A} (R : A -> A -> Prop) l1 l2 x1 x2 :
  StronglySorted R (l1 ++ l2) -> x1 ∈ l1 -> x2 ∈ l2 -> R x1 x2.
Proof.
  induction l1 as [|y l1 IH]; simpl; intros Hs H1 H2.
  - by apply not_elem_of_nil in H1.
  - inversion Hs as [|? ? Hs' Hall]; subst.
    apply elem_of_cons in H1 as [->|H1]; [|by apply IH].
    rewrite Forall_forall in Hall. apply Hall, elem_of_app. by right.
Qed.

Lemma order_by_created_at_desc_sorted rows :
  StronglySorted (fun a b => row_created_at b <= row_created_at a)
                 (order_by_created_at_desc rows).
Proof.
  apply Sorted_StronglySorted; [intros a b c; simpl; lia|].
  unfold order_by_created_at_desc.
  assert (Htotal : forall a b, 0 < order_desc_cmp a b -> order_desc_cmp b a <= 0)
    by (intros a b; unfold order_desc_cmp; lia).
  pose proof (sort_by_sorted order_desc_cmp Htotal rows) as H.
  induction H as [|x l' Hs IH Hhd]; constructor; [done|].
  destruct Hhd as [|y l'' Hxy]; constructor.
  unfold order_desc_cmp in Hxy. lia.
Qed.

(** On a consistent store the limit of a query that D1 reads as written
    cuts off the oldest: a stored event whose row passes the [WHERE] clause
    and which [find] does not return is no more recent than any event that
    [find] returns. *)
Theorem limit_keeps_the_newest
    (env : Bindings) (filter : Filter) (found : list Event) (e e' : Event)
    (k : string) (md : Metadata) :
  consistent env ->
  ids_only filter = false ->
  as_written filter = true ->
  find env filter = Some found ->
  e ∈ found ->
  events env !! k = Some (e', md) ->
  where_ filter (event_row e') = true ->
  e' ∉ found ->
  created_at e' <= created_at e.
Proof.
  intros (Hkv & Hrows & Hnd) Hquery Hw Hfound He He' Hpass Hout.
  destruct (find_query _ _ _ Hquery Hfound) as (ids & Hids & ->).
  rewrite (select_ids_as_written _ _ Hw) in Hids.
  destruct (D1_max_bound_parameters <? length (params filter))%nat; [done|].
  injection Hids as <-.
  set (limit := default (default_limit config) (f_limit filter)) in *.
  set (sorted := order_by_created_at_desc
                   (List.filter (where_ filter) (DB env))) in *.
  apply elem_of_findByIds in He as (i & mdi & Hi & Hsome).
  apply list_elem_of_fmap in Hi as (r & -> & Hr).
  assert (Hre : r = event_row e).
  { destruct (Hrows r) as (e0 & md0 & Hsome0 & ->).
    - by apply sql_limit_elem_of, sort_by_elem_of, elem_of_list_filter in Hr
        as [Hr _].
    - rewrite Hsome0 in Hsome. by injection Hsome as -> _. }
  destruct (Hkv _ _ _ He') as [Hid Hrow'].
  assert (Hin' : event_row e' ∈ sorted).
  { apply sort_by_elem_of, elem_of_list_filter. by split. }
  destruct (sql_limit_split limit sorted) as (rest & Hsplit).
  rewrite Hsplit in Hin'. apply elem_of_app in Hin' as [Hin'|Hin'].
  - exfalso. apply Hout, elem_of_findByIds. exists k, md. split; [|done].
    apply list_elem_of_fmap. exists (event_row e'). by split.
  - pose proof (order_by_created_at_desc_sorted
                  (List.filter (where_ filter) (DB env))) as Hsorted.
    fold sorted in Hsorted. rewrite Hsplit in Hsorted.
    pose proof (StronglySorted_app_elem_of _ _ _ _ _ Hsorted Hr Hin') as Hle.
    by rewrite Hre in Hle.
Qed.

(** ** Publishing, querying and deleting through the handlers *)

(** The event is one the repository keeps: not ephemeral and, for a
    replaceable or addressable kind, not beaten by the version stored as
    the latest. *)
Definition kept (env : Bindings) (event : Event) : bool :=
  if isReplaceableKind (kind event) || isAddressableKind (kind event)
  then match current_latest env event with
       | Some latest => negb (latest_stands latest event)
       | None => true
       end
  else negb (isEphemeralKind (kind event)).

Lemma saveLatestEvent_kept env event results ip now :
  match head results with
  | Some latest => negb (latest_stands latest event)
  | None => true
  end = true ->
  events (saveLatestEvent env event results ip now) !! id event
  = Some (event, mkMetadata ip now)
  /\ event_row event ∈ DB (saveLatestEvent env event results ip now).
Proof.
  unfold saveLatestEvent. destruct results as [|latest rest]; cbn [head].
  - intros _. rewrite events_save, DB_save, lookup_insert_eq.
    split; [done|]. apply elem_of_app. right. apply list_elem_of_here.
  - intros Hwins. apply negb_true_iff in Hwins. rewrite Hwins.
    rewrite events_save, DB_save, lookup_insert_eq.
    split; [done|]. apply elem_of_app. right. apply list_elem_of_here.
Qed.

Lemma store_event_kept env event ip now env' :
  kept env event = true ->
  id event ∉ map row_id (DB env) ->
  store_event env event ip now = Some env' ->
  events env' !! id event = Some (event, mkMetadata ip now)
  /\ event_row event ∈ DB env'.
Proof.
  unfold kept, store_event, current_latest, existing.
  intros Hkept Hfresh Hstore.
  destruct (isReplaceableKind (kind event)); simpl in Hkept.
  { injection Hstore as <-. by apply saveLatestEvent_kept. }
  destruct (isAddressableKind (kind event)); simpl in Hkept.
  { destruct (negb (has_d_tag event)); [done|].
    injection Hstore as <-. by apply saveLatestEvent_kept. }
  rewrite Hkept in Hstore.
  assert (Hsaved : events (save env event ip now) !! id event
                   = Some (event, mkMetadata ip now)
                   /\ event_row event ∈ DB (save env event ip now)).
  { rewrite events_save, DB_save, lookup_insert_eq. split; [done|].
    apply elem_of_app. right. apply list_elem_of_here. }
  destruct (Z.eqb_spec (kind event) EventDeletion) as [Hdel|Hdel];
    injection Hstore as <-; [|done].
  destruct Hsaved as [Hkv Hrow]. rewrite deleteBy_delete.
  assert (Hnot : id event ∉ delete_targets (save env event ip now) event).
  { intros Hin. apply elem_of_delete_targets in Hin
      as (r & Hr & Hid & _ & _ & Hkind).
    rewrite DB_save in Hr. apply elem_of_app in Hr as [Hr|Hr].
    - apply Hfresh. rewrite <- Hid. apply list_elem_of_fmap. by exists r.
    - apply list_elem_of_singleton in Hr as ->. done. }
  apply includes_false in Hnot. split.
  - by rewrite delete_events, Hnot.
  - rewrite delete_DB. apply elem_of_list_filter. split; [done|].
    cbn [event_row row_id]. by rewrite Hnot.
Qed.

(** ** The boundary of the [d] tag *)

(** For an accepted event of an addressable kind. Without any [d] tag it
    is answered [OK false] with the structural reason and nothing changes.
    With the empty string as the value of its [d] tag, the first tag named
    [d], it is answered [OK true] and resolved under the identifier [""]:
    the durable state is untouched; if the newest row filed under its kind,
    pubkey and [""] stands against it the repository is unchanged;
    otherwise the event is stored under its id with its row, the row is
    filed under the same key when the relay indexes [d], and exactly the
    rows and entries with the id of a row filed under that key are
    removed. *)
Theorem addressable_d_tag_boundary
    (event : Event) (ctx : DurableObjectState) (env : Bindings) (ws : nat)
    (now : Z) (uuid : string) (connection : Connection) :
  verifyEvent event = true ->
  webSockets ctx !! ws = Some connection ->
  needs_auth connection event = false ->
  isAddressableKind (kind event) = true ->
  let r := EventMessageHandler_handle event ctx env ws now uuid in
  ((forall t, t ∈ tags event -> at_ t 0 <> Some "d") ->
     r = (ctx, env,
          [(ws, OK (id event) false "invalid: addressable event requires d tag")]))
  /\ (d_tag_value event "" ->
      identifier event = ""
      /\ r.1.1 = ctx
      /\ r.2 = (ws, OK (id event) true "") :: broadcast ctx event
      /\ (kept env event = false -> r.1.2 = env)
      /\ (kept env event = true ->
          events r.1.2 !! id event
          = Some (event, mkMetadata (ipAddress connection) now)
          /\ (tagsFilterRegExp_test "#d" = true ->
              event_row event
              ∈ rows_of_key r.1.2 (kind event) (pubkey event) "")
          /\ (forall r0,
                r0 ∈ DB r.1.2
                <-> r0 = event_row event
                    \/ (r0 ∈ DB env
                        /\ row_id r0
                           ∉ map row_id
                               (rows_of_key env (kind event) (pubkey event) "")))
          /\ (forall k, k <> id event ->
                events r.1.2 !! k
                = if includes k
                       (map row_id
                          (rows_of_key env (kind event) (pubkey event) ""))
                  then None else events env !! k))).
Proof.
  intros Hv Hws Hauth Ha r.
  pose proof (addressable_not_replaceable _ Ha) as Hr.
  split.
  - intros Hnone. unfold r, EventMessageHandler_handle.
    rewrite Hv, Hws, Hauth. simpl. unfold store_event.
    by rewrite Hr, Ha, (has_d_tag_false _ Hnone).
  - intros Hd.
    destruct (d_tag_value_identifier _ _ Hd) as [Hident Hhas].
    set (stored := rows_of_key env (kind event) (pubkey event) "").
    set (results := order_by_created_at_desc stored).
    assert (Hstore : store_event env event (ipAddress connection) now
                     = Some (saveLatestEvent env event results
                               (ipAddress connection) now)).
    { unfold store_event. rewrite Hr, Ha, Hhas. simpl.
      unfold saveAddressableEvent, addressable_query. by rewrite Hident. }
    assert (Hr' : r = (ctx,
                       saveLatestEvent env event results
                         (ipAddress connection) now,
                       (ws, OK (id event) true "") :: broadcast ctx event)).
    { unfold r, EventMessageHandler_handle.
      by rewrite Hv, Hws, Hauth, Hstore. }
    assert (Hkept : kept env event
                    = match head results with
                      | Some latest => negb (latest_stands latest event)
                      | None => true
                      end).
    { unfold kept, current_latest, existing. rewrite Hr, Ha. simpl.
      unfold addressable_query. by rewrite Hident. }
    assert (Hincl : forall k, includes k (map row_id results)
                              = includes k (map row_id stored)).
    { intros k. apply eq_true_iff_eq. rewrite !includes_true.
      rewrite !list_elem_of_fmap.
      split; intros (x & Hx & Hin); exists x; (split; [done|]);
        by apply (sort_by_elem_of order_desc_cmp). }
    rewrite Hr'. cbn [fst snd]. rewrite Hkept.
    split; [done|]. split; [done|]. split; [done|].
    unfold saveLatestEvent.
    destruct results as [|latest rest] eqn:Hresults; cbn [head].
    + split; [done|]. intros _.
      assert (Hnone : stored = []).
      { by apply (sort_by_nil_inv order_desc_cmp). }
      rewrite events_save, DB_save, lookup_insert_eq.
      split; [done|]. split; [|split].
      * intros Hidx. unfold rows_of_key. apply elem_of_list_filter.
        rewrite DB_save. split; [apply elem_of_app; right; apply list_elem_of_here|].
        cbn [event_row row_kind row_pubkey].
        rewrite Z.eqb_refl, String.eqb_refl. simpl.
        destruct Hd as (t & Hfind & Hval).
        apply find_some_elem_of in Hfind as [Ht Hname].
        apply is_str_Some in Hname.
        by apply (event_row_files_tag event t "d" "").
      * intros r0. rewrite Hnone. simpl. rewrite elem_of_app.
        rewrite list_elem_of_singleton. split.
        -- intros [H|H]; [right|by left]. split; [done|].
           apply not_elem_of_nil.
        -- intros [H|[H _]]; [by right|by left].
      * intros k Hk. rewrite Hnone. simpl. by rewrite lookup_insert_ne.
    + destruct (latest_stands latest event); cbn [negb].
      { split; [done|]. done. }
      split; [done|]. intros _.
      rewrite events_save, DB_save, lookup_insert_eq.
      split; [done|]. split; [|split].
      * intros Hidx. unfold rows_of_key. apply elem_of_list_filter.
        rewrite DB_save. split; [apply elem_of_app; right; apply list_elem_of_here|].
        cbn [event_row row_kind row_pubkey].
        rewrite Z.eqb_refl, String.eqb_refl. simpl.
        destruct Hd as (t & Hfind & Hval).
        apply find_some_elem_of in Hfind as [Ht Hname].
        apply is_str_Some in Hname.
        by apply (event_row_files_tag event t "d" "").
      * intros r0. rewrite delete_DB, elem_of_app, elem_of_list_filter.
        rewrite list_elem_of_singleton, negb_true_iff, Hincl.
        rewrite includes_false. split.
        -- intros [[H1 H2]|H]; [by right|by left].
        -- intros [H|[H1 H2]]; [by right|by left].
      * intros k Hk. rewrite lookup_insert_ne by done.
        by rewrite delete_events, Hincl.
Qed.

Lemma accepted_store event ctx env ws now uuid :
  let r := EventMessageHandler_handle event ctx env ws now uuid in
  (ws, OK (id event) true "") ∈ r.2 ->
  exists connection,
    webSockets ctx !! ws = Some connection
    /\ store_event env event (ipAddress connection) now = Some r.1.2.
Proof.
  unfold EventMessageHandler_handle.
  destruct (negb (verifyEvent event)); simpl.
  { intros H. by apply list_elem_of_singleton in H. }
  destruct (webSockets ctx !! ws) as [connection|]; simpl.
  2:{ intros H. by apply not_elem_of_nil in H. }
  destruct (needs_auth connection event); simpl.
  { intros H. apply elem_of_cons in H as [H|H]; [done|].
    by apply list_elem_of_singleton in H. }
  destruct (store_event env event (ipAddress connection) now) eqn:E; simpl.
  - intros _. by exists connection.
  - intros H. by apply list_elem_of_singleton in H.
Qed.

Lemma req_sent subscriptionId filters ctx env ws connection results :
  webSockets ctx !! ws = Some connection ->
  req_rejected subscriptionId filters
               (default [] (storage ctx !! conn_id connection)) = false ->
  mapM (find env) filters = Some results ->
  (ReqMessageHandler_handle subscriptionId filters ctx env ws).2
  = Some (map (fun event => (ws, EVENT subscriptionId event))
              (sortEvents (distinct (concat results)))
          ++ [(ws, EOSE subscriptionId)]).
Proof.
  intros Hws. unfold req_rejected, ReqMessageHandler_handle.
  destruct (Z.of_nat (String.length subscriptionId)
            >? max_subid_length (limitation config)); simpl; [done|].
  destruct (Z.of_nat (length filters) >? max_filters (limitation config));
    simpl; [done|].
  destruct (existsb (fun filter => negb (validateFilter filter)) filters);
    simpl; [done|].
  rewrite Hws.
  destruct (Z.of_nat (length (map_set subscriptionId filters
              (default [] (storage ctx !! conn_id connection))))
            >? max_subscriptions (limitation config)); [done|].
  intros _ Hresults. by rewrite Hresults.
Qed.

Lemma req_events_found subscriptionId filters ctx env ws sent i sid e :
  (ReqMessageHandler_handle subscriptionId filters ctx env ws).2 = Some sent ->
  (i, EVENT sid e) ∈ sent ->
  found_by env filters e.
Proof.
  unfold ReqMessageHandler_handle.
  destruct (Z.of_nat (String.length subscriptionId)
            >? max_subid_length (limitation config)); simpl.
  { intros [= <-] H. by apply list_elem_of_singleton in H. }
  destruct (Z.of_nat (length filters) >? max_filters (limitation config));
    simpl.
  { intros [= <-] H. by apply list_elem_of_singleton in H. }
  destruct (existsb (fun filter => negb (validateFilter filter)) filters);
    simpl.
  { intros [= <-] H. by apply list_elem_of_singleton in H. }
  destruct (webSockets ctx !! ws) as [connection|]; simpl.
  2:{ intros [= <-] H. by apply not_elem_of_nil in H. }
  destruct (Z.of_nat (length (map_set subscriptionId filters
              (default [] (storage ctx !! conn_id connection))))
            >? max_subscriptions (limitation config)); simpl.
  { intros [= <-] H. by apply list_elem_of_singleton in H. }
  destruct (mapM (find env) filters) as [results|] eqn:Hresults; simpl;
    [|done].
  intros [= <-] H. apply elem_of_app in H as [H|H];
    [|by apply list_elem_of_singleton in H].
  apply list_elem_of_fmap in H as (e' & Heq & He'). injection Heq as _ _ <-.
  apply sort_by_elem_of in He'.
  destruct (distinct_spec (concat results)) as (_ & Hsub & _).
  apply Hsub in He'.
  by apply (elem_of_concat_mapM _ _ _ _ Hresults) in He'.
Qed.

(** Publish, then query. On a consistent store, an accepted event that
    the repository keeps is sent in answer to every later accepted REQ of
    which no [find] throws and which has a filter that selects it: by its
    id on the ids-only path, or by passing the [WHERE] clause of a
    statement that D1 reads as written and whose limit does not cut the
    result. It is sent as stored, under the subscription id of the REQ. *)
Theorem published_event_is_served
    (event : Event) (ctx : DurableObjectState) (env : Bindings) (ws : nat)
    (now : Z) (uuid : string)
    (subscriptionId : string) (filters : list Filter)
    (ctx' : DurableObjectState) (ws' : nat) (connection' : Connection)
    (filter : Filter) :
  consistent env ->
  id event ∉ map row_id (DB env) ->
  kept env event = true ->
  let r := EventMessageHandler_handle event ctx env ws now uuid in
  (ws, OK (id event) true "") ∈ r.2 ->
  webSockets ctx' !! ws' = Some connection' ->
  req_rejected subscriptionId filters
               (default [] (storage ctx' !! conn_id connection')) = false ->
  (forall f, f ∈ filters -> is_Some (find r.1.2 f)) ->
  filter ∈ filters ->
  (if ids_only filter
   then id event ∈ default [] (f_ids filter)
   else where_ filter (event_row event) = true /\ uncut r.1.2 filter) ->
  exists sent,
    (ReqMessageHandler_handle subscriptionId filters ctx' r.1.2 ws').2
    = Some sent
    /\ (ws', EVENT subscriptionId event) ∈ sent.
Proof.
  intros Hc Hfresh Hkept r Hok Hws' Hacc Hall Hfilter Hsel.
  destruct (accepted_store event ctx env ws now uuid Hok)
    as (connection & Hws & Hstore).
  fold r in Hstore.
  destruct (store_event_kept _ _ _ _ _ Hkept Hfresh Hstore) as [Hkv Hrow].
  assert (Hc' : consistent r.1.2)
    by by apply (consistent_store_event env event (ipAddress connection) now).
  assert (Hfound : exists found,
             find r.1.2 filter = Some found /\ event ∈ found).
  { destruct (find_complete r.1.2 filter) as (found & Hfound & Hcomplete).
    - destruct (ids_only filter); [by left|]. right. by destruct Hsel as [_ ?].
    - exists found. split; [done|].
      apply (Hcomplete (id event) event
                       (mkMetadata (ipAddress connection) now) Hkv).
      unfold selects. destruct (ids_only filter); [done|].
      destruct Hsel as [Hpass (Hw & _)]. rewrite Hw.
      by exists (event_row event). }
  destruct Hfound as (found & Hfound & Hevent).
  assert (Hsome : is_Some (mapM (find r.1.2) filters)).
  { apply mapM_is_Some, Forall_forall. intros f Hf. by apply Hall. }
  destruct Hsome as [results Hresults].
  eexists. split; [apply (req_sent _ _ _ _ _ _ _ Hws' Hacc Hresults)|].
  apply elem_of_app. left. apply list_elem_of_fmap. exists event.
  split; [done|]. apply sort_by_elem_of.
  destruct (distinct_spec (concat results)) as (_ & Hsub & Hcover).
  destruct (Hcover event) as (e' & He' & Hid).
  { apply (elem_of_concat_mapM _ _ _ _ Hresults). by exists filter, found. }
  assert (e' = event) as ->; [|done].
  apply Hsub in He' as He''.
  apply (elem_of_concat_mapM _ _ _ _ Hresults) in He''
    as (filter' & found' & _ & Hfound' & He'').
  destruct (find_sound _ _ _ _ Hfound' He'') as (k & md & Hsome & _).
  destruct Hc' as (Hkeyed & _).
  destruct (Hkeyed _ _ _ Hsome) as [Hk _].
  rewrite <- Hk, Hid, Hkv in Hsome. by injection Hsome as ->.
Qed.

(** Delete, then query. After an accepted deletion event, a stored event
    of the same author that it references, other than a deletion, is
    returned by no [find] and so sent in answer to no REQ. *)
Theorem deleted_event_is_no_longer_served
    (D : Event) (ctx : DurableObjectState) (env : Bindings) (ws : nat)
    (now : Z) (uuid : string) (X : Row) :
  consistent env ->
  id D ∉ map row_id (DB env) ->
  kind D = EventDeletion ->
  X ∈ DB env ->
  references D (row_id X) ->
  hexRegExp_test (row_id X) = true ->
  row_pubkey X = pubkey D ->
  row_kind X <> EventDeletion ->
  let r := EventMessageHandler_handle D ctx env ws now uuid in
  (ws, OK (id D) true "") ∈ r.2 ->
  (forall filter found e,
     find r.1.2 filter = Some found -> e ∈ found -> id e <> row_id X)
  /\ (forall subscriptionId filters ctx' ws' sent i sid e,
        (ReqMessageHandler_handle subscriptionId filters ctx' r.1.2 ws').2
        = Some sent ->
        (i, EVENT sid e) ∈ sent ->
        id e <> row_id X).
Proof.
  intros Hc Hfresh Hkind HX Href Hhex Hpk HkX r Hok.
  destruct (accepted_store D ctx env ws now uuid Hok)
    as (connection & Hws & Hstore).
  fold r in Hstore.
  assert (Hc' : consistent r.1.2)
    by by apply (consistent_store_event env D (ipAddress connection) now).
  assert (Hgone : events r.1.2 !! row_id X = None).
  { unfold store_event in Hstore. rewrite Hkind in Hstore.
    cbn in Hstore. injection Hstore as <-.
    rewrite deleteBy_delete, delete_events.
    assert (Hin : includes (row_id X)
                    (delete_targets (save env D (ipAddress connection) now) D)
                  = true); [|by rewrite Hin].
    apply includes_true, elem_of_delete_targets. exists X.
    split; [rewrite DB_save; apply elem_of_app; by left|].
    split; [done|]. split; [by apply elem_of_referenced_ids|done]. }
  assert (Hfind : forall filter found e,
             find r.1.2 filter = Some found -> e ∈ found -> id e <> row_id X).
  { intros filter found e Hfound He Hid.
    destruct (find_sound _ _ _ _ Hfound He) as (k & md & Hsome & _).
    destruct Hc' as (Hkeyed & _). destruct (Hkeyed _ _ _ Hsome) as [Hk _].
    rewrite <- Hk, Hid, Hgone in Hsome. done. }
  split; [done|].
  intros subscriptionId filters ctx' ws' sent i sid e Hsent He.
  destruct (req_events_found _ _ _ _ _ _ _ _ _ Hsent He)
    as (filter & found & _ & Hfound & Hin).
  by apply (Hfind filter found).
Qed.

(** ** The tag index of a row *)










End Relay.

(** * Examples: the handlers run on the sample relay *)

(** ** Authentication *)

(** Alice, already authorized on socket 0, sends her AUTH event again, long
    after the challenge expired. *)
Lemma auth_duplicate_is_acknowledged_witness :
  webSockets sample_ctx !! 0%nat = Some conn_alice
  /\ pubkey auth_event ∈ pubkeys conn_alice
  /\ AuthMessageHandler_handle defaultConfig sample_normalizeURL
       sample_Account_exists auth_event sample_ctx 0 999999999
     = Some (sample_ctx,
             [(0%nat, OK (id auth_event) true "duplicate: already authenticated")]).
Proof.
  assert (H1 : webSockets sample_ctx !! 0%nat = Some conn_alice) by reflexivity.
  assert (H2 : pubkey auth_event ∈ pubkeys conn_alice)
    by (change (alice ∈ ({[alice]} : gset string)); apply elem_of_singleton; reflexivity).
  split; [exact H1|]. split; [exact H2|].
  exact (auth_duplicate_is_acknowledged defaultConfig sample_normalizeURL
           sample_Account_exists auth_event sample_ctx 0 999999999 conn_alice
           H1 H2).
Defined.

(** One millisecond before the expiry instant and one after it. *)
Lemma auth_challenge_expiry_witness :
  Challenge_validate defaultConfig sample_normalizeURL auth_event
    challenged_at_1000 relay_url 600999 = Some true
  /\ 600999 <= challengedAt challenged_at_1000 + auth_timeout defaultConfig * 1000
  /\ challengedAt challenged_at_1000 + auth_timeout defaultConfig * 1000 < 601001
  /\ Challenge_validate defaultConfig sample_normalizeURL auth_event
       challenged_at_1000 relay_url 601001 = Some false.
Proof.
  assert (Hok : Challenge_validate defaultConfig sample_normalizeURL auth_event
                  challenged_at_1000 relay_url 600999 = Some true)
    by (vm_compute; reflexivity).
  assert (Hlate : challengedAt challenged_at_1000
                  + auth_timeout defaultConfig * 1000 < 601001)
    by (vm_compute; reflexivity).
  split; [exact Hok|]. split; [|split; [exact Hlate|]].
  - exact (proj1 (auth_challenge_expiry defaultConfig sample_normalizeURL
                    sample_Account_exists auth_event challenged_at_1000
                    relay_url 600999) Hok).
  - exact (proj1 (proj2 (auth_challenge_expiry defaultConfig sample_normalizeURL
                           sample_Account_exists auth_event challenged_at_1000
                           relay_url 601001)) Hlate).
Defined.

(** C6, counterexample to the claim as stated: an AUTH event that arrives
    exactly at [challengedAt + timeout], hence not before it, is accepted. *)
Lemma auth_accepted_at_the_expiry_instant :
  Challenge_validate defaultConfig sample_normalizeURL auth_event
    challenged_at_1000 relay_url 601000 = Some true
  /\ ~ (601000 < challengedAt challenged_at_1000
                 + auth_timeout defaultConfig * 1000).
Proof.
  split; [vm_compute; reflexivity|]. vm_compute. discriminate.
Qed.

(** ** Event submissions *)

(** Alice publishes a note. *)
Lemma event_submission_reply_witness :
  webSockets sample_ctx !! 0%nat = Some conn_alice
  /\ sample_verifyEvent note_1 = true
  /\ count_OK 0
       (EventMessageHandler_handle sample_tagsFilterRegExp_test
          sample_hexRegExp_test sample_broadcastable defaultConfig
          sample_verifyEvent note_1 sample_ctx empty_env 0 5000 "uuid-1").2
     = 1%nat.
Proof.
  assert (H1 : webSockets sample_ctx !! 0%nat = Some conn_alice) by reflexivity.
  assert (H2 : sample_verifyEvent note_1 = true) by reflexivity.
  split; [exact H1|]. split; [exact H2|].
  exact (proj1 (proj1 (event_submission_reply sample_tagsFilterRegExp_test
                         sample_hexRegExp_test sample_broadcastable defaultConfig
                         sample_verifyEvent note_1 sample_ctx empty_env 0 5000
                         "uuid-1" conn_alice H1) H2)).
Defined.

(** C2, counterexample to the claim as stated: a submission that fails
    verification is answered with a [NOTICE] frame and receives no [OK]
    frame. *)
Lemma invalid_event_receives_no_OK :
  sample_verifyEvent unsigned_1 = false
  /\ (EventMessageHandler_handle sample_tagsFilterRegExp_test
        sample_hexRegExp_test sample_broadcastable defaultConfig
        sample_verifyEvent unsigned_1 sample_ctx empty_env 0 5000 "uuid-1").2
     = [(0%nat, NOTICE "invalid: event")]
  /\ count_OK 0
       (EventMessageHandler_handle sample_tagsFilterRegExp_test
          sample_hexRegExp_test sample_broadcastable defaultConfig
          sample_verifyEvent unsigned_1 sample_ctx empty_env 0 5000 "uuid-1").2
     <> 1%nat.
Proof.
  split; [reflexivity|]. split; [reflexivity|]. vm_compute. discriminate.
Qed.

(** Alice publishes an ephemeral event; the guest's subscription matches. *)
Lemma ephemeral_event_not_persisted_but_broadcast_witness :
  sample_verifyEvent ephemeral_1 = true
  /\ needs_auth defaultConfig conn_alice ephemeral_1 = false
  /\ isEphemeralKind (kind ephemeral_1) = true
  /\ EventMessageHandler_handle sample_tagsFilterRegExp_test
       sample_hexRegExp_test sample_broadcastable defaultConfig
       sample_verifyEvent ephemeral_1 sample_ctx (holding [note_1]) 0 5000 "uuid-1"
     = (sample_ctx, holding [note_1],
        [(0%nat, OK (id ephemeral_1) true "");
         (1%nat, EVENT "sub1" ephemeral_1)]).
Proof.
  assert (H1 : sample_verifyEvent ephemeral_1 = true) by reflexivity.
  assert (H2 : webSockets sample_ctx !! 0%nat = Some conn_alice) by reflexivity.
  assert (H3 : needs_auth defaultConfig conn_alice ephemeral_1 = false)
    by (vm_compute; reflexivity).
  assert (H4 : isEphemeralKind (kind ephemeral_1) = true) by reflexivity.
  split; [exact H1|]. split; [exact H3|]. split; [exact H4|].
  exact (proj1 (proj2 (ephemeral_event_not_persisted_but_broadcast
                         sample_tagsFilterRegExp_test sample_hexRegExp_test
                         sample_broadcastable defaultConfig sample_verifyEvent
                         ephemeral_1 sample_ctx (holding [note_1]) 0 5000
                         "uuid-1" conn_alice H1 H2 H3 H4))).
Defined.

(** ** Subscription requests and queries *)

Definition sample_handle :=
  EventMessageHandler_handle sample_tagsFilterRegExp_test sample_hexRegExp_test
    sample_broadcastable defaultConfig sample_verifyEvent.

Definition sample_find :=
  find sample_idsFilterKeys sample_hexTagKeys defaultConfig
       sample_names_column sample_D1_run.

Definition sample_req :=
  ReqMessageHandler_handle sample_idsFilterKeys sample_hexTagKeys
    sample_validateFilter defaultConfig sample_names_column sample_D1_run.

(** A filter with one [#t] entry. *)
Definition topic_filter (values : list string) : Filter :=
  mkFilter None None None None None None [("#t", values)].

(** As many distinct topics as asked for. *)
Definition topics (n : nat) : list string :=
  map (fun i => pretty (Z.of_nat i)) (seq 0 n).

(** The guest asks with eleven filters, then with two filters that both find
    the stored note, then for 101 topics. *)
Lemma req_response_contract_witness :
  webSockets sample_ctx !! 1%nat = Some conn_guest
  /\ (exists message,
        (sample_req "subX" (repeat (kinds_filter [1]) 11)
                    sample_ctx (holding [note_1]) 1).2
        = Some [(1%nat, CLOSED "subX" message)])
  /\ (exists backfill,
        (sample_req "sub2" [ids_filter [id note_1]; kinds_filter [1]]
                    sample_ctx (holding [note_1]) 1).2
        = Some (map (fun event => (1%nat, EVENT "sub2" event)) backfill
                ++ [(1%nat, EOSE "sub2")])
        /\ NoDup (map id backfill))
  /\ (sample_req "sub3" [topic_filter (topics 101)]
                 sample_ctx (holding [note_1]) 1).2
     = None.
Proof.
  assert (H1 : webSockets sample_ctx !! 1%nat = Some conn_guest) by reflexivity.
  split; [exact H1|]. split; [|split].
  - apply (proj1 (req_response_contract sample_idsFilterKeys sample_hexTagKeys
                    sample_validateFilter defaultConfig sample_names_column
                    sample_D1_run "subX"
                    (repeat (kinds_filter [1]) 11) sample_ctx
                    (holding [note_1]) 1 conn_guest H1)).
    vm_compute. reflexivity.
  - destruct (proj2 (proj2 (req_response_contract sample_idsFilterKeys
                       sample_hexTagKeys sample_validateFilter defaultConfig
                       sample_names_column sample_D1_run "sub2"
                       [ids_filter [id note_1]; kinds_filter [1]] sample_ctx
                       (holding [note_1]) 1 conn_guest H1)
                     ltac:(vm_compute; reflexivity)))
      as (backfill & Hsent & Hnd & _).
    + intros filter Hin.
      apply elem_of_cons in Hin as [->|Hin]; [by eexists|].
      apply list_elem_of_singleton in Hin as ->. by eexists.
    + exists backfill. split; [exact Hsent|exact Hnd].
  - apply (proj1 (proj2 (req_response_contract sample_idsFilterKeys
                    sample_hexTagKeys sample_validateFilter defaultConfig
                    sample_names_column sample_D1_run "sub3"
                    [topic_filter (topics 101)] sample_ctx
                    (holding [note_1]) 1 conn_guest H1)
                 ltac:(vm_compute; reflexivity))).
    exists (topic_filter (topics 101)).
    split; [apply list_elem_of_here|]. vm_compute. reflexivity.
Defined.




(** C9, the input on which the code departs from the claim. The guest asks
    for the events that carry one of 101 topics. The request passes the
    four checks, so it is not rejected, and the subscription is stored.
    [#findByQuery] binds the 101 values as parameters, one more than D1
    accepts: it logs that and runs the statement all the same, the
    statement is refused and [find] throws. The handler does not catch it:
    the socket is sent neither [CLOSED] nor [EOSE]. This holds whatever
    D1 makes of the statements it accepts. *)
Theorem req_with_101_tag_values_gets_no_answer
    (names_column : string -> bool)
    (D1_run : list Row -> string -> list string -> option (list string)) :
  let filter := topic_filter (topics 101) in
  let r :=
    ReqMessageHandler_handle sample_idsFilterKeys sample_hexTagKeys
      sample_validateFilter defaultConfig names_column D1_run
      "sub3" [filter] sample_ctx (holding [note_1]) 1 in
  webSockets sample_ctx !! 1%nat = Some conn_guest
  /\ sample_validateFilter filter = true
  /\ req_rejected sample_validateFilter defaultConfig "sub3" [filter]
       (default [] (storage sample_ctx !! conn_id conn_guest)) = false
  /\ length (params sample_hexTagKeys filter) = 101%nat
  /\ find sample_idsFilterKeys sample_hexTagKeys defaultConfig names_column
          D1_run (holding [note_1]) filter = None
  /\ storage r.1 !! conn_id conn_guest ≫= map_get "sub3" = Some [filter]
  /\ r.2 = None.
Proof.
  intros filter r.
  split; [reflexivity|]. split; [reflexivity|].
  split; [vm_compute; reflexivity|].
  split; [vm_compute; reflexivity|].
  split; [vm_compute; reflexivity|].
  split; vm_compute; reflexivity.
Qed.

(** ** Replacement *)

(** Alice submits again the profile that is stored. *)
Lemma losing_event_is_noop_success_witness :
  sample_verifyEvent profile_1 = true
  /\ needs_auth defaultConfig conn_alice profile_1 = false
  /\ isReplaceableKind (kind profile_1) = true
  /\ current_latest (holding [profile_1]) profile_1 = Some (plain_row profile_1)
  /\ EventMessageHandler_handle sample_tagsFilterRegExp_test
       sample_hexRegExp_test sample_broadcastable defaultConfig
       sample_verifyEvent profile_1 sample_ctx (holding [profile_1]) 0 5000 "uuid-1"
     = (sample_ctx, holding [profile_1],
        (0%nat, OK (id profile_1) true "")
        :: broadcast sample_broadcastable sample_ctx profile_1).
Proof.
  assert (H1 : sample_verifyEvent profile_1 = true) by reflexivity.
  assert (H2 : webSockets sample_ctx !! 0%nat = Some conn_alice) by reflexivity.
  assert (H3 : needs_auth defaultConfig conn_alice profile_1 = false)
    by (vm_compute; reflexivity).
  assert (H4 : isReplaceableKind (kind profile_1) = true) by reflexivity.
  assert (H5 : current_latest (holding [profile_1]) profile_1
               = Some (plain_row profile_1)) by (vm_compute; reflexivity).
  split; [exact H1|]. split; [exact H3|]. split; [exact H4|]. split; [exact H5|].
  exact (proj2 (losing_event_is_noop_success sample_tagsFilterRegExp_test
                  sample_hexRegExp_test sample_broadcastable defaultConfig
                  sample_verifyEvent profile_1 sample_ctx (holding [profile_1])
                  0 5000 "uuid-1" conn_alice (plain_row profile_1)
                  H1 H2 H3 (or_introl H4) H5
                  (or_introl (conj eq_refl eq_refl)))).
Defined.

Lemma keyed_empty_env q event : keyed q (stored empty_env) event.
Proof.
  split.
  - intros r Hr. by apply not_elem_of_nil in Hr.
  - intros [x Hx]. unfold stored, kv_events, empty_env in Hx. simpl in Hx.
    rewrite fmap_empty, lookup_empty in Hx. discriminate.
Qed.

(** Two profiles of Alice, in both orders. *)
Lemma replaceable_latest_wins_witness :
  kind profile_1 = kind profile_2
  /\ pubkey profile_1 = pubkey profile_2
  /\ winner profile_1 profile_2 = profile_2
  /\ stored (saveReplaceableEvent sample_tagsFilterRegExp_test
              (saveReplaceableEvent sample_tagsFilterRegExp_test empty_env profile_1 None 5000)
              profile_2 None 6000)
     = stored (saveReplaceableEvent sample_tagsFilterRegExp_test
                 (saveReplaceableEvent sample_tagsFilterRegExp_test empty_env profile_2 None 7000)
                 profile_1 None 8000)
  /\ DB (saveReplaceableEvent sample_tagsFilterRegExp_test
           (saveReplaceableEvent sample_tagsFilterRegExp_test empty_env profile_1 None 5000)
           profile_2 None 6000)
     = [plain_row profile_2].
Proof.
  assert (H1 : kind profile_1 = kind profile_2) by reflexivity.
  assert (H2 : pubkey profile_1 = pubkey profile_2) by reflexivity.
  assert (H3 : id profile_1 = id profile_2 -> profile_1 = profile_2)
    by (intros H; vm_compute in H; discriminate).
  pose proof (replaceable_latest_wins sample_tagsFilterRegExp_test empty_env profile_1 profile_2
                None None None None 5000 6000 7000 8000 H1 H2 H3
                (keyed_empty_env _ _) (keyed_empty_env _ _)) as (_ & Hcomm & Hwin).
  split; [exact H1|]. split; [exact H2|]. split; [reflexivity|].
  split; [exact Hcomm|].
  destruct (Hwin eq_refl) as [Hstored _].
  exact (f_equal fst Hstored).
Defined.

(** Two versions of Alice's article with the empty [d] value, in both
    orders. *)
Lemma addressable_latest_wins_witness :
  kind article_empty_d = kind article_empty_d_2
  /\ pubkey article_empty_d = pubkey article_empty_d_2
  /\ d_tag_value article_empty_d "" /\ d_tag_value article_empty_d_2 ""
  /\ sample_tagsFilterRegExp_test "#d" = true
  /\ stored (saveAddressableEvent sample_tagsFilterRegExp_test
              (saveAddressableEvent sample_tagsFilterRegExp_test empty_env
                 article_empty_d None 5000)
              article_empty_d_2 None 6000)
     = stored (saveAddressableEvent sample_tagsFilterRegExp_test
                 (saveAddressableEvent sample_tagsFilterRegExp_test empty_env
                    article_empty_d_2 None 7000)
                 article_empty_d None 8000)
  /\ map row_id
       (DB (saveAddressableEvent sample_tagsFilterRegExp_test
              (saveAddressableEvent sample_tagsFilterRegExp_test empty_env
                 article_empty_d None 5000)
              article_empty_d_2 None 6000))
     = [id article_empty_d_2].
Proof.
  assert (H1 : kind article_empty_d = kind article_empty_d_2) by reflexivity.
  assert (H2 : pubkey article_empty_d = pubkey article_empty_d_2) by reflexivity.
  assert (H3 : d_tag_value article_empty_d "")
    by (exists ["d"; ""]; split; reflexivity).
  assert (H4 : d_tag_value article_empty_d_2 "")
    by (exists ["d"; ""]; split; reflexivity).
  assert (H5 : sample_tagsFilterRegExp_test "#d" = true) by reflexivity.
  assert (H6 : id article_empty_d = id article_empty_d_2
               -> article_empty_d = article_empty_d_2)
    by (intros H; vm_compute in H; discriminate).
  pose proof (addressable_latest_wins sample_tagsFilterRegExp_test empty_env
                article_empty_d article_empty_d_2 ""
                None None None None 5000 6000 7000 8000 H1 H2 H3 H4 H5 H6
                (keyed_empty_env _ _) (keyed_empty_env _ _)) as (_ & Hcomm & Hwin).
  split; [exact H1|]. split; [exact H2|]. split; [exact H3|]. split; [exact H4|].
  split; [exact H5|]. split; [exact Hcomm|].
  destruct (Hwin eq_refl) as [Hstored _].
  exact (f_equal (fun s => map row_id s.1) Hstored).
Defined.

Lemma indexedTags_valueless_first_d (test : string -> bool) (event : Event) :
  tags event = [["d"]; ["d"; "x"]] ->
  indexedTags test event = if test "#d" then [["d"; "x"]] else [].
Proof.
  intros Ht. unfold indexedTags. rewrite Ht. simpl.
  change ("#" +:+ "d") with "#d".
  destruct (test "#d"); reflexivity.
Qed.

(** The row of such an event is not filed under the identifier [""] that
    [saveAddressableEvent] computes for it. *)
Lemma valueless_first_d_row_not_under_identifier
    (test : string -> bool) (event : Event) :
  tags event = [["d"]; ["d"; "x"]] ->
  identifier event = ""
  /\ tags_json_has (event_row test event) "d" [identifier event] = false.
Proof.
  intros Ht.
  assert (Hi : identifier event = "") by (unfold identifier; by rewrite Ht).
  split; [exact Hi|]. rewrite Hi.
  unfold tags_json_has, event_row, indexedTagsMap.
  rewrite (indexedTags_valueless_first_d test event Ht).
  destruct (test "#d"); reflexivity.
Qed.

(** C1, the input on which the code departs from the claim. [draft_old] and
    [draft_new] are two versions of one addressable event: same kind, same
    pubkey, the same tags (so the same [d] identifier), both accepted by the
    handler, [draft_new] the more recent. Their first [d] tag has no value,
    so [saveAddressableEvent] looks up the identifier [""], while their row
    is filed under the value ["x"] of the second [d] tag (or under nothing,
    when [d] is not an indexed tag): the lookup never finds the stored
    version, and after both submissions both rows are stored. This holds
    whatever [tagsFilterRegExp] accepts. *)
Theorem addressable_versions_both_kept (tagsFilterRegExp_test : string -> bool) :
  let handle :=
    EventMessageHandler_handle tagsFilterRegExp_test sample_hexRegExp_test
      sample_broadcastable defaultConfig sample_verifyEvent in
  let first := handle draft_old sample_ctx empty_env 0%nat 5000 "uuid-1" in
  let second := handle draft_new first.1.1 first.1.2 0%nat 6000 "uuid-2" in
  kind draft_old = kind draft_new
  /\ pubkey draft_old = pubkey draft_new
  /\ tags draft_old = tags draft_new
  /\ identifier draft_old = identifier draft_new
  /\ created_at draft_old < created_at draft_new
  /\ isAddressableKind (kind draft_old) = true
  /\ received 0 first.2 = [OK (id draft_old) true ""]
  /\ received 0 second.2 = [OK (id draft_new) true ""]
  /\ map row_id (DB second.1.2) = [id draft_old; id draft_new]
  /\ kv_events second.1.2 !! id draft_old = Some draft_old
  /\ kv_events second.1.2 !! id draft_new = Some draft_new.
Proof.
  intros handle first second.
  assert (Hfirst : first
          = (sample_ctx,
             save tagsFilterRegExp_test empty_env draft_old None 5000,
             [(0%nat, OK (id draft_old) true "")])) by reflexivity.
  assert (Hunseen :
    saveAddressableEvent tagsFilterRegExp_test
      (save tagsFilterRegExp_test empty_env draft_old None 5000)
      draft_new None 6000
    = save tagsFilterRegExp_test
        (save tagsFilterRegExp_test empty_env draft_old None 5000)
        draft_new None 6000).
  { apply saveAddressableEvent_unseen. intros r Hr.
    apply list_elem_of_singleton in Hr as ->.
    unfold addressable_query.
    destruct (valueless_first_d_row_not_under_identifier
                tagsFilterRegExp_test draft_old eq_refl) as [_ Hrow].
    change (identifier draft_new) with (identifier draft_old).
    rewrite Hrow. apply andb_false_r. }
  assert (Hsecond : second
          = (sample_ctx,
             save tagsFilterRegExp_test
               (save tagsFilterRegExp_test empty_env draft_old None 5000)
               draft_new None 6000,
             [(0%nat, OK (id draft_new) true "")])).
  { subst second. rewrite Hfirst. subst handle. cbn [fst snd].
    unfold EventMessageHandler_handle, store_event.
    change (sample_verifyEvent draft_new) with true.
    change (webSockets sample_ctx !! 0%nat) with (Some conn_alice).
    change (needs_auth defaultConfig conn_alice draft_new) with false.
    change (isReplaceableKind (kind draft_new)) with false.
    change (isAddressableKind (kind draft_new)) with true.
    change (has_d_tag draft_new) with true.
    change (broadcast sample_broadcastable sample_ctx draft_new)
      with ([] : list (nat * Frame)).
    cbn [negb]. change (ipAddress conn_alice) with (@None string).
    by rewrite Hunseen. }
  rewrite Hsecond, Hfirst.
  repeat (split; [reflexivity|]). reflexivity.
Qed.

(** C4, the input on which the code departs from the claim. [draft_old]
    is an addressable event that the handler accepts; its first [d] tag
    has no value. It is submitted to an empty repository and stored, and
    then the same event is submitted again. The lookup of
    [saveAddressableEvent] asks for the identifier [""], under which the
    stored row is not filed, so it returns nothing: the event is not
    compared with its stored copy but saved again. Both submissions are
    answered [OK true], and the second one changes the stored state: the
    table holds a second row with the same id and the KV entry is written
    anew. This holds whatever [tagsFilterRegExp] accepts. *)
Theorem resubmitted_version_is_saved_again
    (tagsFilterRegExp_test : string -> bool) :
  let handle :=
    EventMessageHandler_handle tagsFilterRegExp_test sample_hexRegExp_test
      sample_broadcastable defaultConfig sample_verifyEvent in
  let first := handle draft_old sample_ctx empty_env 0%nat 5000 "uuid-1" in
  let second := handle draft_old first.1.1 first.1.2 0%nat 6000 "uuid-2" in
  isAddressableKind (kind draft_old) = true
  /\ has_d_tag draft_old = true
  /\ received 0 first.2 = [OK (id draft_old) true ""]
  /\ map row_id (DB first.1.2) = [id draft_old]
  /\ kv_events first.1.2 !! id draft_old = Some draft_old
  /\ current_latest first.1.2 draft_old = None
  /\ received 0 second.2 = [OK (id draft_old) true ""]
  /\ map row_id (DB second.1.2) = [id draft_old; id draft_old]
  /\ events first.1.2 !! id draft_old
     = Some (draft_old, mkMetadata None 5000)
  /\ events second.1.2 !! id draft_old
     = Some (draft_old, mkMetadata None 6000)
  /\ second.1.2 <> first.1.2.
Proof.
  intros handle first second.
  assert (Hfirst : first
          = (sample_ctx,
             save tagsFilterRegExp_test empty_env draft_old None 5000,
             [(0%nat, OK (id draft_old) true "")])) by reflexivity.
  assert (Hnone : forall r,
             r ∈ DB (save tagsFilterRegExp_test empty_env draft_old None 5000) ->
             addressable_query draft_old r = false).
  { intros r Hr. apply list_elem_of_singleton in Hr as ->.
    unfold addressable_query.
    destruct (valueless_first_d_row_not_under_identifier
                tagsFilterRegExp_test draft_old eq_refl) as [_ Hrow].
    rewrite Hrow. apply andb_false_r. }
  assert (Hunseen :
    saveAddressableEvent tagsFilterRegExp_test
      (save tagsFilterRegExp_test empty_env draft_old None 5000)
      draft_old None 6000
    = save tagsFilterRegExp_test
        (save tagsFilterRegExp_test empty_env draft_old None 5000)
        draft_old None 6000).
  { by apply saveAddressableEvent_unseen. }
  assert (Hsecond : second
          = (sample_ctx,
             save tagsFilterRegExp_test
               (save tagsFilterRegExp_test empty_env draft_old None 5000)
               draft_old None 6000,
             [(0%nat, OK (id draft_old) true "")])).
  { subst second. rewrite Hfirst. subst handle. cbn [fst snd].
    unfold EventMessageHandler_handle, store_event.
    change (sample_verifyEvent draft_old) with true.
    change (webSockets sample_ctx !! 0%nat) with (Some conn_alice).
    change (needs_auth defaultConfig conn_alice draft_old) with false.
    change (isReplaceableKind (kind draft_old)) with false.
    change (isAddressableKind (kind draft_old)) with true.
    change (has_d_tag draft_old) with true.
    change (broadcast sample_broadcastable sample_ctx draft_old)
      with ([] : list (nat * Frame)).
    cbn [negb]. change (ipAddress conn_alice) with (@None string).
    by rewrite Hunseen. }
  rewrite Hsecond, Hfirst. cbn [fst snd].
  split; [reflexivity|]. split; [reflexivity|]. split; [reflexivity|].
  split; [reflexivity|]. split; [reflexivity|].
  split.
  { unfold current_latest, existing.
    change (isReplaceableKind (kind draft_old)) with false. cbn iota.
    by rewrite (filter_nil_of_forall _ _ Hnone). }
  split; [reflexivity|]. split; [reflexivity|]. split; [reflexivity|].
  split; [reflexivity|].
  intros Heq. apply (f_equal (fun env => length (DB env))) in Heq.
  rewrite !DB_save, !length_app in Heq. simpl in Heq. lia.
Qed.

(** An article filed under the identifier ["a"], the value of its first
    [d] tag, that carries a second [d] tag with the empty value. *)
Definition article_a : Event :=
  signed (hex64 "e") alice 100 30023 [["d"; "a"]; ["d"; ""]].

(** C7, the input on which the code departs from the claim. [article_a]
    has the identifier ["a"], [article_empty_d_2] the identifier [""]:
    two different keys of the same kind and author. [article_a] is
    submitted to an empty repository and stored; its row is filed under
    both of its [d] values. [article_empty_d_2] is then accepted
    ([OK true]) and resolved under [""]: the lookup matches the row of
    [article_a] by its second [d] value, and the version stored under the
    key ["a"] is deleted. The key [""] is not kept apart from the key
    ["a"]. *)
Theorem empty_identifier_replaces_another_key :
  let first := sample_handle article_a sample_ctx empty_env 0%nat 5000 "uuid-1" in
  let second :=
    sample_handle article_empty_d_2 first.1.1 first.1.2 0%nat 6000 "uuid-2" in
  kind article_a = kind article_empty_d_2
  /\ pubkey article_a = pubkey article_empty_d_2
  /\ isAddressableKind (kind article_a) = true
  /\ identifier article_a = "a"
  /\ identifier article_empty_d_2 = ""
  /\ d_tag_value article_empty_d_2 ""
  /\ received 0 first.2 = [OK (id article_a) true ""]
  /\ map row_id (rows_of_key first.1.2 (kind article_a) (pubkey article_a) "a")
     = [id article_a]
  /\ kv_events first.1.2 !! id article_a = Some article_a
  /\ received 0 second.2 = [OK (id article_empty_d_2) true ""]
  /\ map row_id (DB second.1.2) = [id article_empty_d_2]
  /\ rows_of_key second.1.2 (kind article_a) (pubkey article_a) "a" = []
  /\ kv_events second.1.2 !! id article_a = None
  /\ kv_events second.1.2 !! id article_empty_d_2 = Some article_empty_d_2.
Proof.
  intros first second.
  split; [reflexivity|]. split; [reflexivity|]. split; [reflexivity|].
  split; [reflexivity|]. split; [reflexivity|].
  split; [exists ["d"; ""]; split; reflexivity|].
  split; [vm_compute; reflexivity|]. split; [vm_compute; reflexivity|].
  split; [vm_compute; reflexivity|]. split; [vm_compute; reflexivity|].
  split; [vm_compute; reflexivity|]. split; [vm_compute; reflexivity|].
  split; vm_compute; reflexivity.
Qed.

(** ** Deletion *)


(** ** Addressable events *)

(** An article without a [d] tag, and one whose [d] tag is empty, each
    submitted by Alice to the empty repository. *)
Lemma addressable_d_tag_boundary_witness :
  sample_verifyEvent article_no_d = true
  /\ isAddressableKind (kind article_no_d) = true
  /\ (forall t, t ∈ tags article_no_d -> at_ t 0 <> Some "d")
  /\ sample_handle article_no_d sample_ctx empty_env 0 5000 "uuid-1"
     = (sample_ctx, empty_env,
        [(0%nat, OK (id article_no_d) false
                    "invalid: addressable event requires d tag")])
  /\ d_tag_value article_empty_d ""
  /\ kept empty_env article_empty_d = true
  /\ identifier article_empty_d = ""
  /\ events (sample_handle article_empty_d sample_ctx empty_env 0 5000
                           "uuid-1").1.2 !! id article_empty_d
     = Some (article_empty_d, mkMetadata None 5000)
  /\ event_row sample_tagsFilterRegExp_test article_empty_d
     ∈ rows_of_key (sample_handle article_empty_d sample_ctx empty_env 0 5000
                                  "uuid-1").1.2
                   (kind article_empty_d) (pubkey article_empty_d) "".
Proof.
  assert (H1 : sample_verifyEvent article_no_d = true) by reflexivity.
  assert (H1' : sample_verifyEvent article_empty_d = true) by reflexivity.
  assert (H2 : webSockets sample_ctx !! 0%nat = Some conn_alice) by reflexivity.
  assert (H3 : needs_auth defaultConfig conn_alice article_no_d = false)
    by (vm_compute; reflexivity).
  assert (H3' : needs_auth defaultConfig conn_alice article_empty_d = false)
    by (vm_compute; reflexivity).
  assert (H4 : isAddressableKind (kind article_no_d) = true) by reflexivity.
  assert (H4' : isAddressableKind (kind article_empty_d) = true) by reflexivity.
  assert (H5 : forall t, t ∈ tags article_no_d -> at_ t 0 <> Some "d").
  { intros t Ht. apply list_elem_of_singleton in Ht as ->. discriminate. }
  assert (H6 : d_tag_value article_empty_d "").
  { exists ["d"; ""]. split; reflexivity. }
  assert (H7 : kept empty_env article_empty_d = true) by reflexivity.
  split; [exact H1|]. split; [exact H4|]. split; [exact H5|]. split.
  - exact (proj1 (addressable_d_tag_boundary sample_tagsFilterRegExp_test
                    sample_hexRegExp_test sample_broadcastable defaultConfig
                    sample_verifyEvent article_no_d sample_ctx empty_env 0 5000
                    "uuid-1" conn_alice H1 H2 H3 H4) H5).
  - split; [exact H6|]. split; [exact H7|].
    pose proof (proj2 (addressable_d_tag_boundary sample_tagsFilterRegExp_test
                         sample_hexRegExp_test sample_broadcastable defaultConfig
                         sample_verifyEvent article_empty_d sample_ctx empty_env
                         0 5000 "uuid-1" conn_alice H1' H2 H3' H4') H6)
      as (Hident & _ & _ & _ & Hkept).
    destruct (Hkept H7) as (Hkv & Hfiled & _).
    split; [exact Hident|]. split; [exact Hkv|]. apply Hfiled. reflexivity.
Defined.

(** * Examples: the registry, the relay object and the repository *)

(** ** More sample data *)

(** A socket with an outstanding challenge and no authorized pubkey. *)
Definition conn_pending : Connection :=
  {| conn_id := "c-bob"; ipAddress := None; url := relay_url;
     auth := Some (mkSession "challenge-1" 1000);
     pubkeys := ∅ |}.

Definition pending_ctx : DurableObjectState :=
  {| webSockets := [conn_pending]; storage := ∅; maintenance := None |}.

(** The answer to the challenge ["uuid-1"]. *)
Definition auth_reply : Event :=
  signed (hex64 "f") alice 6000 22242
         [["relay"; relay_url]; ["challenge"; "uuid-1"]].

(** The default configuration with [auth_required] turned on. *)
Definition strict_config : Config :=
  {| limitation :=
       {| max_subscriptions := 20;
          max_filters := 10;
          max_limit := 500;
          max_subid_length := 50;
          auth_required := true;
          restricted_writes := true |};
     auth_timeout := 600;
     auth_limit := 5;
     default_limit := 50 |}.

(** The protocol of a URL runs up to its first colon. *)
Definition sample_URL_parse (s : string) : URL :=
  match index 0 ":" s with
  | Some n => mkURL (substring 0 (S n) s)
                    (substring (S n) (String.length s - S n) s)
  | None => mkURL "" s
  end.

Definition note_2 : Event := signed (hex64 "b") alice 200 1 [].

(** The handlers and the repository with the stand-ins and the default
    configuration. *)
Definition sample_save := save sample_tagsFilterRegExp_test.

Definition one_note : Bindings := sample_save empty_env note_1 None 0.

Definition two_notes : Bindings := sample_save one_note note_2 None 0.

Lemma sample_ctx_within_limits : within_limits defaultConfig sample_ctx.
Proof.
  intros key subs Hsubs. cbn [sample_ctx storage] in Hsubs.
  apply lookup_singleton_Some in Hsubs as [_ <-].
  split; [|split].
  - apply NoDup_singleton.
  - vm_compute. discriminate.
  - intros sid fs Hin. apply list_elem_of_singleton in Hin.
    injection Hin as _ ->. vm_compute. discriminate.
Qed.

Lemma empty_env_consistent t : consistent t empty_env.
Proof.
  split; [|split].
  - intros k e md H. cbn [empty_env events] in H. by rewrite lookup_empty in H.
  - intros r H. by apply not_elem_of_nil in H.
  - apply NoDup_nil_2.
Qed.

Lemma one_note_consistent : consistent sample_tagsFilterRegExp_test one_note.
Proof.
  apply consistent_save; [apply empty_env_consistent|apply not_elem_of_nil].
Qed.

Lemma two_notes_consistent : consistent sample_tagsFilterRegExp_test two_notes.
Proof.
  apply consistent_save; [apply one_note_consistent|].
  intros H. apply list_elem_of_singleton in H. vm_compute in H. discriminate.
Qed.

Lemma note_1_accepted (ctx : DurableObjectState) (env : Bindings) :
  webSockets ctx !! 0%nat = Some conn_alice ->
  (0%nat, OK (id note_1) true "") ∈ (sample_handle note_1 ctx env 0 5000 "uuid-1").2.
Proof.
  intros Hws. unfold sample_handle, EventMessageHandler_handle.
  rewrite Hws. apply list_elem_of_here.
Qed.

(** ** Authentication *)

(** The pending socket answers its challenge in time. *)
Lemma auth_is_granted_only_on_a_valid_challenge_witness :
  AuthMessageHandler_handle defaultConfig sample_normalizeURL
    sample_Account_exists auth_event pending_ctx 0 1500
  = Some ({| webSockets := [with_pubkey conn_pending alice];
             storage := ∅; maintenance := None |},
          [(0%nat, OK (id auth_event) true "")])
  /\ auth_granted defaultConfig sample_normalizeURL sample_Account_exists
       conn_pending auth_event 1500.
Proof.
  assert (H1 : AuthMessageHandler_handle defaultConfig sample_normalizeURL
                 sample_Account_exists auth_event pending_ctx 0 1500
               = Some ({| webSockets := [with_pubkey conn_pending alice];
                          storage := ∅; maintenance := None |},
                       [(0%nat, OK (id auth_event) true "")]))
    by (vm_compute; reflexivity).
  assert (H2 : webSockets pending_ctx !! 0%nat = Some conn_pending)
    by reflexivity.
  assert (H3 : webSockets {| webSockets := [with_pubkey conn_pending alice];
                             storage := ∅; maintenance := None |} !! 0%nat
               = Some (with_pubkey conn_pending alice)) by reflexivity.
  assert (H4 : pubkey auth_event ∉ pubkeys conn_pending)
    by apply not_elem_of_empty.
  assert (H5 : pubkey auth_event ∈ pubkeys (with_pubkey conn_pending alice))
    by (apply elem_of_union_l, elem_of_singleton; reflexivity).
  split; [exact H1|].
  exact (proj1 (auth_is_granted_only_on_a_valid_challenge defaultConfig
                  sample_normalizeURL sample_Account_exists auth_event
                  pending_ctx _ 0 1500 _ conn_pending _ H1 H2 H3 H4 H5)).
Defined.

(** Granting the pubkey leaves the number of sockets as it was. *)
Lemma auth_never_withdraws_and_keeps_the_cap_witness :
  AuthMessageHandler_handle defaultConfig sample_normalizeURL
    sample_Account_exists auth_event pending_ctx 0 1500
  = Some ({| webSockets := [with_pubkey conn_pending alice];
             storage := ∅; maintenance := None |},
          [(0%nat, OK (id auth_event) true "")])
  /\ length [with_pubkey conn_pending alice] = length (webSockets pending_ctx).
Proof.
  assert (H1 : AuthMessageHandler_handle defaultConfig sample_normalizeURL
                 sample_Account_exists auth_event pending_ctx 0 1500
               = Some ({| webSockets := [with_pubkey conn_pending alice];
                          storage := ∅; maintenance := None |},
                       [(0%nat, OK (id auth_event) true "")]))
    by (vm_compute; reflexivity).
  split; [exact H1|].
  exact (proj1 (proj2 (proj2 (auth_never_withdraws_and_keeps_the_cap
                                defaultConfig sample_normalizeURL
                                sample_Account_exists auth_event pending_ctx
                                _ 0 1500 _ H1)))).
Defined.

(** The guest submits a note of Alice, is challenged, answers, and may then
    publish as Alice. *)
Lemma challenge_then_auth_then_publish_witness :
  needs_auth defaultConfig conn_guest note_1 = true
  /\ find_tag "challenge" auth_reply = Some "uuid-1"
  /\ (sample_handle note_1 sample_ctx empty_env 1 5000 "uuid-1").2
     = [(1%nat, AUTH "uuid-1");
        (1%nat, OK (id note_1) false
                   "auth-required: we only accept events from registered users")].
Proof.
  assert (H1 : sample_verifyEvent note_1 = true) by reflexivity.
  assert (H2 : webSockets sample_ctx !! 1%nat = Some conn_guest) by reflexivity.
  assert (H3 : needs_auth defaultConfig conn_guest note_1 = true)
    by (vm_compute; reflexivity).
  assert (H4 : pubkey note_1 ∉ pubkeys conn_guest) by apply not_elem_of_empty.
  assert (H5 : kind auth_reply = 22242) by reflexivity.
  assert (H6 : pubkey auth_reply = pubkey note_1) by reflexivity.
  assert (H7 : find_tag "challenge" auth_reply = Some "uuid-1") by reflexivity.
  assert (H8 : find_tag "relay" auth_reply = Some relay_url) by reflexivity.
  assert (H9 : sample_normalizeURL relay_url = Some relay_url) by reflexivity.
  assert (H10 : sample_normalizeURL (url conn_guest) = Some relay_url)
    by reflexivity.
  assert (H11 : 6000 <= 5000 + auth_timeout defaultConfig * 1000)
    by (vm_compute; discriminate).
  assert (H12 : Z.of_nat (size (pubkeys conn_guest)) < auth_limit defaultConfig)
    by (vm_compute; reflexivity).
  assert (H13 : auth_required (limitation defaultConfig)
                || restricted_writes (limitation defaultConfig) = true ->
                sample_Account_exists (pubkey note_1) = true)
    by (intros _; reflexivity).
  split; [exact H3|]. split; [exact H7|].
  exact (proj1 (challenge_then_auth_then_publish sample_tagsFilterRegExp_test
                  sample_hexRegExp_test sample_broadcastable defaultConfig
                  sample_verifyEvent sample_normalizeURL sample_Account_exists
                  note_1 auth_reply sample_ctx empty_env 1 5000 6000 "uuid-1"
                  relay_url relay_url conn_guest
                  H1 H2 H3 H4 H5 H6 H7 H8 H9 H10 H11 H12 H13)).
Defined.

(** ** Subscriptions *)

(** The guest opens a second subscription. *)
Lemma req_registers_the_subscription_witness :
  webSockets sample_ctx !! 1%nat = Some conn_guest
  /\ req_rejected sample_validateFilter defaultConfig "sub2" [kinds_filter [1]]
       (default [] (storage sample_ctx !! conn_id conn_guest)) = false
  /\ webSockets (sample_req "sub2" [kinds_filter [1]] sample_ctx empty_env 1).1
     = webSockets sample_ctx.
Proof.
  assert (H1 : webSockets sample_ctx !! 1%nat = Some conn_guest) by reflexivity.
  assert (H2 : req_rejected sample_validateFilter defaultConfig "sub2"
                 [kinds_filter [1]]
                 (default [] (storage sample_ctx !! conn_id conn_guest)) = false)
    by (vm_compute; reflexivity).
  split; [exact H1|]. split; [exact H2|].
  exact (proj1 (proj2 (proj2 (proj2 (req_registers_the_subscription
                                       sample_idsFilterKeys sample_hexTagKeys
                                       sample_validateFilter defaultConfig
                                       sample_names_column sample_D1_run
                                       "sub2" [kinds_filter [1]] sample_ctx
                                       empty_env 1 conn_guest H1) H2)))).
Defined.

(** The guest subscribes to kind 1; Alice's note then reaches the guest. *)
Lemma subscriber_receives_exactly_the_matching_events_witness :
  webSockets sample_ctx !! 1%nat = Some conn_guest
  /\ (1%nat, EVENT "sub2" note_1)
     ∈ (sample_handle note_1
          (sample_req "sub2" [kinds_filter [1]] sample_ctx empty_env 1).1
          empty_env 0 5000 "uuid-1").2.
Proof.
  assert (H1 : webSockets sample_ctx !! 1%nat = Some conn_guest) by reflexivity.
  assert (H2 : req_rejected sample_validateFilter defaultConfig "sub2"
                 [kinds_filter [1]]
                 (default [] (storage sample_ctx !! conn_id conn_guest)) = false)
    by (vm_compute; reflexivity).
  assert (H3 : (0%nat, OK (id note_1) true "")
               ∈ (sample_handle note_1
                    (sample_req "sub2" [kinds_filter [1]] sample_ctx empty_env 1).1
                    empty_env 0 5000 "uuid-1").2)
    by (apply note_1_accepted; reflexivity).
  split; [exact H1|].
  exact (proj2 (subscriber_receives_exactly_the_matching_events
                  sample_tagsFilterRegExp_test sample_hexRegExp_test
                  sample_idsFilterKeys sample_hexTagKeys sample_validateFilter
                  sample_broadcastable defaultConfig sample_verifyEvent
                  sample_names_column sample_D1_run
                  "sub2" [kinds_filter [1]] sample_ctx empty_env 1 conn_guest
                  note_1 empty_env 0 5000 "uuid-1"
                  H1 sample_ctx_within_limits H2 H3) eq_refl).
Defined.

(** The guest closes its subscription; Alice's note no longer reaches it. *)
Lemma close_ends_the_subscription_witness :
  webSockets sample_ctx !! 1%nat = Some conn_guest
  /\ ((1%nat, EVENT "sub1" note_1)
      ∉ (sample_handle note_1 (CloseMessageHandler_handle "sub1" sample_ctx 1)
           empty_env 0 5000 "uuid-1").2).
Proof.
  assert (H1 : webSockets sample_ctx !! 1%nat = Some conn_guest) by reflexivity.
  split; [exact H1|].
  exact (proj1 (proj2 (proj2 (proj2 (close_ends_the_subscription
                                       sample_tagsFilterRegExp_test
                                       sample_hexRegExp_test
                                       sample_broadcastable defaultConfig
                                       sample_verifyEvent "sub1" sample_ctx 1
                                       conn_guest note_1 empty_env 0 5000
                                       "uuid-1" H1 sample_ctx_within_limits))))).
Defined.

(** Alice's note on the sample relay. *)
Lemma broadcast_sends_once_and_is_bounded_witness :
  0 <= max_subscriptions (limitation defaultConfig)
  /\ NoDup (sample_handle note_1 sample_ctx empty_env 0 5000 "uuid-1").2.
Proof.
  assert (H1 : 0 <= max_subscriptions (limitation defaultConfig))
    by (vm_compute; discriminate).
  split; [exact H1|].
  exact (proj1 (broadcast_sends_once_and_is_bounded
                  sample_tagsFilterRegExp_test sample_hexRegExp_test
                  sample_broadcastable defaultConfig sample_verifyEvent
                  note_1 sample_ctx empty_env 0 5000 "uuid-1"
                  sample_ctx_within_limits H1)).
Defined.

(** ** The relay object *)

(** The guest is told that its subscription is closed, then that it is
    disconnected. *)
Lemma maintenance_notifies_and_closes_every_socket_witness :
  webSockets sample_ctx !! 1%nat = Some conn_guest
  /\ received 1 (Relay_enableMaintenance sample_ctx).1.2
     = [CLOSED "sub1" "error: closed due to maintenance";
        NOTICE "disconnected due to maintenance"].
Proof.
  assert (H1 : webSockets sample_ctx !! 1%nat = Some conn_guest) by reflexivity.
  split; [exact H1|].
  exact (proj1 (maintenance_notifies_and_closes_every_socket
                  sample_broadcastable sample_ctx 1 conn_guest H1)).
Defined.

(** A third client connects to the sample relay. *)
Lemma new_connection_is_unauthenticated_witness :
  in_maintenance sample_ctx = false
  /\ status (Relay_fetch defaultConfig sample_URL_parse sample_ctx
               "https://relay.example/" None "c-carol" "uuid-1" 5000).1.2
     = 101.
Proof.
  assert (H1 : in_maintenance sample_ctx = false) by reflexivity.
  split; [exact H1|].
  exact (proj1 (new_connection_is_unauthenticated
                  sample_tagsFilterRegExp_test sample_hexRegExp_test
                  sample_broadcastable defaultConfig sample_verifyEvent
                  sample_URL_parse sample_ctx "https://relay.example/" None
                  "c-carol" "uuid-1" 5000 H1)).
Defined.

(** Under [auth_required] the third client is challenged at once and
    answers. *)
Lemma connect_then_authenticate_witness :
  sample_normalizeURL
    (convertToWebSocketUrl sample_URL_parse "https://relay.example/")
  = Some relay_url
  /\ (Relay_fetch strict_config sample_URL_parse sample_ctx
        "https://relay.example/" None "c-carol" "uuid-1" 5000).2
     = [(2%nat, AUTH "uuid-1")].
Proof.
  assert (H1 : in_maintenance sample_ctx = false) by reflexivity.
  assert (H2 : auth_required (limitation strict_config) = true) by reflexivity.
  assert (H3 : kind auth_reply = 22242) by reflexivity.
  assert (H4 : find_tag "challenge" auth_reply = Some "uuid-1") by reflexivity.
  assert (H5 : find_tag "relay" auth_reply = Some relay_url) by reflexivity.
  assert (H6 : sample_normalizeURL relay_url = Some relay_url) by reflexivity.
  assert (H7 : sample_normalizeURL
                 (convertToWebSocketUrl sample_URL_parse "https://relay.example/")
               = Some relay_url) by (vm_compute; reflexivity).
  assert (H8 : 6000 <= 5000 + auth_timeout strict_config * 1000)
    by (vm_compute; discriminate).
  assert (H9 : 0 < auth_limit strict_config) by (vm_compute; reflexivity).
  assert (H10 : sample_Account_exists (pubkey auth_reply) = true)
    by reflexivity.
  split; [exact H7|].
  exact (proj1 (connect_then_authenticate strict_config sample_normalizeURL
                  sample_Account_exists sample_URL_parse sample_ctx
                  "https://relay.example/" None "c-carol" "uuid-1" 5000 6000
                  auth_reply relay_url relay_url
                  H1 H2 H3 H4 H5 H6 H7 H8 H9 H10)).
Defined.

(** The guest's socket closes. *)
Lemma closed_socket_is_no_longer_served_witness :
  webSockets sample_ctx !! 1%nat = Some conn_guest
  /\ storage (Relay_webSocketClose sample_ctx 1) !! "c-guest" = None.
Proof.
  assert (H1 : webSockets sample_ctx !! 1%nat = Some conn_guest) by reflexivity.
  split; [exact H1|].
  exact (proj1 (closed_socket_is_no_longer_served sample_broadcastable
                  defaultConfig sample_ctx 1 conn_guest note_1 H1)).
Defined.

(** The metrics of the sample relay. *)
Lemma metrics_stay_within_the_caps_witness :
  0 <= max_subscriptions (limitation defaultConfig)
  /\ ("maintenance" ∉ connection_ids sample_ctx)
  /\ connections (Relay_metrics sample_ctx) = 2%nat.
Proof.
  assert (H1 : 0 <= max_subscriptions (limitation defaultConfig))
    by (vm_compute; discriminate).
  assert (H2 : "maintenance" ∉ connection_ids sample_ctx).
  { intros H. apply list_elem_of_In in H. vm_compute in H.
    destruct H as [H|[H|[]]]; discriminate. }
  split; [exact H1|]. split; [exact H2|].
  exact (proj1 (metrics_stay_within_the_caps defaultConfig sample_ctx
                  sample_ctx_within_limits H1 H2)).
Defined.

(** ** The repository *)

(** Five ids in chunks of two. *)
Lemma chunk_cuts_into_bounded_pieces_witness :
  (0 < 2)%nat
  /\ concat (chunk ["a"; "b"; "c"; "d"; "e"] 2) = ["a"; "b"; "c"; "d"; "e"].
Proof.
  assert (H1 : (0 < 2)%nat) by (apply Nat.lt_0_succ).
  split; [exact H1|].
  exact (proj1 (chunk_cuts_into_bounded_pieces ["a"; "b"; "c"; "d"; "e"] 2 H1)).
Defined.

(** The same store read locally and through the REST API. *)
Lemma findByIds_paths_agree_witness :
  events {| DB := DB one_note; events := events one_note; LOCAL := false |}
  = events one_note
  /\ findByIds one_note [id note_1]
     = findByIds {| DB := DB one_note; events := events one_note;
                    LOCAL := false |} [id note_1].
Proof.
  assert (H1 : events {| DB := DB one_note; events := events one_note;
                         LOCAL := false |} = events one_note) by reflexivity.
  split; [exact H1|].
  exact (proj2 (findByIds_paths_agree one_note _ [id note_1] H1)
               (NoDup_singleton (id note_1))).
Defined.

(** Alice's note is stored in the empty repository. *)
Lemma store_stays_consistent_witness :
  consistent sample_tagsFilterRegExp_test empty_env
  /\ consistent sample_tagsFilterRegExp_test
       (sample_handle note_1 sample_ctx empty_env 0 5000 "uuid-1").1.2.
Proof.
  assert (H1 : consistent sample_tagsFilterRegExp_test empty_env)
    by apply empty_env_consistent.
  assert (H2 : id note_1 ∉ map row_id (DB empty_env))
    by apply not_elem_of_nil.
  split; [exact H1|].
  exact (store_stays_consistent sample_tagsFilterRegExp_test
           sample_hexRegExp_test sample_broadcastable defaultConfig
           sample_verifyEvent note_1 sample_ctx empty_env 0 5000 "uuid-1"
           H1 H2).
Defined.

(** Of two stored notes a query with limit 1 returns the newer. *)
Lemma limit_keeps_the_newest_witness :
  sample_find two_notes (limit_filter 1) = Some [note_2]
  /\ as_written sample_hexTagKeys sample_names_column (limit_filter 1) = true
  /\ where_ (limit_filter 1) (event_row sample_tagsFilterRegExp_test note_1)
     = true
  /\ created_at note_1 <= created_at note_2.
Proof.
  assert (H1 : sample_find two_notes (limit_filter 1) = Some [note_2])
    by (vm_compute; reflexivity).
  assert (H2 : ids_only sample_idsFilterKeys defaultConfig (limit_filter 1)
               = false) by reflexivity.
  assert (H2' : as_written sample_hexTagKeys sample_names_column
                  (limit_filter 1) = true) by reflexivity.
  assert (H3 : note_2 ∈ [note_2]) by apply list_elem_of_here.
  assert (H4 : events two_notes !! id note_1
               = Some (note_1, mkMetadata None 0))
    by (vm_compute; reflexivity).
  assert (H5 : where_ (limit_filter 1)
                 (event_row sample_tagsFilterRegExp_test note_1) = true)
    by reflexivity.
  assert (H6 : note_1 ∉ [note_2]).
  { intros H. apply list_elem_of_singleton in H. discriminate. }
  split; [exact H1|]. split; [exact H2'|]. split; [exact H5|].
  exact (limit_keeps_the_newest sample_tagsFilterRegExp_test
           sample_idsFilterKeys sample_hexTagKeys defaultConfig
           sample_names_column sample_D1_run two_notes (limit_filter 1)
           [note_2] note_2 note_1 (id note_1) (mkMetadata None 0)
           two_notes_consistent H2 H2' H1 H3 H4 H5 H6).
Defined.

(** Alice publishes a note; the guest then asks for it by id and by kind. *)
Lemma published_event_is_served_witness :
  kept empty_env note_1 = true
  /\ ids_only sample_idsFilterKeys defaultConfig (kinds_filter [1]) = false
  /\ where_ (kinds_filter [1]) (event_row sample_tagsFilterRegExp_test note_1)
     = true
  /\ (exists sent,
        (sample_req "sub2" [ids_filter [id note_1]; kinds_filter [1]] sample_ctx
           (sample_handle note_1 sample_ctx empty_env 0 5000 "uuid-1").1.2 1).2
        = Some sent
        /\ (1%nat, EVENT "sub2" note_1) ∈ sent).
Proof.
  assert (H1 : consistent sample_tagsFilterRegExp_test empty_env)
    by apply empty_env_consistent.
  assert (H2 : id note_1 ∉ map row_id (DB empty_env))
    by apply not_elem_of_nil.
  assert (H3 : kept empty_env note_1 = true) by reflexivity.
  assert (H4 : (0%nat, OK (id note_1) true "")
               ∈ (sample_handle note_1 sample_ctx empty_env 0 5000 "uuid-1").2)
    by (apply note_1_accepted; reflexivity).
  assert (H5 : webSockets sample_ctx !! 1%nat = Some conn_guest) by reflexivity.
  assert (H6 : req_rejected sample_validateFilter defaultConfig "sub2"
                 [ids_filter [id note_1]; kinds_filter [1]]
                 (default [] (storage sample_ctx !! conn_id conn_guest)) = false)
    by (vm_compute; reflexivity).
  assert (H7 : forall f, f ∈ [ids_filter [id note_1]; kinds_filter [1]] ->
                 is_Some (sample_find
                            (sample_handle note_1 sample_ctx empty_env 0 5000
                                           "uuid-1").1.2 f)).
  { intros f Hf. apply elem_of_cons in Hf as [->|Hf]; [by eexists|].
    apply list_elem_of_singleton in Hf as ->. by eexists. }
  assert (H8 : kinds_filter [1] ∈ [ids_filter [id note_1]; kinds_filter [1]])
    by (apply list_elem_of_further, list_elem_of_here).
  assert (H9 : ids_only sample_idsFilterKeys defaultConfig (kinds_filter [1])
               = false) by reflexivity.
  assert (H10 : where_ (kinds_filter [1])
                  (event_row sample_tagsFilterRegExp_test note_1) = true)
    by reflexivity.
  assert (H11 : uncut sample_hexTagKeys defaultConfig sample_names_column
                  (sample_handle note_1 sample_ctx empty_env 0 5000
                                 "uuid-1").1.2 (kinds_filter [1])).
  { split; [reflexivity|]. split; [vm_compute; lia|]. right. vm_compute.
    discriminate. }
  split; [exact H3|]. split; [exact H9|]. split; [exact H10|].
  exact (published_event_is_served sample_tagsFilterRegExp_test
           sample_hexRegExp_test sample_idsFilterKeys sample_hexTagKeys
           sample_validateFilter sample_broadcastable defaultConfig
           sample_verifyEvent sample_names_column sample_D1_run
           note_1 sample_ctx empty_env 0 5000 "uuid-1"
           "sub2" [ids_filter [id note_1]; kinds_filter [1]] sample_ctx 1
           conn_guest (kinds_filter [1]) H1 H2 H3 H4 H5 H6 H7 H8
           (conj H10 H11)).
Defined.

(** Alice deletes her note; no query returns it any more. *)
Lemma deleted_event_is_no_longer_served_witness :
  event_row sample_tagsFilterRegExp_test note_1 ∈ DB one_note
  /\ references deletion_1 (id note_1)
  /\ forall filter found e,
       sample_find
         (sample_handle deletion_1 sample_ctx one_note 0 5000 "uuid-1").1.2
         filter = Some found ->
       e ∈ found ->
       id e <> id note_1.
Proof.
  assert (H1 : id deletion_1 ∉ map row_id (DB one_note)).
  { intros H. apply list_elem_of_singleton in H. vm_compute in H.
    discriminate. }
  assert (H2 : kind deletion_1 = EventDeletion) by reflexivity.
  assert (H3 : event_row sample_tagsFilterRegExp_test note_1 ∈ DB one_note)
    by apply list_elem_of_here.
  assert (H4 : references deletion_1
                 (row_id (event_row sample_tagsFilterRegExp_test note_1))).
  { exists ["e"; hex64 "1"]. split; [apply list_elem_of_here|].
    split; reflexivity. }
  assert (H5 : sample_hexRegExp_test
                 (row_id (event_row sample_tagsFilterRegExp_test note_1)) = true)
    by (vm_compute; reflexivity).
  assert (H6 : row_pubkey (event_row sample_tagsFilterRegExp_test note_1)
               = pubkey deletion_1) by reflexivity.
  assert (H7 : row_kind (event_row sample_tagsFilterRegExp_test note_1)
               <> EventDeletion) by (vm_compute; discriminate).
  assert (H8 : (0%nat, OK (id deletion_1) true "")
               ∈ (sample_handle deletion_1 sample_ctx one_note 0 5000
                    "uuid-1").2)
    by apply list_elem_of_here.
  split; [exact H3|]. split; [exact H4|].
  exact (proj1 (deleted_event_is_no_longer_served sample_tagsFilterRegExp_test
                  sample_hexRegExp_test sample_idsFilterKeys sample_hexTagKeys
                  sample_validateFilter sample_broadcastable defaultConfig
                  sample_verifyEvent sample_names_column sample_D1_run
                  deletion_1 sample_ctx one_note 0 5000
                  "uuid-1" (event_row sample_tagsFilterRegExp_test note_1)
                  one_note_consistent H1 H2 H3 H4 H5 H6 H7 H8)).
Defined.




